(** * sview: path matching, dual-buffer reconciliation and the navigation
    controller

    A shallow embedding of [src/utils.ts] and [src/create.svelte.ts].

    Conventions of the embedding
    - a JavaScript string is a [string]; the string methods used by the
      source ([startsWith], [endsWith], [includes], [slice], [split],
      [replace]) are written out below, character by character;
    - [undefined] is [None];
    - a JavaScript object used as a record with string keys whose
      enumeration order matters ([Object.keys], [for ... in]) is an
      association list in insertion order (keys that read as array
      indices, which JavaScript enumerates first, do not occur in route
      tables or parameter records and are left out);
    - a [throw] is the [Throw] outcome of the result type;
    - module-level variables of [create.svelte.ts] are the fields of the
      record [State], threaded explicitly. *)

From Stdlib Require Import String Ascii ZArith Lia Bool Sorted.
From stdpp Require Import base list strings gmap.

Set Warnings "-register-all".
Open Scope string_scope.

(** ** JavaScript string and array primitives *)

Module Js.

(** [s.startsWith(p)] *)
Fixpoint startsWith (s p : string) {struct p} : bool :=
  match p with
  | EmptyString => true
  | String a p' =>
      match s with
      | EmptyString => false
      | String b s' => Ascii.eqb a b && startsWith s' p'
      end
  end.

(** [s.endsWith(p)] *)
Definition endsWith (s p : string) : bool :=
  let n := String.length s in
  let m := String.length p in
  (m <=? n)%nat && String.eqb (substring (n - m) m s) p.

(** [s.indexOf(p)], [None] for -1 *)
Fixpoint indexOf (s p : string) {struct s} : option nat :=
  if startsWith s p then Some 0%nat
  else match s with
       | EmptyString => None
       | String _ s' => S <$> indexOf s' p
       end.

(** [s.includes(p)] *)
Definition includes (s p : string) : bool :=
  match indexOf s p with Some _ => true | None => false end.

(** [s.slice(start, end)], negative positions counted from the end. *)
Definition slice (s : string) (start : Z) (stop : option Z) : string :=
  let len := Z.of_nat (String.length s) in
  let norm k := if (k <? 0)%Z then Z.max (len + k) 0 else Z.min k len in
  let from := norm start in
  let to := match stop with None => len | Some e => norm e end in
  substring (Z.to_nat from) (Z.to_nat (Z.max (to - from) 0)) s.

(** [s.split(sep)] for a one-character separator; never empty:
    [''.split('/')] is [['']]. *)
Fixpoint split (sep : ascii) (s : string) : list string :=
  match s with
  | EmptyString => [EmptyString]
  | String c s' =>
      if Ascii.eqb c sep then EmptyString :: split sep s'
      else match split sep s' with
           | x :: xs => String c x :: xs
           | [] => [String c EmptyString]
           end
  end.

(** [parts.join(sep)] *)
Fixpoint join (sep : string) (parts : list string) : string :=
  match parts with
  | [] => EmptyString
  | [x] => x
  | x :: xs => x +:+ sep +:+ join sep xs
  end.

(** The replacement template of [String.prototype.replace] for a string
    pattern (no captures): [$$] is a dollar sign, [$&] the matched text,
    [$`] the text before the match and [$'] the text after it; every
    other use of [$] is literal. *)
Fixpoint getSubstitution (matched before after template : string) : string :=
  match template with
  | EmptyString => EmptyString
  | String c rest =>
      if Ascii.eqb c "$" then
        match rest with
        | String d rest' =>
            if Ascii.eqb d "$" then
              String "$" (getSubstitution matched before after rest')
            else if Ascii.eqb d "&" then
              matched +:+ getSubstitution matched before after rest'
            else if Ascii.eqb d "`" then
              before +:+ getSubstitution matched before after rest'
            else if Ascii.eqb d "'" then
              after +:+ getSubstitution matched before after rest'
            else String c (getSubstitution matched before after rest)
        | EmptyString => String c EmptyString
        end
      else String c (getSubstitution matched before after rest)
  end.

(** [s.replace(pat, repl)] with a string pattern: the first occurrence
    only. *)
Definition replace (s pat repl : string) : string :=
  match indexOf s pat with
  | None => s
  | Some i =>
      let before := substring 0 i s in
      let after :=
        substring (i + String.length pat)
                  (String.length s - (i + String.length pat)) s in
      before +:+ getSubstitution pat before after repl +:+ after
  end.

End Js.

(** Outcome of a call that may throw. *)
Inductive Error :=
| TypeError
| EmptyViews          (* 'SVW is empty. You need to populate it.' *)
| StillRendering.     (* 'Rendering is still in process' *)

Inductive Res (A : Type) :=
| Ok (a : A)
| Throw (e : Error).
Arguments Ok {A} a.
Arguments Throw {A} e.

(** ** utils.ts: path construction *)

(** [constructPath(path, params)]; [params] is [None] when the argument is
    omitted, otherwise the entries of the record in [for ... in] order. *)
Definition constructPath (path : string)
    (params : option (list (string * string))) : string :=
  match params with
  | None => path
  | Some ps =>
      foldl (fun result kv => Js.replace result (":" +:+ kv.1) kv.2) path ps
  end.

(** [join(...parts)] *)
Definition join (parts : list string) : string :=
  foldl (fun result part =>
           let result :=
             if negb (Js.startsWith part "/") then result +:+ "/" else result in
           let part :=
             if Js.endsWith part "/" then Js.slice part 0 (Some (-1)%Z)
             else part in
           result +:+ part)
        EmptyString parts.

(** ** utils.ts: the active-path matcher *)

Section Compare.
(** [location.pathname] of the browser at the time of the call. *)
Variable location_pathname : string.

(** The [for (const [index, pathPart] of pathParts.entries())] loop of
    [compare]. *)
Fixpoint compare_loop (compareFn : string -> string -> bool)
    (viewParts : list string) (index : nat) (pathParts : list string)
    : Res bool :=
  match pathParts with
  | [] => Ok false
  | pathPart :: rest =>
      match viewParts !! index with
      | None => Throw TypeError       (* undefined.startsWith *)
      | Some viewPart =>
          if Js.startsWith viewPart ":" then
            compare_loop compareFn viewParts (S index) rest
          else Ok (compareFn pathPart viewPart)
      end
  end.

Definition compare (compareFn : string -> string -> bool)
    (pathname : string) (params : option (list (string * string)))
    : Res bool :=
  if negb (Js.includes pathname ":") then
    Ok (compareFn location_pathname pathname)
  else
    match params with
    | Some _ =>
        Ok (compareFn location_pathname (constructPath pathname params))
    | None =>
        let pathParts := drop 1 (Js.split "/" pathname) in
        let viewParts := drop 1 (Js.split "/" location_pathname) in
        compare_loop compareFn viewParts 0 pathParts
    end.

Definition isActive (pathname : string)
    (params : option (list (string * string))) : Res bool :=
  compare String.eqb pathname params.

Definition isActive_startsWith (pathname : string)
    (params : option (list (string * string))) : Res bool :=
  compare (fun a b => Js.startsWith a b) pathname params.
End Compare.

(** ** utils.ts: the priority sorter *)

Definition getViewPriority (view : string) : Z :=
  if String.eqb view "" || String.eqb view "/" then 1
  else if Js.startsWith view "*" then 4
  else if Js.includes view ":" then 3
  else 2.

(** [views.toSorted(cmp)] is a stable sort; with the comparator
    [getViewPriority(a) - getViewPriority(b)] it is the stable insertion
    of each key behind the keys of smaller or equal priority. *)
Fixpoint insertView (view : string) (sorted : list string) : list string :=
  match sorted with
  | [] => [view]
  | y :: ys =>
      if (getViewPriority view <=? getViewPriority y)%Z then view :: y :: ys
      else y :: insertView view ys
  end.

Definition sortViews (views : list string) : list string :=
  foldr insertView [] views.

(** ** utils.ts: data model *)

(** A Svelte component is a function compared by reference; the
    embedding names each one. *)
Definition Component := string.

(** [ViewComponent]: a component, or a lazy import [() => import(...)]
    recognised by [isLazyImport]; a lazy import is given by the exports of
    the module it resolves to. *)
Inductive ViewComponent :=
| Full (c : Component)
| Lazy (exports : list (string * Component)).

(** The second element of the array form
    [[view, { submodule?, params? }]]. *)
Record PairOpts := {
  submodule : option string;
  opt_params : option (list string)
}.

(** A record of parameters; a value may be [undefined]. *)
Definition ParamsRec := list (string * option string).

(** [obj[k] = v] on a record: in place when the key exists, else
    appended.  The list gives the keys in the order of insertion, which
    is the order in which JavaScript enumerates keys that are not
    integers (integer keys come first there); the key ["__proto__"],
    which an assignment does not make an own key, is an ordinary key
    here. *)
Fixpoint obj_set {V : Type} (k : string) (v : V) (obj : list (string * V))
    : list (string * V) :=
  match obj with
  | [] => [(k, v)]
  | (k', v') :: rest =>
      if String.eqb k' k then (k, v) :: rest else (k', v') :: obj_set k v rest
  end.

(** [obj[k]] *)
Fixpoint obj_get {V : Type} (k : string) (obj : list (string * V)) : option V :=
  match obj with
  | [] => None
  | (k', v) :: rest => if String.eqb k' k then Some v else obj_get k rest
  end.

(** [{ ...x, ...y }] *)
Definition obj_spread {V : Type} (x y : list (string * V)) : list (string * V) :=
  foldl (fun acc kv => obj_set kv.1 kv.2 acc) x y.

(** What a slot of the component tree holds in [C] once resolved:
    a component, [undefined] (a lazy module without the requested export),
    or an object that is no component (a table entry outside the declared
    types). *)
Inductive CRef :=
| CUndefined
| CComp (c : Component)
| COpaque.

(** The [params] property of a slot: absent ([undefined]), [false]
    (array form without a [params] list), or the object built by
    [Object.fromEntries]. *)
Inductive ItemParams :=
| ParamsAbsent
| ParamsFalse
| ParamsObj (fields : ParamsRec).

Record Item := {
  item_C : CRef;
  item_key : Z;
  item_params : ItemParams
}.

(** [ComponentTree['value']] *)
Record Tree := {
  tree_a : list Item;
  tree_b : list Item;
  tree_eq : Z
}.

Inductive Letter := La | Lb.

(** ['a' | 'ba' | 'b' | 'ab'] *)
Inductive Cycle := Ca | Cba | Cb | Cab.

(** The argument type ['ab' | 'ba'] of [calculateTree]. *)
Inductive Direction := Dab | Dba.

Definition cycle_of (d : Direction) : Cycle :=
  match d with Dab => Cab | Dba => Cba end.

(** [cycle.split('')], destructured as [[afterCycle, beforeCycle]]. *)
Definition cycle_split (c : Cycle) : option Letter * option Letter :=
  match c with
  | Ca => (Some La, None)
  | Cb => (Some Lb, None)
  | Cab => (Some La, Some Lb)
  | Cba => (Some Lb, Some La)
  end.

Definition direction_split (d : Direction) : Letter * Letter :=
  match d with
  | Dab => (La, Lb)
  | Dba => (Lb, La)
  end.

Inductive Phase :=
| PhIdle | PhBeforeLoad | PhDuringLoad | PhDuringRender | PhAfterRender.

Inductive HistoryState :=
| HsNull
| HsEmptyObject
| HsString (s : string).

Record Location := {
  loc_pathname : string;
  loc_search : string;
  loc_state : HistoryState;
  loc_hash : string
}.

(** Calls made on the browser. *)
Inductive BrowserCall :=
| HistoryGo (delta : Z)
| PushState (st : HistoryState) (url : string)
| ReplaceState (st : HistoryState) (url : string)
| ScrollTo (behavior : option string).

(** [globalThis.location], [history.state] and the calls made so far
    (latest first). *)
Record Browser := {
  br_location : Location;
  br_calls : list BrowserCall
}.

(** What the rendering layer binds under a [mountedComponents] key. *)
Inductive Mounted :=
| MountedEmpty            (* {} *)
| MountedInstance (id : nat).

(** The module-level variables of [create.svelte.ts]; the key
    ["{idx} {key}"] of [mountedComponents] is the pair [(idx, key)]. *)
Record State := {
  componentTree : Tree;
  cycle : Cycle;
  params : ParamsRec;
  phase : Phase;
  location : Location;
  isRendering : bool;
  navigationIndex : Z;
  pendingNavigationIndex : Z;
  base_name : option string;
  mountedComponents : gmap (nat * Z) Mounted;
  firstBoot : bool;
  searchParams : list (string * string);
  browser : Browser
}.

(** A [match] as a hook sees it. *)
Inductive ViewRef :=
| RefView (vc : ViewComponent)
| RefPair (vc : ViewComponent) (o : PairOpts)
| RefOther.

(** How the call of a hook comes back.  A hook whose promise never
    settles does not come back: [onNavigate] waits at its [await], and
    such a call has no outcome here. *)
Inductive HookOutcome := Settled | Rejected.

(** A hook is user code: it settles or throws, and may act on the
    controller's variables (for instance by calling [navigate]). *)
Definition HookFn (A : Type) := A -> State -> HookOutcome * State.

Record BeforeLoadArg := {
  bl_match : option ViewRef;
  bl_params : ParamsRec
}.

Record CompKeys := {
  keys_in : list (nat * Z);
  keys_out : list (nat * Z)
}.

Record LoadArg := {
  la_cycle : Cycle;
  la_componentTree : Tree;
  la_filepathTree : list (option string) * list (option string);
  la_mountedComponents : gmap (nat * Z) Mounted;
  la_keys : CompKeys
}.

Record Hooks := {
  beforeLoad : option (HookFn BeforeLoadArg);
  duringLoad : option (HookFn LoadArg);
  duringRender : option (HookFn LoadArg);
  afterRender : option (HookFn LoadArg)
}.

(** A value stored in a route table ([Views]): a view, the array form, a
    nested table, or the [Hooks] record of the reserved key [hooks].  A
    table lists its entries in [Object.keys] order, the reserved keys
    [layout] and [hooks] included. *)
Inductive Value :=
| VView (vc : ViewComponent)
| VPair (vc : ViewComponent) (o : PairOpts)
| VTable (entries : list (string * Value))
| VHooks (h : Hooks).

Definition Views := list (string * Value).

Record MatchResult := {
  mr_match : option Value;
  mr_layouts : list Value;
  mr_hooks : list Value;
  mr_params : ParamsRec;
  mr_breakFromLayouts : bool
}.

(** ** utils.ts: the path matcher *)

Definition emptyResult : MatchResult :=
  {| mr_match := None; mr_layouts := []; mr_hooks := []; mr_params := [];
     mr_breakFromLayouts := false |}.

Definition with_match (m : option Value) (r : MatchResult) : MatchResult :=
  {| mr_match := m; mr_layouts := mr_layouts r; mr_hooks := mr_hooks r;
     mr_params := mr_params r;
     mr_breakFromLayouts := mr_breakFromLayouts r |}.

Definition with_layouts (l : list Value) (r : MatchResult) : MatchResult :=
  {| mr_match := mr_match r; mr_layouts := l; mr_hooks := mr_hooks r;
     mr_params := mr_params r;
     mr_breakFromLayouts := mr_breakFromLayouts r |}.

Definition with_hooks (h : list Value) (r : MatchResult) : MatchResult :=
  {| mr_match := mr_match r; mr_layouts := mr_layouts r; mr_hooks := h;
     mr_params := mr_params r;
     mr_breakFromLayouts := mr_breakFromLayouts r |}.

Definition with_params (p : ParamsRec) (r : MatchResult) : MatchResult :=
  {| mr_match := mr_match r; mr_layouts := mr_layouts r;
     mr_hooks := mr_hooks r; mr_params := p;
     mr_breakFromLayouts := mr_breakFromLayouts r |}.

Definition with_break (b : bool) (r : MatchResult) : MatchResult :=
  {| mr_match := mr_match r; mr_layouts := mr_layouts r;
     mr_hooks := mr_hooks r; mr_params := mr_params r;
     mr_breakFromLayouts := b |}.

(** How an iteration of the inner loop leaves the scan of a candidate:
    on to the next candidate (the loop ended, or [break]), or
    [break outer]. *)
Inductive Flow := NextView | BreakOuter.

(** The segments of a key: [view.split('/')], a leading [''] shifted
    away. *)
Definition viewPartsOf (view : string) : list string :=
  match Js.split "/" view with
  | EmptyString :: rest => rest
  | parts => parts
  end.

(** [viewPart.startsWith('(') && viewPart.endsWith(')')] *)
Definition isBoundary (viewPart : string) : bool :=
  Js.startsWith viewPart "(" && Js.endsWith viewPart ")".

(** The trailing slash is removed unless the path is the root. *)
Definition stripTrailingSlash (pathname : string) : string :=
  if (1 <? String.length pathname)%nat && Js.endsWith pathname "/"
  then Js.slice pathname 0 (Some (-1)%Z)
  else pathname.

(** The body of [matchView] for one table.  Every entry of the table comes
    with [matchView] already applied to its value, so that the recursive
    call on a nested table is the second component of the entry looked
    up. *)
Section MatchBody.
Variable views : list (string * (Value * (string -> Res MatchResult))).
Variable pathParts : list string.

(** ['layout' in views && views.layout] then [layouts.push(views.layout)] *)
Definition pushLayout (st : MatchResult) : MatchResult :=
  match obj_get "layout" views with
  | Some (l, _) => with_layouts (mr_layouts st ++ [l]) st
  | None => st
  end.

(** ['hooks' in views && views.hooks] then [hooks.push(views.hooks)] *)
Definition pushHooks (st : MatchResult) : MatchResult :=
  match obj_get "hooks" views with
  | Some (h, _) => with_hooks (mr_hooks st ++ [h]) st
  | None => st
  end.

(** The merge of the result of the nested call. *)
Definition mergeNested (st result : MatchResult) : MatchResult :=
  let st := with_match (mr_match result) st in
  let st := with_params (obj_spread (mr_params st) (mr_params result)) st in
  let st := with_hooks (mr_hooks st ++ mr_hooks result) st in
  if mr_breakFromLayouts result then with_layouts [] st
  else with_layouts (mr_layouts st ++ mr_layouts result) st.

(** What follows the test on a segment that was not rejected:
    [continue] unless the segment is the last one of the key, else the
    lookup of the key, the push of the layout and of the hooks, and the
    match or the nested call.  [next] is the rest of the loop. *)
Definition lastSegment (viewParts : list string) (index : nat)
    (breakFromLayouts : bool)
    (next : MatchResult -> Res (Flow * MatchResult)) (st : MatchResult)
    : Res (Flow * MatchResult) :=
  if negb (index =? length viewParts - 1)%nat then next st    (* continue *)
  else
    let viewMatch := obj_get ("/" +:+ Js.join "/" viewParts) views in
    let st := if negb breakFromLayouts then pushLayout st else st in
    let st := pushHooks st in
    match viewMatch with
    | Some (VView vc, _) =>
        if (length viewParts =? length pathParts)%nat
        then Ok (BreakOuter, with_match (Some (VView vc)) st)
        else next st                                          (* continue *)
    | Some (VPair vc o, _) =>
        if (length viewParts =? length pathParts)%nat
        then Ok (BreakOuter, with_match (Some (VPair vc o)) st)
        else next st                                          (* continue *)
    | Some (_, nested) =>
        let nestedPathname :=
          "/" +:+ Js.join "/" (drop (S index) pathParts) in
        match nested nestedPathname with
        | Throw e => Throw e
        | Ok result => Ok (BreakOuter, mergeNested st result)
        end
    | None => Throw TypeError              (* Object.keys(undefined) *)
    end.

(** The inner loop [for (let [index, viewPart] of viewParts.entries())];
    [rest] is what is left of [viewParts] from [index] on. *)
Fixpoint scanParts (viewParts : list string) (index : nat)
    (rest : list string) (st : MatchResult) : Res (Flow * MatchResult) :=
  match rest with
  | [] => Ok (NextView, st)
  | viewPart0 :: rest' =>
      let breakFromLayouts := isBoundary viewPart0 in
      let st := with_break breakFromLayouts st in
      let viewPart :=
        if breakFromLayouts then Js.slice viewPart0 1 (Some (-1)%Z)
        else viewPart0 in
      let pathPart := pathParts !! index in
      if Js.startsWith viewPart ":" then
        let st :=
          with_params
            (obj_set (Js.slice viewPart 1 None) pathPart (mr_params st)) st in
        lastSegment viewParts index breakFromLayouts
                    (scanParts viewParts (S index) rest') st
      else if Js.startsWith viewPart "*" then
        let param := Js.slice viewPart 1 None in
        let st :=
          if negb (String.eqb param "") then
            with_params
              (obj_set param (Some (Js.join "/" (drop index pathParts)))
                       (mr_params st)) st
          else st in
        let st := if breakFromLayouts then st else pushLayout st in
        let resolvedPath :=
          (if (index =? 0)%nat then "" else "/") +:+ Js.join "/" viewParts in
        Ok (BreakOuter, with_match (fst <$> obj_get resolvedPath views) st)
      else if negb (bool_decide (Some viewPart = pathPart)) then
        Ok (NextView, st)                                     (* break *)
      else
        lastSegment viewParts index breakFromLayouts
                    (scanParts viewParts (S index) rest') st
  end.

(** The outer loop [outer: for (const view of allViews)]. *)
Fixpoint scanViews (allViews : list string) (st : MatchResult)
    : Res MatchResult :=
  match allViews with
  | [] => Ok st
  | view :: more =>
      let viewParts := viewPartsOf view in
      match scanParts viewParts 0 viewParts st with
      | Throw e => Throw e
      | Ok (BreakOuter, st') => Ok st'
      | Ok (NextView, st') => scanViews more st'
      end
  end.
End MatchBody.

Definition matchBody
    (views : list (string * (Value * (string -> Res MatchResult))))
    (pathname : string) : Res MatchResult :=
  let pathname := stripTrailingSlash pathname in
  let pathParts := drop 1 (Js.split "/" pathname) in
  let allViews := sortViews (map fst views) in
  scanViews views pathParts allViews emptyResult.

(** The keys of a [Hooks] record. *)
Definition hookKeys (h : Hooks) : list string :=
  (match beforeLoad h with Some _ => ["beforeLoad"] | None => [] end)
  ++ (match duringLoad h with Some _ => ["duringLoad"] | None => [] end)
  ++ (match duringRender h with Some _ => ["duringRender"] | None => [] end)
  ++ (match afterRender h with Some _ => ["afterRender"] | None => [] end).

(** [matchView] applied to a value.  A nested table is scanned entry by
    entry.  The caller never passes a view or the array form (it tests
    [typeof viewMatch === 'function' || Array.isArray(viewMatch)] first);
    a [Hooks] record, which the type [Views] does not allow under a path
    key, would be scanned as the object it is: its keys are the names of
    its callbacks, and none of them is ever looked up. *)
Fixpoint matchValue (v : Value) : string -> Res MatchResult :=
  match v with
  | VTable entries =>
      matchBody (map (fun kv => (kv.1, (kv.2, matchValue kv.2))) entries)
  | VHooks h =>
      matchBody
        (map (fun k => (k, (VView (Full k), fun _ => Ok emptyResult)))
             (hookKeys h))
  | VView _ | VPair _ _ => fun _ => Ok emptyResult
  end.

(** [matchView(pathname, views)] *)
Definition matchView (pathname : string) (views : Views) : Res MatchResult :=
  matchValue (VTable views) pathname.

(** ** utils.ts: resolution of view components *)

(** A resolved element of [next]: a component, or the array form. *)
Inductive Resolved :=
| RComp (c : CRef)
| RPair (c : CRef) (o : PairOpts).

(** [module[name]] of a resolved lazy import *)
Definition moduleExport (exports : list (string * Component)) (name : string)
    : CRef :=
  match obj_get name exports with
  | Some c => CComp c
  | None => CUndefined
  end.

(** [resolveViewComponent(input)]; the module of a lazy import is taken to
    load.  A value that is neither a function nor an array is passed
    through as it is. *)
Definition resolveViewComponent (input : Value) : Resolved :=
  match input with
  | VView (Lazy exports) => RComp (moduleExport exports "default")
  | VView (Full c) => RComp (CComp c)
  | VPair (Lazy exports) o =>
      RPair (moduleExport exports (default "default" (submodule o))) o
  | VPair (Full c) o => RPair (CComp c) o
  | VTable _ | VHooks _ => RComp COpaque
  end.

Definition resolveViewComponents (input : list Value) : list Resolved :=
  map resolveViewComponent input.

(** ** utils.ts: the dual-buffer reconciler *)

Definition tree_get (l : Letter) (t : Tree) : list Item :=
  match l with La => tree_a t | Lb => tree_b t end.

Definition tree_set (l : Letter) (items : list Item) (t : Tree) : Tree :=
  match l with
  | La => {| tree_a := items; tree_b := tree_b t; tree_eq := tree_eq t |}
  | Lb => {| tree_a := tree_a t; tree_b := items; tree_eq := tree_eq t |}
  end.

Definition tree_set_eq (e : Z) (t : Tree) : Tree :=
  {| tree_a := tree_a t; tree_b := tree_b t; tree_eq := e |}.

(** [x !== y] on the [C] of two slots: components are compared by
    reference; two objects that are no components are taken to be
    distinct. *)
Definition cref_differ (x y : CRef) : bool :=
  match x, y with
  | CUndefined, CUndefined => false
  | CComp c, CComp d => negb (String.eqb c d)
  | _, _ => true
  end.

(** [x !== y] on the [params] of an outgoing and an incoming slot: the
    object of an incoming slot was just created by [Object.fromEntries],
    so it is identical to no other object. *)
Definition params_differ (x y : ItemParams) : bool :=
  match x, y with
  | ParamsAbsent, ParamsAbsent => false
  | ParamsFalse, ParamsFalse => false
  | _, _ => true
  end.

(** [item.key++] *)
Definition bumpKey (it : Item) : Item :=
  {| item_C := item_C it; item_key := item_key it + 1;
     item_params := item_params it |}.

(** The callback of [next.map((item, idx) => ...)] *)
Definition makeItem (keys : list Z) (params : ParamsRec) (idx : nat)
    (item : Resolved) : Item :=
  match item with
  | RPair c o =>
      {| item_C := c;
         item_key := default 0%Z (keys !! idx);
         item_params :=
           match opt_params o with
           | None => ParamsFalse                  (* 'params' in item[1] *)
           | Some names =>
               ParamsObj
                 (foldl (fun obj param =>
                           obj_set param (mjoin (obj_get param params)) obj)
                        [] names)
           end |}
  | RComp c =>
      {| item_C := c;
         item_key := default 0%Z (keys !! idx);
         item_params := ParamsAbsent |}
  end.

(** The loop [while (++i < max) { ... }], entered with [i = -1].
    [remaining] is [max - i] and [i] the value of the counter once
    incremented by the test; the result carries the counter as the loop
    leaves it: [max] when the test fails, the index after the differing
    one on [break]. *)
Fixpoint eqLoop (remaining : nat) (i : nat) (before after : list Item)
    (eq : Z) : nat * list Item * Z :=
  match remaining with
  | O => (i, after, eq)
  | S remaining' =>
      match before !! i, after !! i with
      | Some x, Some y =>
          if cref_differ (item_C x) (item_C y)
             || params_differ (item_params x) (item_params y)
          then (S i, alter bumpKey i after, eq)    (* key++; i++; break *)
          else eqLoop remaining' (S i) before after (Z.of_nat i)
      | _, _ => (i, after, eq)
      end
  end.

(** The loop [i--; while (++i < t[afterCycle].length) t[afterCycle][i].key++];
    [i] is the counter the first loop left, [remaining] is
    [t[afterCycle].length - i]. *)
Fixpoint keyLoop (remaining : nat) (i : nat) (after : list Item) : list Item :=
  match remaining with
  | O => after
  | S remaining' => keyLoop remaining' (S i) (alter bumpKey i after)
  end.

(** [t[afterCycle].forEach(({ key }, idx) =>
       mountedComponents[`${idx} ${key}`] = {})] *)
Definition registerMounted (after : list Item)
    (mounted : gmap (nat * Z) Mounted) : gmap (nat * Z) Mounted :=
  foldl (fun m p => <[(p.1, item_key p.2) := MountedEmpty]> m) mounted
        (imap (fun idx it => (idx, it)) after).

(** [calculateTree({ prev, next, cycle, params })]; it also writes to
    [mountedComponents]. *)
Definition calculateTree (prev : Tree) (next : list Resolved)
    (cycle : Direction) (params : ParamsRec)
    (mounted : gmap (nat * Z) Mounted) : Tree * gmap (nat * Z) Mounted :=
  let '(afterCycle, beforeCycle) := direction_split cycle in
  let keys := map item_key (tree_get beforeCycle prev) in
  let t :=
    tree_set afterCycle (imap (makeItem keys params) next)
      (tree_set beforeCycle (tree_get beforeCycle prev)
         {| tree_a := []; tree_b := []; tree_eq := -1 |}) in
  let max := Nat.min (length (tree_a t)) (length (tree_b t)) in
  let '(i, after, eq) :=
    eqLoop max 0 (tree_get beforeCycle t) (tree_get afterCycle t) (tree_eq t) in
  let after := keyLoop (length after - i) i after in
  let t := tree_set_eq eq (tree_set afterCycle after t) in
  (t, registerMounted after mounted).

(** ** create.svelte.ts: the navigation controller *)

Definition set_componentTree (t : Tree) (s : State) : State :=
  {| componentTree := t; cycle := cycle s; params := params s;
     phase := phase s; location := location s; isRendering := isRendering s;
     navigationIndex := navigationIndex s;
     pendingNavigationIndex := pendingNavigationIndex s;
     base_name := base_name s; mountedComponents := mountedComponents s;
     firstBoot := firstBoot s; searchParams := searchParams s;
     browser := browser s |}.

Definition set_cycle (c : Cycle) (s : State) : State :=
  {| componentTree := componentTree s; cycle := c; params := params s;
     phase := phase s; location := location s; isRendering := isRendering s;
     navigationIndex := navigationIndex s;
     pendingNavigationIndex := pendingNavigationIndex s;
     base_name := base_name s; mountedComponents := mountedComponents s;
     firstBoot := firstBoot s; searchParams := searchParams s;
     browser := browser s |}.

Definition set_params (p : ParamsRec) (s : State) : State :=
  {| componentTree := componentTree s; cycle := cycle s; params := p;
     phase := phase s; location := location s; isRendering := isRendering s;
     navigationIndex := navigationIndex s;
     pendingNavigationIndex := pendingNavigationIndex s;
     base_name := base_name s; mountedComponents := mountedComponents s;
     firstBoot := firstBoot s; searchParams := searchParams s;
     browser := browser s |}.

Definition set_phase (p : Phase) (s : State) : State :=
  {| componentTree := componentTree s; cycle := cycle s; params := params s;
     phase := p; location := location s; isRendering := isRendering s;
     navigationIndex := navigationIndex s;
     pendingNavigationIndex := pendingNavigationIndex s;
     base_name := base_name s; mountedComponents := mountedComponents s;
     firstBoot := firstBoot s; searchParams := searchParams s;
     browser := browser s |}.

Definition set_location (l : Location) (s : State) : State :=
  {| componentTree := componentTree s; cycle := cycle s; params := params s;
     phase := phase s; location := l; isRendering := isRendering s;
     navigationIndex := navigationIndex s;
     pendingNavigationIndex := pendingNavigationIndex s;
     base_name := base_name s; mountedComponents := mountedComponents s;
     firstBoot := firstBoot s; searchParams := searchParams s;
     browser := browser s |}.

Definition set_navigationIndex (n : Z) (s : State) : State :=
  {| componentTree := componentTree s; cycle := cycle s; params := params s;
     phase := phase s; location := location s; isRendering := isRendering s;
     navigationIndex := n;
     pendingNavigationIndex := pendingNavigationIndex s;
     base_name := base_name s; mountedComponents := mountedComponents s;
     firstBoot := firstBoot s; searchParams := searchParams s;
     browser := browser s |}.

Definition set_pendingNavigationIndex (n : Z) (s : State) : State :=
  {| componentTree := componentTree s; cycle := cycle s; params := params s;
     phase := phase s; location := location s; isRendering := isRendering s;
     navigationIndex := navigationIndex s;
     pendingNavigationIndex := n;
     base_name := base_name s; mountedComponents := mountedComponents s;
     firstBoot := firstBoot s; searchParams := searchParams s;
     browser := browser s |}.

Definition set_mountedComponents (m : gmap (nat * Z) Mounted) (s : State)
    : State :=
  {| componentTree := componentTree s; cycle := cycle s; params := params s;
     phase := phase s; location := location s; isRendering := isRendering s;
     navigationIndex := navigationIndex s;
     pendingNavigationIndex := pendingNavigationIndex s;
     base_name := base_name s; mountedComponents := m;
     firstBoot := firstBoot s; searchParams := searchParams s;
     browser := browser s |}.

Definition set_firstBoot (b : bool) (s : State) : State :=
  {| componentTree := componentTree s; cycle := cycle s; params := params s;
     phase := phase s; location := location s; isRendering := isRendering s;
     navigationIndex := navigationIndex s;
     pendingNavigationIndex := pendingNavigationIndex s;
     base_name := base_name s; mountedComponents := mountedComponents s;
     firstBoot := b; searchParams := searchParams s;
     browser := browser s |}.

Definition set_searchParams (q : list (string * string)) (s : State) : State :=
  {| componentTree := componentTree s; cycle := cycle s; params := params s;
     phase := phase s; location := location s; isRendering := isRendering s;
     navigationIndex := navigationIndex s;
     pendingNavigationIndex := pendingNavigationIndex s;
     base_name := base_name s; mountedComponents := mountedComponents s;
     firstBoot := firstBoot s; searchParams := q;
     browser := browser s |}.

Definition set_browser (b : Browser) (s : State) : State :=
  {| componentTree := componentTree s; cycle := cycle s; params := params s;
     phase := phase s; location := location s; isRendering := isRendering s;
     navigationIndex := navigationIndex s;
     pendingNavigationIndex := pendingNavigationIndex s;
     base_name := base_name s; mountedComponents := mountedComponents s;
     firstBoot := firstBoot s; searchParams := searchParams s;
     browser := b |}.

(** The value of the export [componentTree] when the module is loaded. *)
Definition initialTree : Tree :=
  {| tree_a := []; tree_b := []; tree_eq := 0 |}.

(** [NavigateOptions] *)
Inductive ScrollOption :=
| ScrollUnset
| ScrollFalse
| ScrollBehavior (b : string).

Record NavigateOptions := {
  opt_hash : option string;
  opt_replace : option bool;
  opt_scrollToTop : ScrollOption;
  opt_search : option string;
  opt_state : option string;
  opt_bypass : option bool;
  opt_hooks : option bool
}.

Definition noOptions : NavigateOptions :=
  {| opt_hash := None; opt_replace := None; opt_scrollToTop := ScrollUnset;
     opt_search := None; opt_state := None; opt_bypass := None;
     opt_hooks := None |}.

(** Truthiness of an optional string: [undefined] and [''] are falsy. *)
Definition truthy (o : option string) : bool :=
  match o with
  | Some s => negb (String.eqb s "")
  | None => false
  end.

(** How a call of the asynchronous [onNavigate] ends: it returns, or it
    throws (the promise is rejected); either way the variables are left in
    a state. *)
Inductive Outcome :=
| Returned (s : State)
| Threw (e : Error) (s : State).

(** [getCompKeys(tree, cycle)] *)
Definition compKeysOf (tree : Tree) (l : option Letter) : list (nat * Z) :=
  match l with
  | None => []
  | Some l =>
      drop (Z.to_nat (tree_eq tree + 1))
           (imap (fun i it => (i, item_key it)) (tree_get l tree))
  end.

Definition getCompKeys (tree : Tree) (c : Cycle) : CompKeys :=
  let '(afterCycle, beforeCycle) := cycle_split c in
  {| keys_in := compKeysOf tree afterCycle;
     keys_out := compKeysOf tree beforeCycle |}.

(** The destructuring [{ beforeLoad }] (and the like) of an element of
    [hooks]; an element that is no [Hooks] record, which the type [Views]
    excludes, has no callbacks. *)
Definition hooksOf (v : Value) : Hooks :=
  match v with
  | VHooks h => h
  | _ => {| beforeLoad := None; duringLoad := None; duringRender := None;
            afterRender := None |}
  end.

(** [cleanMountedComponents()]: an entry goes when its key is below
    [Math.min(a[depth]?.key ?? Infinity, b[depth]?.key ?? Infinity)]. *)
Definition minLiveKey (t : Tree) (depth : nat) : option Z :=
  match item_key <$> tree_a t !! depth, item_key <$> tree_b t !! depth with
  | Some x, Some y => Some (Z.min x y)
  | Some x, None => Some x
  | None, Some y => Some y
  | None, None => None                                  (* Infinity *)
  end.

Definition isStale (t : Tree) (k : nat * Z) : bool :=
  match minLiveKey t k.1 with
  | Some m => (k.2 <? m)%Z
  | None => true
  end.

Definition cleanMountedComponents (s : State) : State :=
  let toclean :=
    filter (fun k => isStale (componentTree s) k = true)
           (map fst (map_to_list (mountedComponents s))) in
  set_mountedComponents
    (foldl (fun m k => delete k m) (mountedComponents s) toclean) s.

Section Controller.
(** The module variable [views], [None] until [createView] sets it. *)
Variable views : option Views.
(** [componentToString]: the file path Svelte attaches to a component. *)
Variable componentToString : CRef -> option string.
(** The pathname, search and hash of the document once the browser has
    resolved the URL given to [pushState] or [replaceState]. *)
Variable resolveURL : string -> Location -> string * string * string.
(** The entries of [new URLSearchParams(search)]. *)
Variable parseSearch : string -> list (string * string).
(** [new Error().stack?.includes('beforeLoad')] and
    [new Error().stack?.includes('duringLoad')], read off the call stack
    at the time of the test. *)
Variable fromBeforeLoadHook : State -> bool.
Variable fromDuringLoadHook : State -> bool.

Definition filepathTree (s : State)
    : list (option string) * list (option string) :=
  (map (fun c => componentToString (item_C c)) (tree_a (componentTree s)),
   map (fun c => componentToString (item_C c)) (tree_b (componentTree s))).

(** The argument built for [duringLoad], [duringRender] and
    [afterRender]. *)
Definition loadArg (s : State) : LoadArg :=
  {| la_cycle := cycle s;
     la_componentTree := componentTree s;
     la_filepathTree := filepathTree s;
     la_mountedComponents := mountedComponents s;
     la_keys := getCompKeys (componentTree s) (cycle s) |}.

Definition asViewRef (v : Value) : ViewRef :=
  match v with
  | VView vc => RefView vc
  | VPair vc o => RefPair vc o
  | _ => RefOther
  end.

(** [for (const { beforeLoad } of hooks) { try { ... } catch { ... } }]:
    the loop stops at the first hook that throws. *)
Fixpoint runBeforeLoad (hooks : list Value) (arg : BeforeLoadArg)
    (currentNavigationIndex : Z) (s : State) : HookOutcome * State :=
  match hooks with
  | [] => (Settled, s)
  | h :: rest =>
      let s := set_pendingNavigationIndex currentNavigationIndex s in
      match beforeLoad (hooksOf h) with
      | None => runBeforeLoad rest arg currentNavigationIndex s
      | Some f =>
          match f arg s with
          | (Settled, s') => runBeforeLoad rest arg currentNavigationIndex s'
          | (Rejected, s') => (Rejected, s')
          end
      end
  end.

(** [for (const { duringLoad } of hooks) { try { ... } catch { ... } }] *)
Fixpoint runDuringLoad (hooks : list Value) (currentNavigationIndex : Z)
    (s : State) : HookOutcome * State :=
  match hooks with
  | [] => (Settled, s)
  | h :: rest =>
      let s := set_pendingNavigationIndex currentNavigationIndex s in
      match duringLoad (hooksOf h) with
      | None => runDuringLoad rest currentNavigationIndex s
      | Some f =>
          match f (loadArg s) s with
          | (Settled, s') => runDuringLoad rest currentNavigationIndex s'
          | (Rejected, s') => (Rejected, s')
          end
      end
  end.

(** The loops over [duringRender] and [afterRender]: an error is caught
    and the loop goes on. *)
Fixpoint runIgnoring (pick : Hooks -> option (HookFn LoadArg))
    (hooks : list Value) (s : State) : State :=
  match hooks with
  | [] => s
  | h :: rest =>
      match pick (hooksOf h) with
      | None => runIgnoring pick rest s
      | Some f => runIgnoring pick rest (f (loadArg s) s).2
      end
  end.

(** [history.pushState(state, '', to)] or [replaceState] *)
Definition historyWrite (replace : bool) (st : HistoryState) (to : string)
    (b : Browser) : Browser :=
  let '(pathname, search, hash) := resolveURL to (br_location b) in
  {| br_location :=
       {| loc_pathname := pathname; loc_search := search; loc_state := st;
          loc_hash := hash |};
     br_calls :=
       (if replace then ReplaceState st to else PushState st to)
         :: br_calls b |}.

Definition browserCall (c : BrowserCall) (b : Browser) : Browser :=
  {| br_location := br_location b; br_calls := c :: br_calls b |}.

(** [syncSearchParams()] *)
Definition syncSearchParams (s : State) : State :=
  let newSearchParams := parseSearch (loc_search (br_location (browser s))) in
  if bool_decide (searchParams s = newSearchParams) then s
  else set_searchParams newSearchParams s.

(** From [if (path) { ... }] to [window.scrollTo]: the commit to history
    and to the observed location. *)
Definition commit (path : option string) (options : NavigateOptions)
    (newParams : ParamsRec) (s : State) : State :=
  let s :=
    match path with
    | Some p =>
        if negb (String.eqb p "") then
          let p := if truthy (opt_search options)
                   then p +:+ default "" (opt_search options) else p in
          let p := if truthy (opt_hash options)
                   then p +:+ default "" (opt_hash options) else p in
          let to := if truthy (base_name s)
                    then join [default "" (base_name s); p] else p in
          let st := if truthy (opt_state options)
                    then HsString (default "" (opt_state options))
                    else HsEmptyObject in
          set_browser
            (historyWrite (default false (opt_replace options)) st to
                          (browser s)) s
        else s
    | None => s
    end in
  let s := set_params newParams s in
  let s := syncSearchParams s in
  let s := set_location (br_location (browser s)) s in
  match opt_scrollToTop options with
  | ScrollFalse => s
  | ScrollUnset => set_browser (browserCall (ScrollTo None) (browser s)) s
  | ScrollBehavior b =>
      set_browser (browserCall (ScrollTo (Some b)) (browser s)) s
  end.

(** [revertLoading()] *)
Definition revertLoading (prevCycle : Cycle) (prevComponentTree : Tree)
    (s : State) : State :=
  set_componentTree prevComponentTree (set_cycle prevCycle s).

(** How the part of [onNavigate] behind the first [if (!bypass)] ends:
    at one of its four [return] statements, or by falling through to the
    commit. *)
Inductive LoadEnd :=
| BeforeLoadThrew (s : State)       (* [catch] of the [beforeLoad] loop *)
| BeforeLoadCancelled (s : State)   (* staleness test after [beforeLoad] *)
| DuringLoadThrew (s : State)       (* [catch] of the [duringLoad] loop *)
| DuringLoadCancelled (s : State)   (* staleness test after [duringLoad] *)
| Loaded (s : State).

(** The part of [onNavigate] behind the first [if (!bypass)]. *)
Definition loadPhases (r : MatchResult) (prevCycle : Cycle)
    (nextCycle : Direction) (currentNavigationIndex : Z) (s : State)
    : LoadEnd :=
  let s := set_phase PhBeforeLoad s in
  let arg := {| bl_match := asViewRef <$> mr_match r;
                bl_params := mr_params r |} in
  match runBeforeLoad (mr_hooks r) arg currentNavigationIndex s with
  | (Rejected, s) => BeforeLoadThrew (set_phase PhIdle s)
  | (Settled, s) =>
      if negb (navigationIndex s =? currentNavigationIndex)%Z
         || (fromBeforeLoadHook s
             && negb (pendingNavigationIndex s + 1
                      =? currentNavigationIndex)%Z)
      then BeforeLoadCancelled (set_phase PhIdle s)
      else
        let viewComponents :=
          resolveViewComponents
            (match mr_match r with
             | Some m => mr_layouts r ++ [m]
             | None => mr_layouts r
             end) in
        let prevComponentTree := componentTree s in
        let '(t, mounted) :=
          calculateTree (componentTree s) viewComponents nextCycle
                        (mr_params r) (mountedComponents s) in
        let s := set_componentTree t (set_mountedComponents mounted s) in
        let s := set_cycle (cycle_of nextCycle) s in
        let s := set_phase PhDuringLoad s in
        match runDuringLoad (mr_hooks r) currentNavigationIndex s with
        | (Rejected, s) =>
            DuringLoadThrew
              (set_phase PhIdle (revertLoading prevCycle prevComponentTree s))
        | (Settled, s) =>
            if negb (navigationIndex s =? currentNavigationIndex)%Z
               || (fromDuringLoadHook s
                   && negb (pendingNavigationIndex s + 1
                            =? currentNavigationIndex)%Z)
            then DuringLoadCancelled
                   (set_phase PhIdle
                      (revertLoading prevCycle prevComponentTree s))
            else Loaded s
        end
  end.

(** The part of [onNavigate] behind the second [if (!bypass)]. *)
Definition renderPhases (r : MatchResult) (s : State) : State :=
  let s := set_phase PhDuringRender s in
  let s := runIgnoring duringRender (mr_hooks r) s in
  let s := set_cycle (match cycle s with Cba => Cb | _ => Ca end) s in
  let s := set_phase PhAfterRender s in
  runIgnoring afterRender (mr_hooks r) s.

(** The test [!path && location.pathname === globalThis.location.pathname]
    that keeps hot module replacement from navigating. *)
Definition hmrGuard (path : option string) (s : State) : bool :=
  negb (truthy path)
  && String.eqb (loc_pathname (location s))
                (loc_pathname (br_location (browser s))).

(** [matchPath]: [path || globalThis.location.pathname], the base path
    removed. *)
Definition matchPathOf (path : option string) (s : State) : string :=
  let matchPath :=
    if truthy path then default "" path
    else loc_pathname (br_location (browser s)) in
  if truthy (base_name s)
     && Js.startsWith matchPath (default "" (base_name s))
  then
    let rest :=
      Js.slice matchPath
               (Z.of_nat (String.length (default "" (base_name s)))) None in
    if String.eqb rest "" then "/" else rest
  else matchPath.

(** [if (firstBoot) firstBoot = false] under the test above. *)
Definition clearFirstBoot (path : option string) (s : State) : State :=
  if hmrGuard path s then set_firstBoot false s else s.

(** [navigationIndex++] *)
Definition takeTicket (s : State) : State :=
  set_navigationIndex (navigationIndex s + 1) s.

(** What a navigation that went past the guards leaves behind when it
    returns early or ends. *)
Definition loadEndState (e : LoadEnd) : State :=
  match e with
  | BeforeLoadThrew s | BeforeLoadCancelled s
  | DuringLoadThrew s | DuringLoadCancelled s | Loaded s => s
  end.

(** [onNavigate(path?, options)].  [await tick()] lets the rendering
    layer run and leaves the variables of the controller alone. *)
Definition onNavigate (path : option string) (options : NavigateOptions)
    (s : State) : Outcome :=
  if hmrGuard path s && negb (firstBoot s) then Returned s
  else
    let s := clearFirstBoot path s in
    match views with
    | None => Threw EmptyViews s
    | Some [] => Threw EmptyViews s
    | Some table =>
        if isRendering s then Threw StillRendering s
        else
          match cycle s with
          | Cba | Cab => Returned s
          | prevCycle =>
              let nextCycle :=
                match prevCycle with Ca => Dba | _ => Dab end in
              let s := takeTicket s in
              let currentNavigationIndex := navigationIndex s in
              match matchView (matchPathOf path s) table with
              | Throw e => Threw e s
              | Ok r =>
                  let bypass := default false (opt_bypass options) in
                  let finish (s : State) :=
                    let s := commit path options (mr_params r) s in
                    let s := if negb bypass then renderPhases r s else s in
                    Returned (cleanMountedComponents (set_phase PhIdle s)) in
                  if negb bypass then
                    match loadPhases r prevCycle nextCycle
                                     currentNavigationIndex s with
                    | Loaded s => finish s
                    | e => Returned (loadEndState e)
                    end
                  else finish s
              end
          end
    end.

(** The first argument of [navigate]: a path or a history delta. *)
Inductive NavigateTarget :=
| ToPath (path : string)
| ToDelta (delta : Z).

(** [navigate(path, options)] *)
Definition navigate (path : NavigateTarget) (options : NavigateOptions)
    (s : State) : Outcome :=
  match path with
  | ToDelta delta =>
      Returned (set_browser (browserCall (HistoryGo delta) (browser s)) s)
  | ToPath p => onNavigate (Some p) options s
  end.
End Controller.

(** ** utils.ts: the paths of a table and their validation *)

(** The callback of [getViewPaths(value).map(...)]: a path of a nested
    table, behind the key that holds the table. *)
Definition nestedPath (key path : string) : string :=
  if String.eqb path "*" then key +:+ "/*"
  else if String.eqb path "/" then key
  else key +:+ path.

(** What [getViewPaths] pushes for one entry: the key, or for an object
    that is no array the paths of the object behind the key.  A [Hooks]
    record is such an object; its entries are its callbacks. *)
Fixpoint pathsUnder (key : string) (value : Value) : list string :=
  match value with
  | VTable entries =>
      map (nestedPath key)
          (flat_map (fun kv => pathsUnder kv.1 kv.2) entries)
  | VHooks h => map (nestedPath key) (hookKeys h)
  | VView _ | VPair _ _ => [key]
  end.

(** [getViewPaths(views)] *)
Definition getViewPaths (views : Views) : list string :=
  flat_map (fun kv => pathsUnder kv.1 kv.2) views.

(** [p.match(/:[^/]*$/g)]: a colon with no slash behind it. *)
Fixpoint dynamicTail (p : string) : bool :=
  match p with
  | EmptyString => false
  | String c rest =>
      (Ascii.eqb c ":" && negb (Js.includes rest "/")) || dynamicTail rest
  end.

(** The text given to [console.warn]. *)
Definition warning (wildcardPath dynamicPath : string) : string :=
  "SView warning: Wildcard view `" +:+ wildcardPath
  +:+ "` should not be at the same level as dynamic view `"
  +:+ dynamicPath +:+ "`.".

(** The callback of [paths.find(...)] for a wildcard path. *)
Definition clashesWith (parentPath p : string) : bool :=
  negb (String.eqb p "/") && negb (Js.endsWith p "*")
  && Js.startsWith p (if String.eqb parentPath "" then "/:" else parentPath)
  && dynamicTail p.

(** [validateViews(views)]: the warnings it writes to the console, in
    order. *)
Definition validateViews (views : Views) : list string :=
  let paths := getViewPaths views in
  let wildcardPaths := List.filter (fun path => Js.endsWith path "*") paths in
  omap (fun wildcardPath =>
          let parentPath := Js.slice wildcardPath 0 (Some (-1)%Z) in
          match List.find (clashesWith parentPath) paths with
          | Some dynamicPath =>
              if negb (String.eqb dynamicPath "")
              then Some (warning wildcardPath dynamicPath)
              else None
          | None => None
          end)
       wildcardPaths.

(** ** create.svelte.ts: the click handler *)

(** [new URL(anchor.href)] as far as the handler reads it. *)
Record LinkURL := {
  url_origin : string;
  url_pathname : string;
  url_search : string;
  url_hash : string
}.

(** The anchor that [event.target.closest('a')] finds: whether it has a
    [target] or a [download] attribute, its [href] once parsed ([None]
    when [new URL] rejects it), and its [data-replace], [data-state] and
    [data-scroll-to-top] attributes. *)
Record Anchor := {
  has_target : bool;
  has_download : bool;
  href : option LinkURL;
  data_replace : option string;
  data_state : option string;
  data_scrollToTop : option string
}.

(** The options that the handler builds from the anchor. *)
Definition clickOptions (anchor : Anchor) (url : LinkURL) : NavigateOptions :=
  {| opt_hash := Some (url_hash url);
     opt_replace :=
       Some (bool_decide (data_replace anchor = Some "")
             || bool_decide (data_replace anchor = Some "true"));
     opt_scrollToTop :=
       match data_scrollToTop anchor with
       | Some b => if String.eqb b "false" then ScrollFalse
                   else ScrollBehavior b
       | None => ScrollUnset
       end;
     opt_search := Some (url_search url);
     opt_state := data_state anchor;
     opt_bypass := None;
     opt_hooks := None |}.

Section Click.
Variable views : option Views.
Variable componentToString : CRef -> option string.
Variable resolveURL : string -> Location -> string * string * string.
Variable parseSearch : string -> list (string * string).
Variable fromBeforeLoadHook : State -> bool.
Variable fromDuringLoadHook : State -> bool.
(** [globalThis.location.origin] *)
Variable currentOrigin : string.

(** [onGlobalClick(event)]; the event is given by the anchor around its
    target, [None] when the target is no element or stands in no anchor.
    The result tells whether [event.preventDefault()] was called, and
    how the navigation that the handler starts ends. *)
Definition onGlobalClick (event : option Anchor) (s : State)
    : bool * Outcome :=
  match event with
  | None => (false, Returned s)
  | Some anchor =>
      if has_target anchor || has_download anchor then (false, Returned s)
      else
        match href anchor with
        | None => (false, Threw TypeError s)            (* new URL(...) *)
        | Some url =>
            if negb (String.eqb (url_origin url) currentOrigin)
            then (false, Returned s)
            else
              (true,
               onNavigate views componentToString resolveURL parseSearch
                          fromBeforeLoadHook fromDuringLoadHook
                          (Some (url_pathname url))
                          (clickOptions anchor url) s)
        end
  end.
End Click.

(** ** recursive.svelte: the rendering of the component tree *)

(** [cycle.value.slice(0, 1)] *)
Definition firstLetter (c : Cycle) : Letter :=
  match c with
  | Ca | Cab => La
  | Cb | Cba => Lb
  end.

(** [cycle.value.split('')] *)
Definition letters (c : Cycle) : list Letter :=
  match c with
  | Ca => [La]
  | Cb => [Lb]
  | Cab => [La; Lb]
  | Cba => [Lb; La]
  end.

(** An element of [firstComponents]: the buffer it is rendered for and
    the slot it shows ([None] when the spread found no slot). *)
Record First := {
  first_ab : Letter;
  first_obj : option Item
}.

(** [firstComponents].  The filter keeps the slots that exist, the second
    one unless it is the very object of the first: the two buffers hold
    no object in common, since [calculateTree] builds each incoming
    buffer with [next.map]. *)
Definition firstComponents (cycle : Cycle) (tree : Tree) (depth : nat)
    : list First :=
  if (length (tree_a tree) =? 0)%nat && (length (tree_b tree) =? 0)%nat
  then []
  else if (Z.of_nat depth <=? tree_eq tree)%Z then
    [{| first_ab := La;
        first_obj := head (tree_get (firstLetter cycle) tree) |}]
  else
    omap (fun ab =>
            match head (tree_get ab tree) with
            | Some obj => Some {| first_ab := ab; first_obj := Some obj |}
            | None => None
            end)
         (letters cycle).

(** [restTree] *)
Definition restTree (tree : Tree) : Tree :=
  {| tree_a := drop 1 (tree_a tree); tree_b := drop 1 (tree_b tree);
     tree_eq := tree_eq tree |}.

(** The [tree] given to the nested [Recursive]. *)
Definition nestedTree (tree : Tree) (depth : nat) (ab : Letter) : Tree :=
  if (Z.of_nat depth <=? tree_eq tree)%Z then restTree tree
  else
    tree_set ab (tree_get ab (restTree tree))
      {| tree_a := []; tree_b := []; tree_eq := tree_eq tree |}.

(** What the template mounts: for each element of [firstComponents] its
    component, bound under [mountedComponents] at the depth and the key
    of the slot, with the nested [Recursive] as its children. *)
Inductive Rendered :=
| Mount (depth : nat) (obj : option Item) (children : list Rendered).

(** The template of [Recursive]; [fuel] bounds the depth of the
    nesting. *)
Fixpoint Recursive (fuel : nat) (cycle : Cycle) (tree : Tree) (depth : nat)
    : list Rendered :=
  match fuel with
  | O => []
  | S fuel' =>
      map (fun first =>
             Mount depth (first_obj first)
               (if (0 <? length (tree_a (restTree tree)))%nat
                   || (0 <? length (tree_b (restTree tree)))%nat
                then Recursive fuel' cycle
                       (nestedTree tree depth (first_ab first)) (S depth)
                else []))
          (firstComponents cycle tree depth)
  end.

(** [<Recursive tree={componentTree.value} />] in [sview.svelte]: the
    nesting is no deeper than the longer buffer. *)
Definition renderTree (cycle : Cycle) (tree : Tree) : list Rendered :=
  Recursive (S (Nat.max (length (tree_a tree)) (length (tree_b tree))))
            cycle tree 0.

(** * Vocabulary of the statements, and the tables and states they are
    tried on *)

Definition view (c : Component) : Value := VView (Full c).

Definition slot (c : Component) (k : Z) : Item :=
  {| item_C := CComp c; item_key := k; item_params := ParamsAbsent |}.

Definition resolvedView (c : Component) : Resolved := RComp (CComp c).

(** [-1 <= eq <= min(len(a), len(b)) - 1] *)
Definition eqInRange (t : Tree) : Prop :=
  (-1 <= tree_eq t
   <= Z.of_nat (Nat.min (length (tree_a t)) (length (tree_b t))) - 1)%Z.

(** The tree of one reconciliation, the registry left aside. *)
Definition reconcile (prev : Tree) (next : list Resolved) (d : Direction)
    (ps : ParamsRec) : Tree :=
  (calculateTree prev next d ps ∅).1.

(** Scenario C of the specification. *)
Definition scenarioC_prev : Tree :=
  {| tree_a := [slot "X" 0]; tree_b := []; tree_eq := -1 |}.

(** Four navigations in a row, from the initial tree: a layout with a
    page, the same layout with another page, a page on its own, and the
    first again. *)
Definition run1 : Tree :=
  reconcile initialTree [resolvedView "Layout"; resolvedView "Page1"] Dba [].
Definition run2 : Tree :=
  reconcile run1 [resolvedView "Layout"; resolvedView "Page2"] Dab [].
Definition run3 : Tree :=
  reconcile run2 [resolvedView "Home"] Dba [].
Definition run4 : Tree :=
  reconcile run3 [resolvedView "Layout"; resolvedView "Page1"] Dab [].

(** Tables. *)
Definition pagesTable : Views :=
  [("/home", view "Home");
   ("/users", VTable [("/a", view "Page1"); ("/b", view "Page2");
                      ("layout", view "Layout")])].

Definition siblingsTable : Views :=
  [("/:id/edit", view "Edit"); ("/:slug/view", view "Details")].

Definition wrappedWildcardTable : Views :=
  [("(*rest)", view "Fallback"); ("/:id", view "Detail")].

Definition boundaryTable : Views :=
  [("/(admin)/panel", view "Panel"); ("layout", view "Shell")].

(** A boundary key one and two tables below the root table. *)
Definition boundaryBelow : Views :=
  [("layout", view "Root");
   ("/a", VTable [("layout", view "A"); ("/(c)", view "Leaf")])].

Definition boundaryFarBelow : Views :=
  [("layout", view "Root");
   ("/a",
    VTable [("layout", view "A");
            ("/b", VTable [("layout", view "B"); ("/(c)", view "Leaf")])])].


(** The browser and the parts of the controller that stand outside the
    source, for the statements tried on concrete inputs. *)
Definition noFilePath (c : CRef) : option string := None.
Definition plainURL (to : string) (l : Location) : string * string * string :=
  (to, "", "").
Definition noSearch (q : string) : list (string * string) := [].
Definition notFromHook (s : State) : bool := false.

Definition bootLocation : Location :=
  {| loc_pathname := "/"; loc_search := ""; loc_state := HsNull;
     loc_hash := "" |}.

(** The variables of [create.svelte.ts] as the module initialises them. *)
Definition bootState : State :=
  {| componentTree := initialTree; cycle := Ca; params := [];
     phase := PhIdle; location := bootLocation; isRendering := false;
     navigationIndex := 0; pendingNavigationIndex := 0;
     base_name := None; mountedComponents := ∅; firstBoot := true;
     searchParams := [];
     browser := {| br_location := bootLocation; br_calls := [] |} |}.

(** The variables after a call, however it ended. *)
Definition stateOf (o : Outcome) : State :=
  match o with Returned s | Threw _ s => s end.

(** [navigate(path)] on a table, in a browser that resolves a URL to
    itself. *)
Definition visit (table : Views) (path : string) (s : State) : State :=
  stateOf (navigate (Some table) noFilePath plainURL noSearch
                    notFromHook notFromHook (ToPath path) noOptions s).

(** A state in the middle of a transition. *)
Definition midTransition : State := set_cycle Cba bootState.

Definition bypassOptions : NavigateOptions :=
  {| opt_hash := None; opt_replace := None; opt_scrollToTop := ScrollUnset;
     opt_search := None; opt_state := None; opt_bypass := Some true;
     opt_hooks := None |}.

Definition throwingHook {A : Type} : HookFn A := fun _ s => (Rejected, s).

Definition beforeLoadThrows : Hooks :=
  {| beforeLoad := Some throwingHook; duringLoad := None;
     duringRender := None; afterRender := None |}.


Definition guardedTable (h : Hooks) : Views :=
  [("/", view "Home"); ("/about", view "About"); ("hooks", VHooks h)].

(** The state of a navigation that went past the guards: [firstBoot]
    cleared when the hot-replacement test held, and the ticket taken. *)
Definition entered (path : option string) (s : State) : State :=
  takeTicket (clearFirstBoot path s).

(** [nextCycle] *)
Definition nextCycleOf (c : Cycle) : Direction :=
  match c with Ca => Dba | _ => Dab end.


(** All variables of the controller but [firstBoot] agree. *)
Definition sameButFirstBoot (s s' : State) : Prop :=
  componentTree s' = componentTree s /\ cycle s' = cycle s
  /\ params s' = params s /\ phase s' = phase s
  /\ location s' = location s /\ isRendering s' = isRendering s
  /\ navigationIndex s' = navigationIndex s
  /\ pendingNavigationIndex s' = pendingNavigationIndex s
  /\ base_name s' = base_name s
  /\ mountedComponents s' = mountedComponents s
  /\ searchParams s' = searchParams s /\ browser s' = browser s.

Definition noHooks : Hooks :=
  {| beforeLoad := None; duringLoad := None; duringRender := None;
     afterRender := None |}.

(** A segment of a key as it is compared: the parentheses of a boundary
    removed. *)
Definition stripBoundary (viewPart : string) : string :=
  if isBoundary viewPart then Js.slice viewPart 1 (Some (-1)%Z) else viewPart.

(** The segment binds a parameter ([:name]). *)
Definition isDynamicPart (viewPart : string) : bool :=
  Js.startsWith (stripBoundary viewPart) ":".

(** The segment is a wildcard ([*name]). *)
Definition isWildcardPart (viewPart : string) : bool :=
  Js.startsWith (stripBoundary viewPart) "*".

(** [typeof v === 'function' || Array.isArray(v)] *)
Definition isView (v : Value) : bool :=
  match v with
  | VView _ | VPair _ _ => true
  | _ => false
  end.

(** The layout of a table, as the list [layouts.push] adds. *)
Definition layoutOf {A : Type} (views : list (string * (Value * A)))
    : list Value :=
  match obj_get "layout" views with
  | Some (l, _) => [l]
  | None => []
  end.

(** A table as [matchView] scans it: each entry with the recursive call
    on its value. *)
Definition scanned (table : Views)
    : list (string * (Value * (string -> Res MatchResult))) :=
  map (fun kv => (kv.1, (kv.2, matchValue kv.2))) table.

(** ** The round trip through [constructPath] and [matchView] *)

(** The character [c] does not occur in [s]. *)
Fixpoint lacks (c : ascii) (s : string) : bool :=
  match s with
  | EmptyString => true
  | String a s' => negb (Ascii.eqb a c) && lacks c s'
  end.

(** The last character of a string. *)
Fixpoint lastChar (s : string) : option ascii :=
  match s with
  | EmptyString => None
  | String a EmptyString => Some a
  | String _ s' => lastChar s'
  end.

(** A segment of a pattern: a literal, or [:name] together with the value
    the params record binds to the name. *)
Inductive Seg :=
| Lit (s : string)
| Dyn (name value : string).


(** The segment as the path holds it once the value is filled in. *)
Definition pathPart (g : Seg) : string :=
  match g with
  | Lit s => s
  | Dyn _ v => v
  end.

(** Every part behind a slash: ["/" + parts.join("/")] when there are
    parts. *)
Definition slashed (parts : list string) : string :=
  foldr (fun x acc => String "/" (x +:+ acc)) EmptyString parts.


Definition binding (g : Seg) : option (string * string) :=
  match g with
  | Lit _ => None
  | Dyn n v => Some (n, v)
  end.

(** The params the pattern asks for, in the order of its segments. *)
Definition bindings (segs : list Seg) : list (string * string) :=
  omap binding segs.

Definition names (segs : list Seg) : list string :=
  map fst (bindings segs).

(** A literal segment: not empty, without slash or colon, no wildcard
    and no boundary. *)
Definition plainLiteral (s : string) : bool :=
  negb (String.eqb s "") && lacks "/" s && lacks ":" s
  && negb (Js.startsWith s "*") && negb (isBoundary s).









(** The table of Scenario A of the specification, one level deeper. *)
Definition usersTable : Views :=
  [("/", view "Home");
   ("/users",
    VTable [("/", view "List");
            ("/:id/posts/:post", view "Post");
            ("layout", view "Shell")])].



(** A record of strings as [matchView] returns it. *)
Definition asParams (ps : list (string * string)) : ParamsRec :=
  map (fun kv => (kv.1, Some kv.2)) ps.

(** The other direction: the controller alternates ['ba'] and ['ab']. *)
Definition opposite (d : Direction) : Direction :=
  match d with Dab => Dba | Dba => Dab end.

(** The keys of one priority class, in the order of the list. *)
Definition ofPriority (p : Z) (views : list string) : list string :=
  filter (fun v => getViewPriority v = p) views.

(** Splits a hypothesis [b1 && ... && bn = true] into its conjuncts. *)
Ltac split_andb H := repeat (apply andb_true_iff in H as [H ?]).

(** ** Vocabulary for the reconciler and the controller *)

(** The outgoing and the incoming slot hold the same component and the
    same [params]: the test of the first loop of [calculateTree] fails. *)
Definition sameSlot (x y : Item) : bool :=
  negb (cref_differ (item_C x) (item_C y)
        || params_differ (item_params x) (item_params y)).

(** The number of leading indices at which two buffers hold the same
    slot. *)
Fixpoint commonPrefix (before after : list Item) : nat :=
  match before, after with
  | x :: before', y :: after' =>
      if sameSlot x y then S (commonPrefix before' after') else 0%nat
  | _, _ => 0%nat
  end.

(** The key an incoming slot starts from: the one the outgoing buffer
    holds at the index, [0] when it holds none. *)
Definition inheritedKey (outgoing : list Item) (i : nat) : Z :=
  default 0%Z (item_key <$> outgoing !! i).

(** The module variable [views] is unset or the table is empty. *)
Definition noViews (views : option Views) : bool :=
  match views with
  | None | Some [] => true
  | Some _ => false
  end.

(** [window.scrollTo] as the options ask for it. *)
Definition scrollCalls (options : NavigateOptions) : list BrowserCall :=
  match opt_scrollToTop options with
  | ScrollFalse => []
  | ScrollUnset => [ScrollTo None]
  | ScrollBehavior b => [ScrollTo (Some b)]
  end.

(** The entry a navigation to [path] writes to the history: the path with
    the search and the hash of the options behind it, joined to the base
    path when there is one, pushed unless the options ask to replace;
    none when no path is given. *)
Definition historyCalls (base : option string) (path : option string)
    (options : NavigateOptions) : list BrowserCall :=
  if truthy path then
    let to := default "" path +:+ default "" (opt_search options)
              +:+ default "" (opt_hash options) in
    let url := if truthy base then join [default "" base; to] else to in
    let st := if truthy (opt_state options)
              then HsString (default "" (opt_state options))
              else HsEmptyObject in
    [if default false (opt_replace options) then ReplaceState st url
     else PushState st url]
  else [].

(** The stable cycle after a completed navigation. *)
Definition flipped (c : Cycle) : Cycle :=
  match c with Ca => Cb | _ => Ca end.

(** What a match resolves to: the layouts, then the view. *)
Definition resolvedChain (r : MatchResult) : list Resolved :=
  resolveViewComponents
    (match mr_match r with
     | Some m => mr_layouts r ++ [m]
     | None => mr_layouts r
     end).

(** A [beforeLoad] hook that navigates to ['/home'] of [pagesTable] and
    settles. *)
Definition redirectsHome : Hooks :=
  {| beforeLoad := Some (fun _ s => (Settled, visit pagesTable "/home" s));
     duringLoad := None; duringRender := None; afterRender := None |}.

(** What [join] adds to its result for one part: a slash unless the part
    begins with one, then the part without its trailing slash. *)
Definition joinPiece (part : string) : string :=
  (if negb (Js.startsWith part "/") then "/" else "")
  +:+ (if Js.endsWith part "/" then Js.slice part 0 (Some (-1)%Z) else part).

(** A segment that is compared as it is written: no boundary, no
    parameter, no wildcard. *)
Definition literalPart (viewPart : string) : bool :=
  negb (isBoundary viewPart) && negb (Js.startsWith viewPart ":")
  && negb (Js.startsWith viewPart "*").

(** A static key: ['/'], or a path of literal segments behind a slash
    each. *)
Definition staticKey (key : string) : bool :=
  String.eqb key "/"
  || (Js.startsWith key "/"
      && forallb plainLiteral (drop 1 (Js.split "/" key))).

(** A table of static keys that hold views: no nested table, no layout
    and no hooks. *)
Definition staticTable (table : Views) : bool :=
  forallb (fun kv => staticKey kv.1 && isView kv.2) table.

(** What [matchView] returns when the wildcard key [w], which holds [W],
    takes a path: the value, and under the name of the wildcard, if it
    has one, the path without its leading slash. *)
Definition wildcardResult (w : string) (W : Value) (rest : string)
    : MatchResult :=
  {| mr_match := Some W; mr_layouts := []; mr_hooks := [];
     mr_params :=
       if String.eqb (Js.slice w 1 None) "" then []
       else [(Js.slice w 1 None, Some rest)];
     mr_breakFromLayouts := false |}.

(** A link of the document at [origin] to [pathname]. *)
Definition plainLink (origin pathname : string) : Anchor :=
  {| has_target := false; has_download := false;
     href := Some {| url_origin := origin; url_pathname := pathname;
                     url_search := ""; url_hash := "" |};
     data_replace := None; data_state := None; data_scrollToTop := None |}.

#[global] Instance Letter_eq_dec : EqDecision Letter.
Proof. solve_decision. Defined.

(** A chain of mounts, one below the other: the slots of one buffer from
    [depth] on. *)
Fixpoint chainOf (depth : nat) (items : list Item) : list Rendered :=
  match items with
  | [] => []
  | it :: rest => [Mount depth (Some it) (chainOf (S depth) rest)]
  end.

(** A chain of mounts with [tail] below its last one. *)
Fixpoint sharedChain (depth : nat) (items : list Item)
    (tail : list Rendered) : list Rendered :=
  match items with
  | [] => tail
  | it :: rest => [Mount depth (Some it) (sharedChain (S depth) rest tail)]
  end.

(** The segments [l1] are the first segments of [l2]. *)
Fixpoint beginsWith (l1 l2 : list string) : bool :=
  match l1, l2 with
  | [], _ => true
  | x :: l1', y :: l2' => String.eqb x y && beginsWith l1' l2'
  | _ :: _, [] => false
  end.

(** The keys are distinct, and the segments of none of them begin those
    of another one. *)
Definition apartKeys (keys : list string) : bool :=
  bool_decide (NoDup keys)
  && forallb (fun k =>
                forallb (fun k' =>
                           String.eqb k k'
                           || negb (beginsWith (viewPartsOf k)
                                               (viewPartsOf k')))
                        keys)
             keys.

(** A tree of tables of static keys, kept apart at each level, that hold
    views or such tables: no layout and no hooks. *)
Fixpoint staticTree (v : Value) : bool :=
  match v with
  | VView _ | VPair _ _ => true
  | VTable entries =>
      apartKeys (map fst entries)
      && forallb (fun kv => staticKey kv.1 && staticTree kv.2) entries
  | VHooks _ => false
  end.

(** A table of two levels. *)
Definition shopTable : Views :=
  [("/", view "Home");
   ("/shop", VTable [("/", view "Shelves"); ("/cart", view "Cart");
                     ("/item/new", view "NewItem")]);
   ("/about", view "About")].

(** The paths of [getViewPaths], each with the value it is listed for:
    the value under the key, or the [Hooks] record for its callbacks. *)
Fixpoint leavesUnder (key : string) (value : Value) : list (string * Value) :=
  match value with
  | VTable entries =>
      map (fun pv => (nestedPath key pv.1, pv.2))
          (flat_map (fun kv => leavesUnder kv.1 kv.2) entries)
  | VHooks h => map (fun name => (nestedPath key name, VHooks h)) (hookKeys h)
  | VView _ | VPair _ _ => [(key, value)]
  end.

Definition viewLeaves (views : Views) : list (string * Value) :=
  flat_map (fun kv => leavesUnder kv.1 kv.2) views.

(** * Properties *)

(** ** The primitives on examples *)

Example js_split_root : Js.split "/" "/" = [""; ""].
Proof. reflexivity. Qed.

Example js_split_path : Js.split "/" "/users/42" = [""; "users"; "42"].
Proof. reflexivity. Qed.

Example js_slice_parens : Js.slice "(admin)" 1 (Some (-1)%Z) = "admin".
Proof. reflexivity. Qed.

Example js_replace_first : Js.replace "/a/:id/:id" ":id" "7" = "/a/7/:id".
Proof. reflexivity. Qed.

Example js_replace_dollar : Js.replace "/a/:id" ":id" "<$&>" = "/a/<:id>".
Proof. reflexivity. Qed.

Example constructPath_users :
  constructPath "/users/:id" (Some [("id", "42")]) = "/users/42".
Proof. reflexivity. Qed.

Example sortViews_tiers :
  sortViews ["*rest"; "/:id"; "/about"; "/"; "/users"]
  = ["/"; "/about"; "/users"; "/:id"; "*rest"].
Proof. reflexivity. Qed.

(** Scenario A of the specification. *)
Example matchView_scenarioA :
  matchView "/users/42"
    [("/", view "Home");
     ("/users", VTable [("/", view "List"); ("/:id", view "Detail");
                        ("layout", view "Shell")])]
  = Ok {| mr_match := Some (view "Detail"); mr_layouts := [view "Shell"];
          mr_hooks := []; mr_params := [("id", Some "42")];
          mr_breakFromLayouts := false |}.
Proof. reflexivity. Qed.

(** Scenario B of the specification. *)
Example matchView_scenarioB :
  matchView "/files/a/b" [("/files", VTable [("*rest", view "Viewer")])]
  = Ok {| mr_match := Some (view "Viewer"); mr_layouts := [];
          mr_hooks := []; mr_params := [("rest", Some "a/b")];
          mr_breakFromLayouts := false |}.
Proof. reflexivity. Qed.

(** ** The reconciler *)

Lemma tree_get_set_same l items t : tree_get l (tree_set l items t) = items.
Proof. by destruct l. Qed.

Lemma tree_get_set_other l l' items t :
  l <> l' -> tree_get l (tree_set l' items t) = tree_get l t.
Proof. by destruct l, l'. Qed.

Lemma direction_split_distinct d :
  (direction_split d).1 <> (direction_split d).2.
Proof. by destruct d. Qed.

Lemma keyLoop_length n : forall i after,
  length (keyLoop n i after) = length after.
Proof.
  induction n as [|n IH]; intros i after; simpl; [done|].
  by rewrite IH, length_alter.
Qed.

(** The second loop bumps exactly the slots from the counter on. *)
Lemma keyLoop_lookup n : forall i after j,
  keyLoop n i after !! j
  = if decide (i <= j < i + n)%nat then bumpKey <$> after !! j
    else after !! j.
Proof.
  induction n as [|n IH]; intros i after j; simpl.
  - case_decide; [lia|done].
  - rewrite IH. destruct (decide (i = j)) as [->|Hne].
    + rewrite decide_False by lia. rewrite decide_True by lia.
      by rewrite list_lookup_alter_eq.
    + rewrite list_lookup_alter_ne by done.
      repeat case_decide; try done; lia.
Qed.

(** What the first loop leaves: the counter stays within the iterations
    it was given, [eq] is the initial one or an index it went through,
    at most the slots below the counter changed, each by one bump. *)
Lemma eqLoop_spec n : forall i before after e i' after' e',
  eqLoop n i before after e = (i', after', e') ->
  length after' = length after
  /\ (i <= i' <= i + n)%nat
  /\ (e' = e \/ (Z.of_nat i <= e' < Z.of_nat (i + n))%Z)
  /\ (forall j, (i' <= j)%nat -> after' !! j = after !! j)
  /\ (forall j, after' !! j = after !! j
                \/ after' !! j = bumpKey <$> after !! j).
Proof.
  induction n as [|n IH]; intros i before after e i' after' e' H; simpl in H.
  - injection H as <- <- <-. repeat split; auto; lia.
  - destruct (before !! i) as [x|] eqn:Hx;
      [destruct (after !! i) as [y|] eqn:Hy|].
    + destruct (cref_differ _ _ || params_differ _ _).
      * injection H as <- <- <-. repeat split.
        -- apply length_alter.
        -- lia.
        -- lia.
        -- auto.
        -- intros j Hj. apply list_lookup_alter_ne. lia.
        -- intros j. destruct (decide (i = j)) as [->|Hne].
           ++ right. apply list_lookup_alter_eq.
           ++ left. by apply list_lookup_alter_ne.
      * apply IH in H as (Hlen & Hi & He & Hge & Hall).
        repeat split; auto; try lia.
    + injection H as <- <- <-. repeat split; auto; lia.
    + injection H as <- <- <-. repeat split; auto; lia.
Qed.

(** The incoming buffer as [next.map] builds it. *)
Lemma makeItem_key keys ps idx item :
  item_key (makeItem keys ps idx item) = default 0%Z (keys !! idx).
Proof. by destruct item. Qed.

(** One reconciliation, slot by slot: the outgoing buffer is the one of
    [prev]; the incoming buffer has a slot per element of [next], whose
    key is the key [prev] holds at that index in the outgoing buffer (0
    when it holds none), or one more; [eq] is in range. *)
Lemma calculateTree_spec prev next d ps m after before :
  direction_split d = (after, before) ->
  let t := (calculateTree prev next d ps m).1 in
  tree_get before t = tree_get before prev
  /\ length (tree_get after t) = length next
  /\ eqInRange t
  /\ (forall i y, tree_get after t !! i = Some y ->
       let inherited :=
         default 0%Z (item_key <$> tree_get before prev !! i) in
       (inherited <= item_key y <= inherited + 1)%Z).
Proof.
  intros Hd t. subst t. unfold calculateTree. rewrite Hd.
  assert (Hne : after <> before).
  { pose proof (direction_split_distinct d) as Hx. by rewrite Hd in Hx. }
  clear Hd.
  set (keys := map item_key (tree_get before prev)).
  set (t0 := tree_set after (imap (makeItem keys ps) next)
               (tree_set before (tree_get before prev)
                  {| tree_a := []; tree_b := []; tree_eq := -1 |})).
  assert (Ha0 : tree_get after t0 = imap (makeItem keys ps) next)
    by apply tree_get_set_same.
  assert (Hb0 : tree_get before t0 = tree_get before prev).
  { unfold t0. rewrite tree_get_set_other by done.
    apply tree_get_set_same. }
  assert (He0 : tree_eq t0 = (-1)%Z) by (unfold t0; by destruct after, before).
  assert (Hmax : Nat.min (length (tree_a t0)) (length (tree_b t0))
                 = Nat.min (length (tree_get after t0))
                           (length (tree_get before t0))).
  { destruct after, before; simpl; try done; lia. }
  destruct (eqLoop _ 0 _ _ _) as [[i' after'] e'] eqn:Hloop.
  apply eqLoop_spec in Hloop as (Hlen & Hi & He & Hge & Hall).
  simpl.
  set (final := keyLoop (length after' - i') i' after').
  assert (Hfl : length final = length next).
  { unfold final. rewrite keyLoop_length, Hlen, Ha0. apply length_imap. }
  assert (Hga : tree_get after
                  (tree_set_eq e' (tree_set after final t0)) = final).
  { destruct after; reflexivity. }
  assert (Hgb : tree_get before
                  (tree_set_eq e' (tree_set after final t0))
                = tree_get before prev).
  { rewrite <- Hb0. destruct after, before; try reflexivity; done. }
  assert (Hsrc : forall i x, tree_get after t0 !! i = Some x ->
            item_key x
            = default 0%Z (item_key <$> tree_get before prev !! i)).
  { intros i x Hx. rewrite Ha0 in Hx. rewrite list_lookup_imap in Hx.
    destruct (next !! i) as [it|]; [|done]. injection Hx as <-.
    rewrite makeItem_key. unfold keys. by rewrite list_lookup_fmap. }
  split; [exact Hgb|]. split; [by rewrite Hga|]. split.
  - unfold eqInRange.
    replace (tree_eq (tree_set_eq e' (tree_set after final t0))) with e'
      by (by destruct after).
    assert (Hmin :
      Nat.min (length (tree_a (tree_set_eq e' (tree_set after final t0))))
              (length (tree_b (tree_set_eq e' (tree_set after final t0))))
      = Nat.min (length (tree_a t0)) (length (tree_b t0))).
    { assert (length final = length (tree_get after t0))
        by (rewrite Hfl, Ha0; symmetry; apply length_imap).
      destruct after; simpl in *; congruence. }
    rewrite Hmin. rewrite He0 in He. lia.
  - intros i y H. rewrite Hga in H. unfold final in H.
    rewrite keyLoop_lookup in H. simpl.
    case_decide as Hin.
    + rewrite Hge in H by lia.
      destruct (tree_get after t0 !! i) as [x|] eqn:Hx; [|done].
      injection H as <-. rewrite <- (Hsrc i x Hx). simpl. lia.
    + destruct (Hall i) as [Hs|Hs]; rewrite Hs in H.
      * rewrite <- (Hsrc i y H). lia.
      * destruct (tree_get after t0 !! i) as [x|] eqn:Hx; [|done].
        injection H as <-. rewrite <- (Hsrc i x Hx). simpl. lia.
Qed.

(** C1, as amended.  The first letter of the direction names the incoming
    buffer, built from [next]; the second names the outgoing buffer,
    copied unchanged from [prev].  On prev = {a:[{X,key:0}], b:[], eq:-1}
    and next = [Y], direction 'ab' yields a = [{Y,key:1}], b = [] and
    eq = -1; direction 'ba' yields a = [{X,key:0}], b = [{Y,key:1}] and
    eq = -1. *)
Theorem C1_first_letter_incoming_second_outgoing :
  (forall prev next d ps m,
     tree_get (direction_split d).2 (calculateTree prev next d ps m).1
     = tree_get (direction_split d).2 prev
     /\ length (tree_get (direction_split d).1
                         (calculateTree prev next d ps m).1)
        = length next)
  /\ (forall ps m,
        (calculateTree scenarioC_prev [resolvedView "Y"] Dab ps m).1
        = {| tree_a := [slot "Y" 1]; tree_b := []; tree_eq := -1 |})
  /\ (forall ps m,
        (calculateTree scenarioC_prev [resolvedView "Y"] Dba ps m).1
        = {| tree_a := [slot "X" 0]; tree_b := [slot "Y" 1];
             tree_eq := -1 |}).
Proof.
  split; [|split].
  - intros prev next d ps m.
    destruct (calculateTree_spec prev next d ps m
                (direction_split d).1 (direction_split d).2)
      as (Hout & Hlen & _); [by destruct d|]. by split.
  - intros ps m. reflexivity.
  - intros ps m. reflexivity.
Qed.

(** C1 as stated fails: with direction 'ab' the result is not
    a = [{X,key:0}], b = [{Y,key:1}]. *)
Lemma C1_counterexample :
  reconcile scenarioC_prev [resolvedView "Y"] Dab []
  <> {| tree_a := [slot "X" 0]; tree_b := [slot "Y" 1]; tree_eq := -1 |}.
Proof. vm_compute. discriminate. Qed.

(** C5, as amended.  Every tree produced by a reconciliation has [eq] in
    [[-1, min(len(a), len(b)) - 1]]; the reconciliation leaves the
    outgoing buffer as it was, and the key of each incoming slot is the
    key the outgoing buffer holds at that index or one more, and 0 or 1
    where the outgoing buffer holds no slot. *)
Theorem C5_eq_in_range_and_keys_inherited prev next d ps m :
  let t := (calculateTree prev next d ps m).1 in
  eqInRange t
  /\ tree_get (direction_split d).2 t = tree_get (direction_split d).2 prev
  /\ (forall i y,
        tree_get (direction_split d).1 t !! i = Some y ->
        match tree_get (direction_split d).2 prev !! i with
        | Some x => (item_key x <= item_key y <= item_key x + 1)%Z
        | None => (0 <= item_key y <= 1)%Z
        end).
Proof.
  intros t.
  destruct (calculateTree_spec prev next d ps m
              (direction_split d).1 (direction_split d).2)
    as (Hout & Hlen & Heq & Hkeys); [by destruct d|].
  split; [exact Heq|]. split; [exact Hout|].
  intros i y Hy. specialize (Hkeys i y Hy). simpl in Hkeys.
  by destruct (tree_get (direction_split d).2 prev !! i).
Qed.

Lemma C5_eq_in_range_and_keys_inherited_witness :
  eqInRange run4 /\ (2 <= 3 <= 2 + 1)%Z.
Proof.
  destruct (C5_eq_in_range_and_keys_inherited
              run3 [resolvedView "Layout"; resolvedView "Page1"] Dab [] ∅)
    as (Hrange & _ & Hkeys).
  split; [exact Hrange|].
  exact (Hkeys 0%nat (slot "Layout" 3) eq_refl).
Defined.

(** C5 as stated fails twice: the initial tree has [eq = 0] with both
    buffers empty, and the fourth of four navigations in a row takes the
    key of slot 1 of buffer [a] from 2 down to 1. *)
Lemma C5_counterexample :
  ~ eqInRange initialTree
  /\ (exists x y,
        tree_a run3 !! 1%nat = Some x /\ tree_a run4 !! 1%nat = Some y
        /\ (item_key y < item_key x)%Z).
Proof.
  split.
  - unfold eqInRange. simpl. lia.
  - exists (slot "Page2" 2), (slot "Page1" 1). by vm_compute.
Qed.

(** The four trees are those the controller goes through when
    [navigate] is called four times from the initial variables. *)
Example four_navigations :
  let s1 := visit pagesTable "/users/a" bootState in
  let s2 := visit pagesTable "/users/b" s1 in
  let s3 := visit pagesTable "/home" s2 in
  let s4 := visit pagesTable "/users/a" s3 in
  componentTree s1 = run1 /\ componentTree s2 = run2
  /\ componentTree s3 = run3 /\ componentTree s4 = run4
  /\ cycle s3 = Cb /\ cycle s4 = Ca.
Proof. by vm_compute. Qed.

(** ** The controller *)

(** C10.  [navigate] with a number calls [history.go] with it and
    returns: whatever the table and its hooks, the variables of the
    controller are as before, and the only call made on the browser is
    [history.go(delta)]. *)
Theorem C10_navigate_delta_only_history_go
    views componentToString resolveURL parseSearch
    fromBeforeLoadHook fromDuringLoadHook delta options s :
  exists s',
    navigate views componentToString resolveURL parseSearch
             fromBeforeLoadHook fromDuringLoadHook (ToDelta delta) options s
    = Returned s'
    /\ br_calls (browser s') = HistoryGo delta :: br_calls (browser s)
    /\ br_location (browser s') = br_location (browser s)
    /\ componentTree s' = componentTree s /\ cycle s' = cycle s
    /\ phase s' = phase s /\ params s' = params s
    /\ location s' = location s
    /\ navigationIndex s' = navigationIndex s
    /\ pendingNavigationIndex s' = pendingNavigationIndex s
    /\ mountedComponents s' = mountedComponents s
    /\ firstBoot s' = firstBoot s /\ searchParams s' = searchParams s.
Proof. eexists. split; [reflexivity|]. simpl. tauto. Qed.

Lemma clearFirstBoot_same path s : sameButFirstBoot s (clearFirstBoot path s).
Proof.
  unfold clearFirstBoot, sameButFirstBoot.
  destruct (hmrGuard path s); simpl; tauto.
Qed.

(** C4, as amended.  While [cycle] is 'ab' or 'ba' every newly initiated
    navigation, a bypass navigation included, returns at once: no ticket
    is taken, nothing is written to the history, and the tree, the cycle,
    the phase, the params and the observed location stay as they are. *)
Theorem C4_transitional_cycle_rejects_all
    views componentToString resolveURL parseSearch
    fromBeforeLoadHook fromDuringLoadHook table path options s :
  views = Some table -> table <> [] -> isRendering s = false ->
  cycle s = Cab \/ cycle s = Cba ->
  exists s',
    onNavigate views componentToString resolveURL parseSearch
               fromBeforeLoadHook fromDuringLoadHook path options s
    = Returned s'
    /\ sameButFirstBoot s s'.
Proof.
  intros -> Htable Hrender Hcycle. unfold onNavigate.
  destruct (hmrGuard path s && negb (firstBoot s)) eqn:Hguard.
  - exists s. split; [done|]. unfold sameButFirstBoot. tauto.
  - destruct table as [|entry table]; [done|].
    pose proof (clearFirstBoot_same path s) as Hsame.
    cbv beta iota zeta.
    replace (isRendering (clearFirstBoot path s)) with false
      by (unfold sameButFirstBoot in Hsame; intuition congruence).
    exists (clearFirstBoot path s). split; [|exact Hsame].
    replace (cycle (clearFirstBoot path s)) with (cycle s)
      by (unfold sameButFirstBoot in Hsame; intuition congruence).
    by destruct Hcycle as [-> | ->].
Qed.

Lemma C4_transitional_cycle_rejects_all_witness :
  exists s',
    onNavigate (Some (guardedTable noHooks)) noFilePath plainURL noSearch
               notFromHook notFromHook (Some "/about") bypassOptions
               midTransition
    = Returned s'
    /\ sameButFirstBoot midTransition s'.
Proof.
  apply (C4_transitional_cycle_rejects_all
           (Some (guardedTable noHooks)) noFilePath plainURL noSearch
           notFromHook notFromHook (guardedTable noHooks)).
  - reflexivity.
  - discriminate.
  - reflexivity.
  - right. reflexivity.
Defined.

(** C4 as stated fails: in the middle of a transition a bypass navigation
    to '/about' returns with nothing written to the history, whereas the
    same call in a stable cycle pushes the path. *)
Lemma C4_counterexample :
  onNavigate (Some (guardedTable noHooks)) noFilePath plainURL noSearch
             notFromHook notFromHook (Some "/about") bypassOptions
             midTransition
  = Returned midTransition
  /\ br_calls (browser midTransition) = []
  /\ (exists s',
        onNavigate (Some (guardedTable noHooks)) noFilePath plainURL
                   noSearch notFromHook notFromHook (Some "/about")
                   bypassOptions bootState
        = Returned s'
        /\ br_calls (browser s')
           = [ScrollTo None; PushState HsEmptyObject "/about"]).
Proof.
  split; [reflexivity|]. split; [reflexivity|].
  eexists. split; [vm_compute; reflexivity|]. reflexivity.
Qed.




(** ** The matcher, the sorter and the active-path matcher on the inputs
    where they part from the specification *)

(** C2.  The code at the failing input: '/42/view' is matched by
    '/:slug/view' after '/:id/edit' was scanned and rejected, and the
    binding of [id] made on the way stays in the returned params. *)
Theorem C2_rejected_candidate_binding_stays :
  sortViews (map fst siblingsTable) = ["/:id/edit"; "/:slug/view"]
  /\ matchView "/42/view" siblingsTable
     = Ok {| mr_match := Some (view "Details"); mr_layouts := [];
             mr_hooks := [];
             mr_params := [("id", Some "42"); ("slug", Some "42")];
             mr_breakFromLayouts := false |}.
Proof. split; reflexivity. Qed.

(** C6.  The code at the failing input: the wrapped wildcard key
    "(*rest)" gets the priority of a static key, is sorted before the
    dynamic key "/:id", and wins the match for "/42". *)
Theorem C6_wrapped_wildcard_ranked_static :
  getViewPriority "(*rest)" = 2%Z
  /\ getViewPriority "*rest" = 4%Z
  /\ getViewPriority "/:id" = 3%Z
  /\ sortViews (map fst wrappedWildcardTable) = ["(*rest)"; "/:id"]
  /\ matchView "/42" wrappedWildcardTable
     = Ok {| mr_match := Some (view "Fallback"); mr_layouts := [];
             mr_hooks := []; mr_params := [("rest", Some "42")];
             mr_breakFromLayouts := true |}.
Proof. repeat split; reflexivity. Qed.

(** C8.  The code at the failing inputs: without params, [isActive]
    looks at the first segment only, and tests the segment of the
    location, not the one of the pattern, for a leading colon. *)
Theorem C8_isActive_decides_on_first_segment :
  isActive "/42/edit" "/:id/edit" None = Ok false
  /\ isActive "/users/7/settings" "/users/:id" None = Ok true
  /\ isActive_startsWith "/us" "/users/:id" None = Ok true.
Proof. repeat split; reflexivity. Qed.

(** ** Layout-breaking boundaries *)

Lemma mergeNested_break {A} (views : list (string * (Value * A))) st result :
  mr_breakFromLayouts (mergeNested st result) = mr_breakFromLayouts st.
Proof. unfold mergeNested. by destruct (mr_breakFromLayouts result). Qed.

Lemma pushLayout_layouts views st :
  mr_layouts (pushLayout views st) = (mr_layouts st ++ layoutOf views)%list.
Proof.
  unfold pushLayout, layoutOf.
  destruct (obj_get "layout" views) as [[l f]|]; simpl; [done|].
  by rewrite app_nil_r.
Qed.

(** The step behind a segment that was not rejected either hands over to
    the rest of the loop, or ends the scan at the last segment of the key
    with the flag of that segment, and for a view without the layout of
    the table when the flag is set. *)
Lemma lastSegment_break views pathParts viewParts index brk next st st' :
  lastSegment views pathParts viewParts index brk next st
  = Ok (BreakOuter, st') ->
  (index <> length viewParts - 1 /\ next st = Ok (BreakOuter, st'))
  \/ (index = length viewParts - 1
      /\ ((exists st2, next st2 = Ok (BreakOuter, st'))
          \/ (mr_breakFromLayouts st' = mr_breakFromLayouts st
              /\ forall v nested,
                   obj_get ("/" +:+ Js.join "/" viewParts) views
                   = Some (v, nested) ->
                   isView v = true ->
                   mr_layouts st'
                   = if brk then mr_layouts st
                     else (mr_layouts st ++ layoutOf views)%list))).
Proof.
  unfold lastSegment. intros H.
  destruct (index =? length viewParts - 1)%nat eqn:Hidx; simpl in H.
  2: { left. by apply Nat.eqb_neq in Hidx. }
  apply Nat.eqb_eq in Hidx. right. split; [done|].
  set (st2 := pushHooks views (if negb brk then pushLayout views st else st))
    in H.
  assert (Hflag : mr_breakFromLayouts st2 = mr_breakFromLayouts st).
  { unfold st2, pushHooks, pushLayout.
    destruct brk, (obj_get "hooks" views) as [[? ?]|],
      (obj_get "layout" views) as [[? ?]|]; reflexivity. }
  assert (Hlay : mr_layouts st2
                 = if brk then mr_layouts st
                   else (mr_layouts st ++ layoutOf views)%list).
  { unfold st2, pushHooks. destruct brk; simpl.
    - by destruct (obj_get "hooks" views) as [[? ?]|].
    - rewrite <- pushLayout_layouts.
      by destruct (obj_get "hooks" views) as [[? ?]|]. }
  destruct (obj_get _ views) as [[v nested]|] eqn:Hget; [|discriminate].
  destruct v as [vc|vc o|entries|h].
  - destruct (length viewParts =? length pathParts)%nat; [|left; eauto].
    injection H as <-. right. split; [done|].
    intros v' nested' Hv _. exact Hlay.
  - destruct (length viewParts =? length pathParts)%nat; [|left; eauto].
    injection H as <-. right. split; [done|].
    intros v' nested' Hv _. exact Hlay.
  - destruct (nested _) as [result|e]; [|discriminate].
    injection H as <-. right. split.
    + by rewrite (mergeNested_break views).
    + intros v' nested' Hv Hview. by injection Hv as <- <-.
  - destruct (nested _) as [result|e]; [|discriminate].
    injection H as <-. right. split.
    + by rewrite (mergeNested_break views).
    + intros v' nested' Hv Hview. by injection Hv as <- <-.
Qed.

(** One iteration of the inner loop. *)
Lemma scanParts_cons views pathParts viewParts index vp rest st :
  scanParts views pathParts viewParts index (vp :: rest) st
  = let st := with_break (isBoundary vp) st in
    if isDynamicPart vp then
      lastSegment views pathParts viewParts index (isBoundary vp)
        (scanParts views pathParts viewParts (S index) rest)
        (with_params
           (obj_set (Js.slice (stripBoundary vp) 1 None)
                    (pathParts !! index) (mr_params st)) st)
    else if isWildcardPart vp then
      let param := Js.slice (stripBoundary vp) 1 None in
      let st :=
        if negb (String.eqb param "") then
          with_params
            (obj_set param (Some (Js.join "/" (drop index pathParts)))
                     (mr_params st)) st
        else st in
      let st := if isBoundary vp then st else pushLayout views st in
      Ok (BreakOuter,
          with_match
            (fst <$> obj_get ((if (index =? 0)%nat then "" else "/")
                              +:+ Js.join "/" viewParts) views) st)
    else if negb (bool_decide (Some (stripBoundary vp) = pathParts !! index))
    then Ok (NextView, st)
    else
      lastSegment views pathParts viewParts index (isBoundary vp)
        (scanParts views pathParts viewParts (S index) rest) st.
Proof. reflexivity. Qed.

(** The scan of one key without wildcard segment, from any segment on. *)
Lemma scanParts_break views pathParts viewParts :
  forall rest index st st' lastPart,
    (index + length rest = length viewParts)%nat ->
    last rest = Some lastPart ->
    Forall (fun vp => isWildcardPart vp = false) rest ->
    scanParts views pathParts viewParts index rest st
    = Ok (BreakOuter, st') ->
    (forall i vp, rest !! i = Some vp -> isDynamicPart vp = false ->
       pathParts !! (index + i)%nat = Some (stripBoundary vp))
    /\ mr_breakFromLayouts st' = isBoundary lastPart
    /\ (forall v nested,
          obj_get ("/" +:+ Js.join "/" viewParts) views = Some (v, nested) ->
          isView v = true ->
          mr_layouts st'
          = if isBoundary lastPart then mr_layouts st
            else (mr_layouts st ++ layoutOf views)%list).
Proof.
  induction rest as [|vp rest' IH]; intros index st st' lastPart Hlen Hlast
    Hwild Hscan; [discriminate|].
  apply Forall_cons in Hwild as [Hvp Hwild'].
  rewrite scanParts_cons in Hscan. cbv zeta in Hscan.
  (* the two ways into [lastSegment] *)
  assert (Hstep :
    (isDynamicPart vp = false ->
     pathParts !! index = Some (stripBoundary vp))
    /\ exists st1,
         mr_layouts st1 = mr_layouts st
         /\ mr_breakFromLayouts st1 = isBoundary vp
         /\ lastSegment views pathParts viewParts index (isBoundary vp)
              (scanParts views pathParts viewParts (S index) rest') st1
            = Ok (BreakOuter, st')).
  { destruct (isDynamicPart vp) eqn:Hdyn.
    - split; [done|]. eexists. split; [|split; [|exact Hscan]]; done.
    - rewrite Hvp in Hscan.
      destruct (bool_decide (Some (stripBoundary vp) = pathParts !! index))
        eqn:Heq; simpl in Hscan; [|discriminate].
      apply bool_decide_eq_true in Heq.
      split; [done|]. eexists. split; [|split; [|exact Hscan]]; done. }
  destruct Hstep as [Hhere (st1 & Hl1 & Hb1 & Hls)].
  apply lastSegment_break in Hls
    as [[Hidx Hnext] | (Hidx & [[st2 Hnext] | [Hflag Hlay]])].
  - destruct rest' as [|vp' rest'']; [discriminate|].
    assert (Hlast' : last (vp' :: rest'') = Some lastPart) by exact Hlast.
    destruct (IH (S index) st1 st' lastPart ltac:(simpl in *; lia)
                 Hlast' Hwild' Hnext) as (Hparts & Hfl & Hly).
    split; [|split].
    + intros [|i] vp0 Hi Hd.
      * injection Hi as <-. rewrite Nat.add_0_r. by apply Hhere.
      * replace (index + S i)%nat with (S index + i)%nat by lia.
        by apply Hparts.
    + exact Hfl.
    + intros v nested Hv Hview. rewrite (Hly v nested Hv Hview).
      by rewrite Hl1.
  - assert (rest' = []) as ->.
    { destruct rest'; [done|]. simpl in Hlen.
      assert (length viewParts <> 0)%nat by lia. lia. }
    discriminate.
  - assert (rest' = []) as ->.
    { destruct rest'; [done|]. simpl in Hlen.
      assert (length viewParts <> 0)%nat by lia. lia. }
    injection Hlast as <-.
    split; [|split].
    + intros [|i] vp0 Hi Hd; [|done].
      injection Hi as <-. rewrite Nat.add_0_r. by apply Hhere.
    + by rewrite Hflag.
    + intros v nested Hv Hview. rewrite (Hlay v nested Hv Hview).
      by rewrite Hl1.
Qed.

(** C7.  The code at the failing inputs.  A boundary key cuts the layout
    of its own table, which is not added, and the layouts of the table
    one level up, which the merge of the nested result empties: one table
    below the root the match for "/a/c" comes back without any layout.
    The merge hands up the flag of its own key, not the one of the nested
    result, so that two tables below the root the match for "/a/b/c"
    comes back with the layout of the root table.  The flag is computed
    anew at every segment as well: under the key "/(admin)/panel" the
    match for "/admin/panel" comes back with the flag false and with the
    layout of its table. *)
Theorem C7_boundary_cuts_one_level_up_only :
  matchView "/a/c" boundaryBelow
  = Ok {| mr_match := Some (view "Leaf"); mr_layouts := [];
          mr_hooks := []; mr_params := []; mr_breakFromLayouts := false |}
  /\ matchView "/a/b/c" boundaryFarBelow
     = Ok {| mr_match := Some (view "Leaf"); mr_layouts := [view "Root"];
             mr_hooks := []; mr_params := [];
             mr_breakFromLayouts := false |}
  /\ isBoundary "(admin)" = true
  /\ matchView "/admin/panel" boundaryTable
     = Ok {| mr_match := Some (view "Panel");
             mr_layouts := [view "Shell"]; mr_hooks := [];
             mr_params := []; mr_breakFromLayouts := false |}.
Proof. repeat split; reflexivity. Qed.

(** Two reconciliations in a row, in opposite directions: the second one
    takes its keys from the buffer the first one built, so a slot that
    both incoming buffers hold does not lose its key. *)
Lemma keys_grow_across_alternation prev next1 next2 d ps1 ps2 m1 m2 i x y :
  let t1 := (calculateTree prev next1 d ps1 m1).1 in
  let t2 := (calculateTree t1 next2 (opposite d) ps2 m2).1 in
  tree_get (direction_split d).1 t1 !! i = Some x ->
  tree_get (direction_split (opposite d)).1 t2 !! i = Some y ->
  (item_key x <= item_key y <= item_key x + 1)%Z.
Proof.
  intros t1 t2 Hx Hy.
  destruct (calculateTree_spec t1 next2 (opposite d) ps2 m2
              (direction_split (opposite d)).1
              (direction_split (opposite d)).2)
    as (_ & _ & _ & Hkeys); [by destruct d|].
  specialize (Hkeys i y Hy). simpl in Hkeys.
  assert (Hsame : (direction_split (opposite d)).2 = (direction_split d).1)
    by (by destruct d).
  rewrite Hsame in Hkeys. fold t1 in Hkeys. by rewrite Hx in Hkeys.
Qed.

(** ** The priority sorter *)

Lemma getViewPriority_range view : (1 <= getViewPriority view <= 4)%Z.
Proof.
  unfold getViewPriority.
  destruct (_ || _), (Js.startsWith view "*"), (Js.includes view ":"); lia.
Qed.

Lemma insertView_perm view sorted : insertView view sorted ≡ₚ view :: sorted.
Proof.
  induction sorted as [|y ys IH]; simpl; [done|].
  destruct (getViewPriority view <=? getViewPriority y)%Z; [done|].
  rewrite IH. apply perm_swap.
Qed.

(** [sortViews] keeps the keys. *)
Lemma sortViews_perm views : sortViews views ≡ₚ views.
Proof.
  induction views as [|v views IH]; simpl; [done|].
  by rewrite insertView_perm, IH.
Qed.

Lemma insertView_sorted view sorted :
  StronglySorted (fun a b => (getViewPriority a <= getViewPriority b)%Z)
                 sorted ->
  StronglySorted (fun a b => (getViewPriority a <= getViewPriority b)%Z)
                 (insertView view sorted).
Proof.
  induction 1 as [|y ys Hys IH Hy]; simpl.
  - repeat constructor.
  - destruct (Z.leb_spec (getViewPriority view) (getViewPriority y)).
    + constructor; [by constructor|]. constructor; [done|].
      eapply Forall_impl; [exact Hy|]. simpl. intros z Hz. lia.
    + constructor; [done|].
      rewrite (insertView_perm view ys). constructor; [lia|done].
Qed.

(** [sortViews] orders the keys by priority. *)
Lemma sortViews_sorted views :
  StronglySorted (fun a b => (getViewPriority a <= getViewPriority b)%Z)
                 (sortViews views).
Proof.
  induction views as [|v views IH]; simpl; [constructor|].
  by apply insertView_sorted.
Qed.

Lemma insertView_class p view sorted :
  ofPriority p (insertView view sorted) = ofPriority p (view :: sorted).
Proof.
  unfold ofPriority.
  induction sorted as [|y ys IH]; simpl; [done|].
  destruct (Z.leb_spec (getViewPriority view) (getViewPriority y)) as [?|Hlt];
    [done|].
  rewrite !filter_cons in *.
  destruct (decide (getViewPriority y = p)) as [Hy|Hy].
  - rewrite IH. by rewrite !decide_False by lia.
  - by rewrite IH.
Qed.

(** [sortViews] is stable: within one priority class the keys keep the
    order of their declaration. *)
Lemma sortViews_stable p views :
  ofPriority p (sortViews views) = ofPriority p views.
Proof.
  induction views as [|v views IH]; simpl; [done|].
  rewrite insertView_class. unfold ofPriority in *.
  by rewrite !filter_cons, IH.
Qed.

(** ** Strings *)

Lemma append_cons a (s t : string) : String a s +:+ t = String a (s +:+ t).
Proof. reflexivity. Qed.

Lemma append_nil_l (s : string) : "" +:+ s = s.
Proof. reflexivity. Qed.

Lemma append_nil_r (s : string) : s +:+ "" = s.
Proof.
  induction s as [|a s IH]; [done|]. by rewrite append_cons, IH.
Qed.

Lemma append_assoc (a b c : string) : (a +:+ b) +:+ c = a +:+ (b +:+ c).
Proof.
  induction a as [|x a IH]; [done|]. by rewrite !append_cons, IH.
Qed.

Lemma length_append (a b : string) :
  String.length (a +:+ b) = (String.length a + String.length b)%nat.
Proof.
  induction a as [|x a IH]; [done|]. rewrite append_cons. simpl.
  by rewrite IH.
Qed.

Lemma substring_0_full (s : string) : substring 0 (String.length s) s = s.
Proof. induction s as [|a s IH]; simpl; [done|]. by rewrite IH. Qed.

Lemma substring_0_app (a b : string) :
  substring 0 (String.length a) (a +:+ b) = a.
Proof.
  induction a as [|x a IH]; [by destruct b|].
  rewrite append_cons. simpl. by rewrite IH.
Qed.

Lemma substring_skip_app (a b : string) n m :
  substring (String.length a + n) m (a +:+ b) = substring n m b.
Proof.
  induction a as [|x a IH]; [done|]. rewrite append_cons. simpl. exact IH.
Qed.

Lemma lacks_app c (a b : string) :
  lacks c (a +:+ b) = lacks c a && lacks c b.
Proof.
  induction a as [|x a IH]; [done|]. rewrite append_cons. simpl.
  rewrite IH. by rewrite andb_assoc.
Qed.

Lemma lacks_nonempty_last c s :
  lacks c s = true -> s <> "" ->
  exists d, lastChar s = Some d /\ Ascii.eqb d c = false.
Proof.
  induction s as [|a s IH]; [done|]. simpl. intros H _.
  apply andb_true_iff in H as [Ha Hs]. destruct s as [|b s'].
  - exists a. split; [done|]. by apply negb_true_iff.
  - by apply IH.
Qed.

Lemma lastChar_app (a b : string) : b <> "" -> lastChar (a +:+ b) = lastChar b.
Proof.
  intros Hb. induction a as [|x a IH]; [done|].
  rewrite append_cons. simpl. rewrite IH.
  destruct (a +:+ b) eqn:E; [|done].
  destruct a; [by rewrite append_nil_l in E|discriminate].
Qed.

(** [s.endsWith("/")] looks at the last character. *)
Lemma endsWith_slash s :
  Js.endsWith s "/"
  = match lastChar s with Some d => Ascii.eqb d "/" | None => false end.
Proof.
  unfold Js.endsWith.
  induction s as [|a s IH]; [done|].
  destruct s as [|b s'].
  - simpl. by destruct (Ascii.eqb a "/").
  - change (lastChar (String a (String b s'))) with (lastChar (String b s')).
    rewrite <- IH.
    change (String.length (String a (String b s')))
      with (S (S (String.length s'))).
    change (String.length (String b s')) with (S (String.length s')).
    change (String.length "/") with 1%nat.
    replace (S (S (String.length s')) - 1)%nat with (S (String.length s' - 0))
      by lia.
    replace (S (String.length s') - 1)%nat with (String.length s' - 0)%nat
      by lia.
    reflexivity.
Qed.

Lemma startsWith_self_app (p r : string) : Js.startsWith (p +:+ r) p = true.
Proof.
  induction p as [|a p IH]; [done|]. rewrite append_cons. simpl.
  by rewrite Ascii.eqb_refl, IH.
Qed.

Lemma startsWith_lacks c (s : string) :
  lacks c s = true -> Js.startsWith s (String c "") = false.
Proof.
  destruct s as [|a s]; simpl; [done|]. intros H.
  apply andb_true_iff in H as [Ha _]. apply negb_true_iff in Ha.
  by rewrite Ascii.eqb_sym, Ha.
Qed.

Lemma indexOf_unfold (s p : string) :
  Js.indexOf s p
  = if Js.startsWith s p then Some 0%nat
    else match s with
         | EmptyString => None
         | String _ s' => S <$> Js.indexOf s' p
         end.
Proof. by destruct s. Qed.





(** [split] and the parts behind slashes. *)
Lemma split_nonempty c (s : string) : Js.split c s <> [].
Proof.
  destruct s as [|a s]; simpl; [done|].
  destruct (Ascii.eqb a c); [done|]. by destruct (Js.split c s).
Qed.

Lemma split_lacks_app (x rest : string) :
  lacks "/" x = true ->
  Js.split "/" (x +:+ rest)
  = match Js.split "/" rest with
    | y :: ys => (x +:+ y) :: ys
    | [] => [x]
    end.
Proof.
  induction x as [|a x IH]; intros H.
  - rewrite append_nil_l. pose proof (split_nonempty "/" rest).
    by destruct (Js.split "/" rest).
  - simpl in H. apply andb_true_iff in H as [Ha Hx].
    apply negb_true_iff in Ha. rewrite append_cons. simpl.
    rewrite Ha, (IH Hx). by destruct (Js.split "/" rest).
Qed.

Lemma split_slashed (parts : list string) :
  Forall (fun x => lacks "/" x = true) parts ->
  Js.split "/" (slashed parts) = "" :: parts.
Proof.
  induction 1 as [|x parts Hx _ IH]; [done|].
  simpl. rewrite (split_lacks_app x _ Hx), IH. by rewrite append_nil_r.
Qed.

Lemma slashed_app (l1 l2 : list string) :
  slashed (l1 ++ l2) = slashed l1 +:+ slashed l2.
Proof.
  induction l1 as [|x l1 IH]; [done|]. simpl.
  by rewrite IH, append_cons, append_assoc.
Qed.

Lemma slashed_join (parts : list string) :
  parts <> [] -> slashed parts = "/" +:+ Js.join "/" parts.
Proof.
  induction parts as [|x parts IH]; [done|]. intros _.
  destruct parts as [|y parts].
  - simpl. by rewrite append_nil_r.
  - change (slashed (x :: y :: parts))
      with (String "/" (x +:+ slashed (y :: parts))).
    rewrite IH by done. reflexivity.
Qed.

(** ** [constructPath] on a pattern *)













(** ** [matchView] on the path built from a pattern *)




Lemma slice_tail c (s : string) : Js.slice (String c s) 1 None = s.
Proof.
  unfold Js.slice.
  change (String.length (String c s)) with (S (String.length s)).
  assert (H1 : (1 <? 0)%Z = false) by done. rewrite H1.
  replace (Z.to_nat (Z.min 1 (Z.of_nat (S (String.length s))))) with 1%nat
    by lia.
  replace (Z.to_nat
             (Z.max (Z.of_nat (S (String.length s))
                     - Z.min 1 (Z.of_nat (S (String.length s)))) 0))
    with (String.length s) by lia.
  simpl. apply substring_0_full.
Qed.

Lemma obj_set_fresh {V} k (v : V) obj :
  k ∉ map fst obj -> obj_set k v obj = (obj ++ [(k, v)])%list.
Proof.
  induction obj as [|[k' v'] obj IH]; simpl; intros Hk; [done|].
  destruct (String.eqb_spec k' k) as [->|Hne].
  - exfalso. apply Hk. by left.
  - rewrite IH; [done|]. intros Hin. apply Hk. by right.
Qed.

(** Bindings of distinct names are set one behind the other. *)
Lemma obj_set_bindings (ps : list (string * string)) : forall acc,
  NoDup (map fst acc ++ map fst ps) ->
  foldl (fun acc kv => obj_set kv.1 (Some kv.2) acc) acc ps
  = (acc ++ asParams ps)%list.
Proof.
  induction ps as [|[k v] ps IH]; intros acc Hnd; simpl.
  - by rewrite app_nil_r.
  - apply NoDup_app in Hnd as (Hacc & Hdisj & Hps). simpl in Hps.
    apply NoDup_cons in Hps as [Hk Hps].
    rewrite obj_set_fresh.
    2: { intros Hin. apply (Hdisj k Hin). by left. }
    rewrite IH.
    + by rewrite <- app_assoc.
    + rewrite map_app. simpl. rewrite <- app_assoc. simpl.
      apply NoDup_app. split; [done|]. split.
      * intros x Hx. apply (Hdisj x Hx).
      * apply NoDup_cons. done.
Qed.

Lemma lastSegment_continue views pathParts viewParts index brk next st :
  index <> (length viewParts - 1)%nat ->
  lastSegment views pathParts viewParts index brk next st = next st.
Proof.
  intros H. unfold lastSegment.
  by rewrite (proj2 (Nat.eqb_neq _ _) H).
Qed.

Lemma lastSegment_view views pathParts viewParts index brk next st
    target nested :
  index = (length viewParts - 1)%nat ->
  obj_get ("/" +:+ Js.join "/" viewParts) views = Some (target, nested) ->
  isView target = true ->
  length viewParts = length pathParts ->
  lastSegment views pathParts viewParts index brk next st
  = Ok (BreakOuter,
        with_match (Some target)
          (pushHooks views (if negb brk then pushLayout views st else st))).
Proof.
  intros -> Hget Hview Hlen. unfold lastSegment.
  rewrite Nat.eqb_refl, Hget, Hlen, Nat.eqb_refl. simpl.
  by destruct target.
Qed.


Lemma lastSegment_nested views pathParts viewParts index brk next st
    sub nested result :
  index = (length viewParts - 1)%nat ->
  obj_get ("/" +:+ Js.join "/" viewParts) views = Some (VTable sub, nested) ->
  nested ("/" +:+ Js.join "/" (drop (S index) pathParts)) = Ok result ->
  lastSegment views pathParts viewParts index brk next st
  = Ok (BreakOuter,
        mergeNested
          (pushHooks views (if negb brk then pushLayout views st else st))
          result).
Proof.
  intros -> Hget Hnested. unfold lastSegment.
  rewrite Nat.eqb_refl, Hget. simpl. by rewrite Hnested.
Qed.


Lemma obj_spread_fresh {V} (y : list (string * V)) : forall x,
  NoDup (map fst x ++ map fst y) -> obj_spread x y = (x ++ y)%list.
Proof.
  unfold obj_spread.
  induction y as [|[k v] y IH]; intros x Hnd; simpl.
  - by rewrite app_nil_r.
  - apply NoDup_app in Hnd as (Hx & Hdisj & Hy). simpl in Hy.
    apply NoDup_cons in Hy as [Hk Hy].
    rewrite obj_set_fresh.
    2: { intros Hin. apply (Hdisj k Hin). by left. }
    rewrite IH.
    + by rewrite <- app_assoc.
    + rewrite map_app. simpl. rewrite <- app_assoc. simpl.
      apply NoDup_app. split; [done|]. split.
      * intros z Hz. apply (Hdisj z Hz).
      * apply NoDup_cons. done.
Qed.




Lemma obj_get_scanned k (table : Views) :
  obj_get k (scanned table)
  = (fun v => (v, matchValue v)) <$> obj_get k table.
Proof.
  induction table as [|[k' v] table IH]; simpl; [done|].
  by destruct (String.eqb k' k).
Qed.

Lemma matchView_unfold pathname (table : Views) :
  matchView pathname table
  = scanViews (scanned table)
      (drop 1 (Js.split "/" (stripTrailingSlash pathname)))
      (sortViews (map fst table)) emptyResult.
Proof.
  unfold matchView. simpl matchValue. unfold matchBody.
  fold (scanned table). do 2 f_equal.
  unfold scanned. rewrite map_map. by apply map_ext.
Qed.

(** ** The reconciler in closed form *)

Lemma commonPrefix_le before : forall after,
  (commonPrefix before after <= Nat.min (length before) (length after))%nat.
Proof.
  induction before as [|x before IH]; intros [|y after]; simpl; try lia.
  destruct (sameSlot x y); [|lia]. specialize (IH after). lia.
Qed.

(** The first loop stops at the first index where the two buffers differ,
    which it bumps, or at the end of the shorter buffer. *)
Lemma eqLoop_exact n : forall i before after e,
  n = (Nat.min (length before) (length after) - i)%nat ->
  e = (Z.of_nat i - 1)%Z ->
  eqLoop n i before after e
  = let k := commonPrefix (drop i before) (drop i after) in
    if (k <? n)%nat
    then (S (i + k), alter bumpKey (i + k)%nat after, Z.of_nat (i + k) - 1)%Z
    else ((i + n)%nat, after, Z.of_nat (i + n) - 1)%Z.
Proof.
  induction n as [|n IH]; intros i before after e Hn He; simpl.
  - rewrite Nat.add_0_r. by subst e.
  - assert (Hx : is_Some (before !! i)) by (apply lookup_lt_is_Some_2; lia).
    assert (Hy : is_Some (after !! i)) by (apply lookup_lt_is_Some_2; lia).
    destruct Hx as [x Hx], Hy as [y Hy].
    rewrite Hx, Hy.
    rewrite (drop_S before x i Hx), (drop_S after y i Hy). simpl.
    unfold sameSlot.
    destruct (cref_differ _ _ || params_differ _ _); simpl.
    + rewrite Nat.add_0_r. by subst e.
    + rewrite (IH (S i) before after (Z.of_nat i)) by lia. simpl.
      change (S ?k <? S n)%nat with (k <? n)%nat.
      rewrite <- !Nat.add_succ_comm. simpl.
      destruct (commonPrefix _ _ <? n)%nat; reflexivity.
Qed.

Lemma commonPrefix_bump before : forall after f,
  (forall j it, item_C (f j it) = item_C it
                /\ item_params (f j it) = item_params it) ->
  commonPrefix before (imap f after) = commonPrefix before after.
Proof.
  induction before as [|x before IH]; intros [|y after] f Hf; simpl; try done.
  unfold sameSlot. destruct (Hf 0%nat y) as [-> ->].
  destruct (negb _); [|done]. f_equal. apply IH. intros j it. apply Hf.
Qed.

(** [calculateTree] in closed form: with [k] the number of leading slots
    the outgoing buffer and [next] agree on, [eq] is [k - 1] and the
    incoming buffer holds the slots made from [next], those from index
    [k] on with their key bumped once. *)
Lemma calculateTree_exact prev next d ps m after before :
  direction_split d = (after, before) ->
  let outgoing := tree_get before prev in
  let fresh := imap (makeItem (map item_key outgoing) ps) next in
  let k := commonPrefix outgoing fresh in
  let incoming :=
    imap (fun j it => if (j <? k)%nat then it else bumpKey it) fresh in
  calculateTree prev next d ps m
  = (tree_set_eq (Z.of_nat k - 1)
       (tree_set after incoming
          (tree_set before outgoing
             {| tree_a := []; tree_b := []; tree_eq := -1 |})),
     registerMounted incoming m).
Proof.
  intros Hd outgoing fresh k incoming. unfold calculateTree. rewrite Hd.
  assert (Hne : after <> before).
  { pose proof (direction_split_distinct d) as Hx. by rewrite Hd in Hx. }
  fold outgoing. fold fresh.
  set (t0 := tree_set after fresh
               (tree_set before outgoing
                  {| tree_a := []; tree_b := []; tree_eq := -1 |})).
  assert (Ha0 : tree_get after t0 = fresh) by apply tree_get_set_same.
  assert (Hb0 : tree_get before t0 = outgoing).
  { unfold t0. rewrite tree_get_set_other by done. apply tree_get_set_same. }
  assert (He0 : tree_eq t0 = (-1)%Z) by (unfold t0; by destruct after, before).
  assert (Hmax : Nat.min (length (tree_a t0)) (length (tree_b t0))
                 = Nat.min (length outgoing) (length fresh)).
  { rewrite <- Ha0, <- Hb0. destruct after, before; simpl; try done; lia. }
  rewrite Hmax, Ha0, Hb0, He0.
  rewrite (eqLoop_exact _ 0 outgoing fresh (-1)) by (simpl; lia).
  rewrite !drop_0. fold k. cbv zeta.
  pose proof (commonPrefix_le outgoing fresh) as Hk. fold k in Hk.
  assert (Hfinal :
    (let '(i, after0, _) :=
       if (k <? Nat.min (length outgoing) (length fresh))%nat
       then (S (0 + k), alter bumpKey (0 + k)%nat fresh, Z.of_nat (0 + k) - 1)%Z
       else ((0 + Nat.min (length outgoing) (length fresh))%nat, fresh,
             Z.of_nat (0 + Nat.min (length outgoing) (length fresh)) - 1)%Z
     in keyLoop (length after0 - i) i after0) = incoming).
  { apply list_eq. intros j. unfold incoming. rewrite list_lookup_imap.
    destruct (k <? _)%nat eqn:Hlt.
    - apply Nat.ltb_lt in Hlt. rewrite keyLoop_lookup, length_alter. simpl.
      destruct (decide (j = k)) as [->|Hjk].
      + rewrite decide_False by lia. rewrite list_lookup_alter_eq.
        rewrite Nat.ltb_irrefl. by destruct (fresh !! k).
      + rewrite list_lookup_alter_ne by done.
        destruct (fresh !! j) as [it|] eqn:Hj.
        * apply lookup_lt_Some in Hj as Hlen.
          case_decide; simpl.
          -- destruct (j <? k)%nat eqn:E; [apply Nat.ltb_lt in E; lia|done].
          -- destruct (j <? k)%nat eqn:E; [done|apply Nat.ltb_ge in E; lia].
        * by case_decide.
    - apply Nat.ltb_ge in Hlt. rewrite keyLoop_lookup. simpl.
      destruct (fresh !! j) as [it|] eqn:Hj.
      + apply lookup_lt_Some in Hj as Hlen.
        case_decide; simpl.
        * destruct (j <? k)%nat eqn:E; [apply Nat.ltb_lt in E; lia|done].
        * destruct (j <? k)%nat eqn:E; [done|apply Nat.ltb_ge in E; lia].
      + by case_decide. }
  destruct (k <? _)%nat eqn:Hlt; simpl in Hfinal |- *; rewrite Hfinal.
  - unfold t0. by destruct after, before.
  - apply Nat.ltb_ge in Hlt.
    replace (Nat.min (length outgoing) (length fresh)) with k by lia.
    unfold t0. by destruct after, before.
Qed.

Lemma registerMounted_lookup after : forall m i k,
  registerMounted after m !! (i, k)
  = if decide (item_key <$> after !! i = Some k) then Some MountedEmpty
    else m !! (i, k).
Proof.
  unfold registerMounted.
  induction after as [|x after IH] using rev_ind; intros m i k; simpl.
  - done.
  - rewrite imap_app, foldl_app. simpl. rewrite Nat.add_0_r.
    destruct (decide ((length after, item_key x) = (i, k))) as [Heq|Hne].
    + injection Heq as <- <-. rewrite lookup_insert_eq.
      rewrite list_lookup_middle by done. simpl. by rewrite decide_True.
    + rewrite lookup_insert_ne by done. rewrite IH.
      destruct (decide (i = length after)) as [->|Hi].
      * rewrite list_lookup_middle by done. simpl.
        rewrite lookup_ge_None_2 by done. simpl.
        repeat case_decide; congruence.
      * destruct (decide (i < length after)%nat).
        -- by rewrite lookup_app_l by done.
        -- rewrite !lookup_ge_None_2; [done| |lia].
           rewrite length_app. simpl. lia.
Qed.

Lemma tree_get_set_eq l e items t :
  tree_get l (tree_set_eq e (tree_set l items t)) = items.
Proof. by destruct l. Qed.

Lemma incoming_lookup prev next d ps m i :
  let outgoing := tree_get (direction_split d).2 prev in
  let t := (calculateTree prev next d ps m).1 in
  tree_get (direction_split d).1 t !! i
  = (fun r =>
       let it := makeItem (map item_key outgoing) ps i r in
       if (i <? commonPrefix outgoing
                  (imap (makeItem (map item_key outgoing) ps) next))%nat
       then it else bumpKey it) <$> next !! i.
Proof.
  intros outgoing t. subst t.
  rewrite (calculateTree_exact prev next d ps m (direction_split d).1
             (direction_split d).2) by (by destruct d).
  simpl. fold outgoing.
  rewrite tree_get_set_eq.
  rewrite !list_lookup_imap. by destruct (next !! i).
Qed.

Lemma tree_eq_exact prev next d ps m :
  let outgoing := tree_get (direction_split d).2 prev in
  tree_eq (calculateTree prev next d ps m).1
  = (Z.of_nat (commonPrefix outgoing
                 (imap (makeItem (map item_key outgoing) ps) next)) - 1)%Z.
Proof.
  intros outgoing.
  rewrite (calculateTree_exact prev next d ps m (direction_split d).1
             (direction_split d).2) by (by destruct d).
  simpl. by destruct d.
Qed.

Lemma makeItem_inherited outgoing ps i r :
  item_key (makeItem (map item_key outgoing) ps i r)
  = inheritedKey outgoing i.
Proof.
  rewrite makeItem_key. unfold inheritedKey. by rewrite list_lookup_fmap.
Qed.

(** [eq] and the keys of the incoming buffer, slot by slot. *)
Lemma calculateTree_eq_keys prev next d ps m :
  let t := (calculateTree prev next d ps m).1 in
  let outgoing := tree_get (direction_split d).2 prev in
  let incoming := tree_get (direction_split d).1 t in
  tree_eq t = (Z.of_nat (commonPrefix outgoing incoming) - 1)%Z
  /\ (forall i y, incoming !! i = Some y ->
        item_key y
        = (inheritedKey outgoing i
           + if (Z.of_nat i <=? tree_eq t)%Z then 0 else 1)%Z).
Proof.
  intros t outgoing incoming.
  pose proof (tree_eq_exact prev next d ps m) as Heq. simpl in Heq.
  fold t outgoing in Heq.
  set (fresh := imap (makeItem (map item_key outgoing) ps) next) in *.
  assert (Hinc : incoming
                 = imap (fun j it =>
                           if (j <? commonPrefix outgoing fresh)%nat
                           then it else bumpKey it) fresh).
  { unfold incoming, t.
    rewrite (calculateTree_exact prev next d ps m (direction_split d).1
               (direction_split d).2) by (by destruct d).
    simpl. by rewrite tree_get_set_eq. }
  split.
  - rewrite Heq, Hinc. rewrite commonPrefix_bump; [done|].
    intros j it. by destruct (j <? _)%nat.
  - intros i y Hy. unfold incoming, t in Hy.
    rewrite incoming_lookup in Hy. fold outgoing fresh in Hy.
    destruct (next !! i) as [r|]; [|done]. injection Hy as <-.
    rewrite Heq.
    destruct (i <? commonPrefix outgoing fresh)%nat eqn:E.
    + apply Nat.ltb_lt in E. rewrite makeItem_inherited.
      destruct (Z.of_nat i <=? _)%Z eqn:E'; [lia|].
      apply Z.leb_gt in E'. lia.
    + apply Nat.ltb_ge in E. simpl. rewrite makeItem_inherited.
      destruct (Z.of_nat i <=? _)%Z eqn:E'; [|lia].
      apply Z.leb_le in E'. lia.
Qed.

(** X3.  [calculateTree]: [eq] is one less than the number of leading
    indices at which the outgoing and the incoming buffer hold the same
    component with the same [params]; an incoming slot at an index up to
    [eq] has exactly the key of the outgoing slot at that index, and an
    incoming slot beyond [eq] has that key (0 where the outgoing buffer
    holds no slot) plus one. *)
Theorem calculateTree_eq_and_keys prev next d ps m :
  let t := (calculateTree prev next d ps m).1 in
  let outgoing := tree_get (direction_split d).2 prev in
  let incoming := tree_get (direction_split d).1 t in
  tree_eq t = (Z.of_nat (commonPrefix outgoing incoming) - 1)%Z
  /\ (forall i y, incoming !! i = Some y ->
        item_key y
        = (inheritedKey outgoing i
           + if (Z.of_nat i <=? tree_eq t)%Z then 0 else 1)%Z).
Proof. apply calculateTree_eq_keys. Qed.

(** A slot that carries a [params] object is the same as no outgoing
    slot. *)
Lemma commonPrefix_stops outgoing : forall fresh i y f,
  fresh !! i = Some y -> item_params y = ParamsObj f ->
  (commonPrefix outgoing fresh <= i)%nat.
Proof.
  induction outgoing as [|x outgoing IH]; intros [|z fresh] i y f Hy Hf;
    simpl; try lia.
  destruct i as [|i]; simpl in Hy.
  - injection Hy as ->. unfold sameSlot. rewrite Hf.
    destruct (item_params x), (cref_differ _ _); simpl; lia.
  - destruct (sameSlot x z); [|lia].
    specialize (IH fresh i y f Hy Hf). lia.
Qed.

(** X4.  [calculateTree]: an element of [next] in the array form with a
    [params] list always breaks the common prefix: [eq] stays below its
    index, its slot carries the listed parameters and its key is the key
    of the outgoing slot at that index (0 where there is none) plus one,
    whatever the outgoing buffer holds. *)
Theorem calculateTree_params_slot_rekeyed prev next d ps m i c o names :
  next !! i = Some (RPair c o) ->
  opt_params o = Some names ->
  let t := (calculateTree prev next d ps m).1 in
  let outgoing := tree_get (direction_split d).2 prev in
  (tree_eq t < Z.of_nat i)%Z
  /\ exists y,
       tree_get (direction_split d).1 t !! i = Some y
       /\ item_C y = c
       /\ item_key y = (inheritedKey outgoing i + 1)%Z
       /\ item_params y
          = ParamsObj
              (foldl (fun obj param =>
                        obj_set param (mjoin (obj_get param ps)) obj)
                     [] names).
Proof.
  intros Hi Ho t outgoing.
  set (fresh := imap (makeItem (map item_key outgoing) ps) next).
  assert (Hk : (commonPrefix outgoing fresh <= i)%nat).
  { eapply commonPrefix_stops.
    - unfold fresh. rewrite list_lookup_imap, Hi. reflexivity.
    - simpl. rewrite Ho. reflexivity. }
  split.
  - unfold t. rewrite tree_eq_exact. fold outgoing fresh. lia.
  - unfold t. rewrite incoming_lookup. fold outgoing fresh. rewrite Hi.
    simpl. rewrite Ho.
    destruct (i <? _)%nat eqn:E; [apply Nat.ltb_lt in E; lia|].
    eexists. split; [reflexivity|]. simpl.
    unfold inheritedKey. by rewrite list_lookup_fmap.
Qed.

Lemma calculateTree_params_slot_rekeyed_witness :
  let next := [RPair (CComp "Post")
                 {| submodule := None; opt_params := Some ["id"] |}] in
  let t := (calculateTree run1 next Dab [("id", Some "42")] ∅).1 in
  (tree_eq t < 0)%Z
  /\ exists y,
       tree_a t !! 0%nat = Some y
       /\ item_C y = CComp "Post"
       /\ item_key y = (inheritedKey (tree_b run1) 0 + 1)%Z
       /\ item_params y = ParamsObj [("id", Some "42")].
Proof.
  exact (calculateTree_params_slot_rekeyed run1
           [RPair (CComp "Post")
              {| submodule := None; opt_params := Some ["id"] |}]
           Dab [("id", Some "42")] ∅
           0%nat (CComp "Post")
           {| submodule := None; opt_params := Some ["id"] |} ["id"]
           eq_refl eq_refl).
Defined.

Lemma commonPrefix_refl l :
  Forall (fun x => item_params x = ParamsAbsent /\ item_C x <> COpaque) l ->
  commonPrefix l l = length l.
Proof.
  induction 1 as [|x l [Hp Hc] _ IH]; simpl; [done|].
  unfold sameSlot. rewrite Hp. simpl.
  destruct (item_C x) as [|c|]; simpl; try done.
  - by rewrite IH.
  - rewrite String.eqb_refl. simpl. by rewrite IH.
Qed.

(** X5.  [calculateTree]: when [next] holds the components of the
    outgoing buffer again, slot by slot, and no slot carries [params],
    the incoming buffer is equal to the outgoing one, keys included, and
    [eq] is the index of the last slot: nothing is mounted anew. *)
Theorem calculateTree_same_components prev d ps m :
  let outgoing := tree_get (direction_split d).2 prev in
  Forall (fun x => item_params x = ParamsAbsent /\ item_C x <> COpaque)
         outgoing ->
  let t := (calculateTree prev (map (fun x => RComp (item_C x)) outgoing)
                          d ps m).1 in
  tree_get (direction_split d).1 t = outgoing
  /\ tree_eq t = (Z.of_nat (length outgoing) - 1)%Z.
Proof.
  intros outgoing Hall t.
  set (next := map (fun x => RComp (item_C x)) outgoing) in *.
  assert (Hfresh : imap (makeItem (map item_key outgoing) ps) next
                   = outgoing).
  { apply list_eq. intros i. unfold next.
    rewrite list_lookup_imap, list_lookup_fmap.
    destruct (outgoing !! i) as [x|] eqn:Hx; [|done]. simpl.
    rewrite list_lookup_fmap, Hx. simpl.
    rewrite Forall_lookup in Hall. destruct (Hall i x Hx) as [Hp _].
    destruct x; simpl in *. by rewrite Hp. }
  split.
  - apply list_eq. intros i. unfold t. rewrite incoming_lookup.
    fold outgoing. rewrite Hfresh, commonPrefix_refl by done.
    transitivity (imap (makeItem (map item_key outgoing) ps) next !! i);
      [|by rewrite Hfresh].
    rewrite list_lookup_imap.
    destruct (next !! i) as [r|] eqn:Hr; [|done].
    assert (Hi : (i < length outgoing)%nat).
    { apply lookup_lt_Some in Hr. unfold next in Hr.
      by rewrite length_map in Hr. }
    apply Nat.ltb_lt in Hi. simpl. by rewrite Hi.
  - unfold t. rewrite tree_eq_exact. fold outgoing.
    by rewrite Hfresh, commonPrefix_refl.
Qed.

Lemma calculateTree_same_components_witness :
  let t := (calculateTree run1
              (map (fun x => RComp (item_C x)) (tree_b run1)) Dab [] ∅).1 in
  tree_a t = tree_b run1 /\ tree_eq t = (Z.of_nat (length (tree_b run1)) - 1)%Z.
Proof.
  apply (calculateTree_same_components run1 Dab [] ∅).
  repeat constructor; done.
Defined.

(** X6.  [calculateTree] writes to [mountedComponents] one empty record
    per incoming slot, under the index and the key of the slot; every
    other entry is left as it was, none is removed. *)
Theorem calculateTree_registers_incoming prev next d ps m i k :
  let incoming :=
    tree_get (direction_split d).1 (calculateTree prev next d ps m).1 in
  (calculateTree prev next d ps m).2 !! (i, k)
  = if decide (item_key <$> incoming !! i = Some k) then Some MountedEmpty
    else m !! (i, k).
Proof.
  intros incoming. subst incoming.
  rewrite (calculateTree_exact prev next d ps m (direction_split d).1
             (direction_split d).2) by (by destruct d).
  simpl. rewrite tree_get_set_eq. apply registerMounted_lookup.
Qed.

(** X7.  [getCompKeys] on the tree of a reconciliation, read with the
    transitional cycle of its direction: [keys.in] lists the incoming
    slots beyond [eq], in order, each under its index with the key of the
    outgoing slot at that index (0 where there is none) plus one;
    [keys.out] lists the outgoing slots beyond [eq] with their keys. *)
Theorem getCompKeys_after_calculateTree prev next d ps m :
  let t := (calculateTree prev next d ps m).1 in
  let outgoing := tree_get (direction_split d).2 prev in
  let keys := getCompKeys t (cycle_of d) in
  keys_in keys
  = drop (Z.to_nat (tree_eq t + 1))
         (imap (fun i _ => (i, (inheritedKey outgoing i + 1)%Z)) next)
  /\ keys_out keys
     = drop (Z.to_nat (tree_eq t + 1))
            (imap (fun i x => (i, item_key x)) outgoing)
  /\ length (keys_in keys) = (length next - Z.to_nat (tree_eq t + 1))%nat
  /\ length (keys_out keys)
     = (length outgoing - Z.to_nat (tree_eq t + 1))%nat.
Proof.
  intros t outgoing keys.
  assert (Hin : keys_in keys
                = compKeysOf t (Some (direction_split d).1))
    by (by destruct d).
  assert (Hout : keys_out keys
                 = compKeysOf t (Some (direction_split d).2))
    by (by destruct d).
  assert (Hb : tree_get (direction_split d).2 t = outgoing).
  { unfold t.
    by destruct (calculateTree_spec prev next d ps m (direction_split d).1
                   (direction_split d).2) as (-> & _);
      [by destruct d|]. }
  assert (Hkeys :
    drop (Z.to_nat (tree_eq t + 1))
         (imap (fun i it => (i, item_key it))
               (tree_get (direction_split d).1 t))
    = drop (Z.to_nat (tree_eq t + 1))
           (imap (fun i _ => (i, (inheritedKey outgoing i + 1)%Z)) next)).
  { pose proof (tree_eq_exact prev next d ps m) as He. simpl in He.
    fold t outgoing in He. rewrite He.
    replace (Z.to_nat _) with
      (commonPrefix outgoing
         (imap (makeItem (map item_key outgoing) ps) next)) by lia.
    apply list_eq. intros j. rewrite !lookup_drop, !list_lookup_imap.
    unfold t. rewrite incoming_lookup. fold outgoing.
    destruct (next !! _) as [r|]; [|done]. simpl.
    destruct (_ <? _)%nat eqn:E; [apply Nat.ltb_lt in E; lia|].
    simpl. by rewrite makeItem_inherited. }
  rewrite Hin, Hout. unfold compKeysOf. rewrite Hb, Hkeys.
  repeat split; rewrite length_drop, length_imap; reflexivity.
Qed.

(** ** The registry of mounted components *)

Lemma foldl_delete_lookup {A} (l : list (nat * Z)) : forall (m : gmap (nat * Z) A) k,
  foldl (fun m k => delete k m) m l !! k
  = if decide (k ∈ l) then None else m !! k.
Proof.
  induction l as [|x l IH]; intros m k; cbn [foldl].
  - rewrite decide_False; [done|]. apply not_elem_of_nil.
  - rewrite IH. destruct (decide (k ∈ l)) as [Hin|Hnin].
    + rewrite decide_True; [done|]. by right.
    + destruct (decide (k = x)) as [->|Hne].
      * rewrite lookup_delete_eq. rewrite decide_True; [done|]. by left.
      * rewrite lookup_delete_ne by done.
        rewrite decide_False; [done|]. by intros [?|?]%elem_of_cons.
Qed.

Lemma cleanMountedComponents_lookup s k :
  mountedComponents (cleanMountedComponents s) !! k
  = if isStale (componentTree s) k then None
    else mountedComponents s !! k.
Proof.
  unfold cleanMountedComponents. simpl. rewrite foldl_delete_lookup.
  destruct (isStale (componentTree s) k) eqn:Hs.
  - case_decide as Hin; [done|].
    destruct (mountedComponents s !! k) as [v|] eqn:Hv; [|done].
    exfalso. apply Hin. apply list_elem_of_filter. split; [done|].
    apply list_elem_of_fmap. exists (k, v). split; [done|].
    by apply elem_of_map_to_list.
  - rewrite decide_False; [done|].
    intros [Hst _]%list_elem_of_filter. congruence.
Qed.

(** X8.  [cleanMountedComponents] removes from [mountedComponents] the
    entries whose key is below the smallest key that a buffer holds at
    the depth of the entry: below the smaller of the two keys where both
    buffers hold a slot, below the one key where one buffer holds a slot
    (the missing slot counts as [Infinity], it sets no bound), and every
    entry at a depth that neither buffer reaches.  Every other entry
    stays as it is; in particular the entry under the depth and key of a
    slot of either buffer is never removed.  The tree is not touched. *)
Theorem cleanMountedComponents_keeps_live s :
  let t := componentTree s in
  let after := mountedComponents (cleanMountedComponents s) in
  (forall depth k,
     after !! (depth, k)
     = match item_key <$> tree_a t !! depth,
             item_key <$> tree_b t !! depth with
       | Some ka, Some kb =>
           if (k <? Z.min ka kb)%Z then None
           else mountedComponents s !! (depth, k)
       | Some ka, None =>
           if (k <? ka)%Z then None else mountedComponents s !! (depth, k)
       | None, Some kb =>
           if (k <? kb)%Z then None else mountedComponents s !! (depth, k)
       | None, None => None
       end)
  /\ (forall depth x,
        tree_a t !! depth = Some x \/ tree_b t !! depth = Some x ->
        after !! (depth, item_key x)
        = mountedComponents s !! (depth, item_key x))
  /\ componentTree (cleanMountedComponents s) = t.
Proof.
  intros t after. repeat split.
  - intros depth k. unfold after.
    rewrite cleanMountedComponents_lookup. fold t.
    unfold isStale, minLiveKey. cbn [fst snd].
    by destruct (item_key <$> tree_a t !! depth),
                (item_key <$> tree_b t !! depth).
  - intros depth x Hx. unfold after.
    rewrite cleanMountedComponents_lookup. fold t.
    unfold isStale, minLiveKey. simpl.
    destruct (tree_a t !! depth) as [xa|], (tree_b t !! depth) as [xb|];
      simpl; destruct Hx as [Hx|Hx]; try done; injection Hx as ->;
      (destruct (_ <? _)%Z eqn:E; [apply Z.ltb_lt in E; lia|done]).
Qed.

(** ** The sorter as a stable sort *)

Lemma StronglySorted_lookup {A} (R : A -> A -> Prop) l :
  StronglySorted R l ->
  forall i j a b, (i < j)%nat -> l !! i = Some a -> l !! j = Some b -> R a b.
Proof.
  induction 1 as [|x l Hl IH Hx]; intros i j a b Hij Ha Hb; [done|].
  destruct j as [|j]; [lia|]. simpl in Hb.
  destruct i as [|i]; simpl in Ha.
  - injection Ha as <-. rewrite Forall_forall in Hx. apply Hx.
    by eapply list_elem_of_lookup_2.
  - apply (IH i j); [lia|done..].
Qed.

(** X1.  [sortViews] returns the keys it was given, each as often as it
    was given, in an order in which no key comes before a key of a
    smaller priority. *)
Theorem sortViews_orders_by_priority views :
  sortViews views ≡ₚ views
  /\ forall i j a b,
       (i < j)%nat ->
       sortViews views !! i = Some a -> sortViews views !! j = Some b ->
       (getViewPriority a <= getViewPriority b)%Z.
Proof.
  split; [apply sortViews_perm|].
  apply (StronglySorted_lookup
           (fun a b => (getViewPriority a <= getViewPriority b)%Z)).
  apply sortViews_sorted.
Qed.

(** X2.  [sortViews] is stable: the keys of one priority stand in the
    result in the order in which they were given. *)
Theorem sortViews_keeps_declaration_order p views :
  ofPriority p (sortViews views) = ofPriority p views.
Proof. apply sortViews_stable. Qed.

(** ** The controller, phase by phase *)

Lemma truthy_default o : truthy o = false -> default "" o = "".
Proof.
  destruct o as [x|]; simpl; [|done].
  destruct (String.eqb_spec x ""); [done|discriminate].
Qed.

Section ControllerFacts.
Variable views : option Views.
Variable componentToString : CRef -> option string.
Variable resolveURL : string -> Location -> string * string * string.
Variable parseSearch : string -> list (string * string).
Variable fromBeforeLoadHook : State -> bool.
Variable fromDuringLoadHook : State -> bool.

(** What the commit leaves alone. *)
Lemma commit_keeps path options ps s :
  let s' := commit resolveURL parseSearch path options ps s in
  componentTree s' = componentTree s /\ cycle s' = cycle s
  /\ phase s' = phase s /\ navigationIndex s' = navigationIndex s
  /\ pendingNavigationIndex s' = pendingNavigationIndex s
  /\ mountedComponents s' = mountedComponents s
  /\ firstBoot s' = firstBoot s /\ isRendering s' = isRendering s
  /\ base_name s' = base_name s.
Proof.
  unfold commit, syncSearchParams.
  destruct path as [p|]; [destruct (negb (String.eqb p ""))|];
    repeat case_bool_decide; destruct (opt_scrollToTop options);
    simpl; tauto.
Qed.

(** What the commit writes. *)
Lemma commit_writes path options ps s :
  let s' := commit resolveURL parseSearch path options ps s in
  params s' = ps
  /\ location s' = br_location (browser s')
  /\ searchParams s' = parseSearch (loc_search (br_location (browser s'))).
Proof.
  unfold commit, syncSearchParams.
  destruct path as [p|]; [destruct (negb (String.eqb p ""))|];
    repeat case_bool_decide; destruct (opt_scrollToTop options);
    simpl; auto.
Qed.

(** The calls of the commit on the browser: the history entry, then the
    scroll. *)
Lemma commit_calls path options ps s :
  br_calls (browser (commit resolveURL parseSearch path options ps s))
  = (scrollCalls options ++ historyCalls (base_name s) path options
       ++ br_calls (browser s))%list.
Proof.
  unfold commit, syncSearchParams, scrollCalls, historyCalls, historyWrite.
  destruct path as [p|]; simpl.
  - destruct (negb (String.eqb p "")) eqn:Hp; simpl.
    + assert (Hto :
        (if truthy (opt_hash options)
         then (if truthy (opt_search options)
               then p +:+ default "" (opt_search options) else p)
              +:+ default "" (opt_hash options)
         else if truthy (opt_search options)
              then p +:+ default "" (opt_search options) else p)
        = p +:+ default "" (opt_search options)
            +:+ default "" (opt_hash options)).
      { destruct (truthy (opt_search options)) eqn:Hs,
                 (truthy (opt_hash options)) eqn:Hh;
          rewrite ?(truthy_default _ Hs), ?(truthy_default _ Hh),
                  ?append_nil_r, ?append_assoc; reflexivity. }
      rewrite Hto.
      destruct (resolveURL _ _) as [[pn se] ha].
      repeat case_bool_decide; destruct (opt_scrollToTop options);
        destruct (default false (opt_replace options)); reflexivity.
    + repeat case_bool_decide; destruct (opt_scrollToTop options);
        reflexivity.
  - repeat case_bool_decide; destruct (opt_scrollToTop options);
      reflexivity.
Qed.

Lemma entered_fields path s :
  componentTree (entered path s) = componentTree s
  /\ cycle (entered path s) = cycle s
  /\ isRendering (entered path s) = isRendering s
  /\ navigationIndex (entered path s) = (navigationIndex s + 1)%Z
  /\ pendingNavigationIndex (entered path s) = pendingNavigationIndex s
  /\ mountedComponents (entered path s) = mountedComponents s
  /\ base_name (entered path s) = base_name s
  /\ browser (entered path s) = browser s
  /\ phase (entered path s) = phase s.
Proof.
  unfold entered, takeTicket, clearFirstBoot.
  destruct (hmrGuard path s); simpl; tauto.
Qed.

(** [onNavigate] once the guards are passed in a stable cycle. *)
Lemma onNavigate_past_guards table path options s r :
  views = Some table -> table <> [] -> isRendering s = false ->
  hmrGuard path s && negb (firstBoot s) = false ->
  cycle s = Ca \/ cycle s = Cb ->
  matchView (matchPathOf path (entered path s)) table = Ok r ->
  onNavigate views componentToString resolveURL parseSearch
             fromBeforeLoadHook fromDuringLoadHook path options s
  = let bypass := default false (opt_bypass options) in
    let finish (s : State) :=
      let s := commit resolveURL parseSearch path options (mr_params r) s in
      let s := if negb bypass then renderPhases componentToString r s
               else s in
      Returned (cleanMountedComponents (set_phase PhIdle s)) in
    if negb bypass then
      match loadPhases componentToString fromBeforeLoadHook
                       fromDuringLoadHook r (cycle s)
                       (nextCycleOf (cycle s))
                       (navigationIndex (entered path s)) (entered path s)
      with
      | Loaded s => finish s
      | e => Returned (loadEndState e)
      end
    else finish (entered path s).
Proof.
  intros -> Htable Hrender Hguard Hcycle Hmatch.
  destruct (entered_fields path s) as (_ & Hc0 & Hr0 & _).
  unfold onNavigate. rewrite Hguard.
  destruct table as [|entry table]; [done|].
  cbv beta iota zeta.
  assert (Hr1 : isRendering (clearFirstBoot path s) = false).
  { rewrite <- Hrender. unfold clearFirstBoot.
    by destruct (hmrGuard path s). }
  assert (Hc1 : cycle (clearFirstBoot path s) = cycle s).
  { unfold clearFirstBoot. by destruct (hmrGuard path s). }
  rewrite Hr1, Hc1.
  change (takeTicket (clearFirstBoot path s)) with (entered path s).
  unfold nextCycleOf.
  destruct Hcycle as [Hc | Hc]; rewrite Hc in *; cbv beta iota zeta;
    rewrite Hmatch; reflexivity.
Qed.

(** X9.  [onNavigate] before [createView] has set the table, or with an
    empty table: unless the call is the one that hot module replacement
    triggers (no path, location unchanged, not the first boot), which
    returns at once, it throws 'SVW is empty' whatever the path, the
    options and the cycle are; nothing but [firstBoot] is written. *)
Theorem onNavigate_without_views_throws path options s :
  noViews views = true ->
  if hmrGuard path s && negb (firstBoot s)
  then onNavigate views componentToString resolveURL parseSearch
                  fromBeforeLoadHook fromDuringLoadHook path options s
       = Returned s
  else exists s',
         onNavigate views componentToString resolveURL parseSearch
                    fromBeforeLoadHook fromDuringLoadHook path options s
         = Threw EmptyViews s'
         /\ sameButFirstBoot s s'.
Proof.
  intros Hviews. unfold onNavigate.
  destruct (hmrGuard path s && negb (firstBoot s)); [done|].
  exists (clearFirstBoot path s). split; [|apply clearFirstBoot_same].
  destruct views as [[|entry table]|]; done.
Qed.

(** X10.  A bypass navigation in a stable cycle runs no hook and no
    reconciliation: it returns with [componentTree] and [cycle] as they
    were and [phase] idle, takes one ticket, sets [params] to those of
    the match, and calls the browser for the history entry and the scroll
    only, the observed location being read back from the browser. *)
Theorem onNavigate_bypass_keeps_tree table path options s r :
  views = Some table -> table <> [] -> isRendering s = false ->
  hmrGuard path s && negb (firstBoot s) = false ->
  cycle s = Ca \/ cycle s = Cb ->
  opt_bypass options = Some true ->
  matchView (matchPathOf path (entered path s)) table = Ok r ->
  exists s',
    onNavigate views componentToString resolveURL parseSearch
               fromBeforeLoadHook fromDuringLoadHook path options s
    = Returned s'
    /\ componentTree s' = componentTree s /\ cycle s' = cycle s
    /\ phase s' = PhIdle /\ params s' = mr_params r
    /\ navigationIndex s' = (navigationIndex s + 1)%Z
    /\ pendingNavigationIndex s' = pendingNavigationIndex s
    /\ location s' = br_location (browser s')
    /\ br_calls (browser s')
       = (scrollCalls options ++ historyCalls (base_name s) path options
            ++ br_calls (browser s))%list.
Proof.
  intros Hviews Htable Hrender Hguard Hcycle Hbypass Hmatch.
  rewrite (onNavigate_past_guards table path options s r) by done.
  rewrite Hbypass. cbv beta iota zeta. simpl negb. cbv iota.
  eexists. split; [reflexivity|].
  destruct (entered_fields path s)
    as (Ht & Hc & _ & Hn & Hp & _ & Hb & Hbr & _).
  destruct (commit_keeps path options (mr_params r) (entered path s))
    as (Kt & Kc & _ & Kn & Kp & _).
  destruct (commit_writes path options (mr_params r) (entered path s))
    as (Wp & Wl & _).
  pose proof (commit_calls path options (mr_params r) (entered path s))
    as Hcalls.
  simpl. rewrite Hb, Hbr in Hcalls.
  repeat split; congruence.
Qed.

(** The render phases without hooks: the cycle turns stable. *)
Lemma renderPhases_no_hooks r s :
  mr_hooks r = [] ->
  renderPhases componentToString r s
  = set_phase PhAfterRender
      (set_cycle (match cycle s with Cba => Cb | _ => Ca end)
         (set_phase PhDuringRender s)).
Proof. intros Hh. unfold renderPhases. by rewrite Hh. Qed.

(** X11.  A navigation in a stable cycle whose match carries no hooks,
    started outside of any hook, runs to its end: it returns with [cycle]
    turned to the other stable value, [componentTree] the tree that
    [calculateTree] makes of the previous one and of the layouts and view
    of the match, [phase] idle, [params] those of the match and one
    ticket taken, having called the browser for the history entry and
    the scroll only. *)
Theorem onNavigate_completes_without_hooks table path options s r :
  views = Some table -> table <> [] -> isRendering s = false ->
  hmrGuard path s && negb (firstBoot s) = false ->
  cycle s = Ca \/ cycle s = Cb ->
  default false (opt_bypass options) = false ->
  matchView (matchPathOf path (entered path s)) table = Ok r ->
  mr_hooks r = [] ->
  (forall s0, fromBeforeLoadHook s0 = false) ->
  (forall s0, fromDuringLoadHook s0 = false) ->
  exists s',
    onNavigate views componentToString resolveURL parseSearch
               fromBeforeLoadHook fromDuringLoadHook path options s
    = Returned s'
    /\ cycle s' = flipped (cycle s)
    /\ componentTree s'
       = (calculateTree (componentTree s) (resolvedChain r)
                        (nextCycleOf (cycle s)) (mr_params r)
                        (mountedComponents s)).1
    /\ phase s' = PhIdle /\ params s' = mr_params r
    /\ navigationIndex s' = (navigationIndex s + 1)%Z
    /\ location s' = br_location (browser s')
    /\ br_calls (browser s')
       = (scrollCalls options ++ historyCalls (base_name s) path options
            ++ br_calls (browser s))%list.
Proof.
  intros Hviews Htable Hrender Hguard Hcycle Hbypass Hmatch Hhooks HfB HfD.
  rewrite (onNavigate_past_guards table path options s r) by done.
  rewrite Hbypass. cbv beta iota zeta. simpl negb. cbv iota.
  destruct (entered_fields path s)
    as (Ht & Hc & _ & Hn & Hp & Hm & Hb & Hbr & _).
  unfold loadPhases. rewrite Hhooks. cbn [runBeforeLoad].
  rewrite HfB. cbn [andb orb].
  replace (navigationIndex (set_phase PhBeforeLoad (entered path s))
           =? navigationIndex (entered path s))%Z with true
    by (symmetry; apply Z.eqb_refl).
  cbn [negb orb].
  change (componentTree (set_phase PhBeforeLoad (entered path s)))
    with (componentTree (entered path s)).
  change (mountedComponents (set_phase PhBeforeLoad (entered path s)))
    with (mountedComponents (entered path s)).
  rewrite Ht, Hm. fold (resolvedChain r).
  destruct (calculateTree _ _ _ _ _) as [t mounted] eqn:Hcalc.
  cbn [runDuringLoad]. rewrite HfD. cbn [andb orb].
  match goal with
  | |- context [negb (?a =? ?b)%Z] =>
      replace (a =? b)%Z with true by (symmetry; apply Z.eqb_refl)
  end.
  cbn [negb orb]. rewrite renderPhases_no_hooks by done.
  eexists. split; [reflexivity|].
  set (s1 := set_phase PhDuringLoad _).
  destruct (commit_keeps path options (mr_params r) s1)
    as (Kt & Kc & _ & Kn & _).
  destruct (commit_writes path options (mr_params r) s1) as (Wp & Wl & _).
  pose proof (commit_calls path options (mr_params r) s1) as Hcalls.
  simpl in *. rewrite Hb, Hbr in Hcalls.
  repeat split; try congruence.
  rewrite Kc. unfold nextCycleOf, flipped.
  by destruct Hcycle as [-> | ->].
Qed.

(** X12.  A [beforeLoad] hook that starts another navigation redirects:
    when the ticket counter has moved by the time the [beforeLoad] hooks
    are through, whether the last one settled or threw, the navigation
    that ran them returns at once with [phase] idle and everything else
    as the hooks left it: no reconciliation, no history entry and no
    later hook of its own. *)
Theorem onNavigate_redirected_by_beforeLoad table path options s r :
  views = Some table -> table <> [] -> isRendering s = false ->
  hmrGuard path s && negb (firstBoot s) = false ->
  cycle s = Ca \/ cycle s = Cb ->
  default false (opt_bypass options) = false ->
  matchView (matchPathOf path (entered path s)) table = Ok r ->
  let s1 :=
    (runBeforeLoad (mr_hooks r)
       {| bl_match := asViewRef <$> mr_match r; bl_params := mr_params r |}
       (navigationIndex (entered path s))
       (set_phase PhBeforeLoad (entered path s))).2 in
  navigationIndex s1 <> navigationIndex (entered path s) ->
  onNavigate views componentToString resolveURL parseSearch
             fromBeforeLoadHook fromDuringLoadHook path options s
  = Returned (set_phase PhIdle s1).
Proof.
  intros Hviews Htable Hrender Hguard Hcycle Hbypass Hmatch s1 Hstale.
  rewrite (onNavigate_past_guards table path options s r) by done.
  rewrite Hbypass. cbv beta iota zeta. simpl negb. cbv iota.
  unfold loadPhases. subst s1.
  destruct (runBeforeLoad _ _ _ _) as [[|] s1]; cbn [snd] in Hstale.
  - apply Z.eqb_neq in Hstale. rewrite Hstale. reflexivity.
  - reflexivity.
Qed.
End ControllerFacts.

Lemma onNavigate_without_views_throws_witness :
  exists s',
    onNavigate None noFilePath plainURL noSearch notFromHook notFromHook
               (Some "/about") noOptions midTransition
    = Threw EmptyViews s'
    /\ sameButFirstBoot midTransition s'.
Proof.
  exact (onNavigate_without_views_throws None noFilePath plainURL noSearch
           notFromHook notFromHook (Some "/about") noOptions midTransition
           eq_refl).
Defined.


Lemma onNavigate_bypass_keeps_tree_witness :
  exists s',
    onNavigate (Some (guardedTable noHooks)) noFilePath plainURL noSearch
               notFromHook notFromHook (Some "/about") bypassOptions
               bootState
    = Returned s'
    /\ componentTree s' = initialTree /\ cycle s' = Ca
    /\ phase s' = PhIdle /\ params s' = []
    /\ navigationIndex s' = 1%Z
    /\ pendingNavigationIndex s' = 0%Z
    /\ location s' = br_location (browser s')
    /\ br_calls (browser s')
       = [ScrollTo None; PushState HsEmptyObject "/about"].
Proof.
  apply (onNavigate_bypass_keeps_tree
           (Some (guardedTable noHooks)) noFilePath plainURL noSearch
           notFromHook notFromHook (guardedTable noHooks) (Some "/about")
           bypassOptions bootState
           {| mr_match := Some (view "About"); mr_layouts := [];
              mr_hooks := [VHooks noHooks]; mr_params := [];
              mr_breakFromLayouts := false |}).
  - reflexivity.
  - discriminate.
  - reflexivity.
  - reflexivity.
  - left. reflexivity.
  - reflexivity.
  - vm_compute. reflexivity.
Defined.

Lemma onNavigate_completes_without_hooks_witness :
  exists s',
    onNavigate (Some pagesTable) noFilePath plainURL noSearch
               notFromHook notFromHook (Some "/users/a") noOptions bootState
    = Returned s'
    /\ cycle s' = Cb
    /\ componentTree s' = run1
    /\ phase s' = PhIdle /\ params s' = []
    /\ navigationIndex s' = 1%Z
    /\ location s' = br_location (browser s')
    /\ br_calls (browser s')
       = [ScrollTo None; PushState HsEmptyObject "/users/a"].
Proof.
  apply (onNavigate_completes_without_hooks
           (Some pagesTable) noFilePath plainURL noSearch
           notFromHook notFromHook pagesTable (Some "/users/a")
           noOptions bootState
           {| mr_match := Some (view "Page1");
              mr_layouts := [view "Layout"];
              mr_hooks := []; mr_params := [];
              mr_breakFromLayouts := false |}).
  - reflexivity.
  - discriminate.
  - reflexivity.
  - reflexivity.
  - left. reflexivity.
  - reflexivity.
  - vm_compute. reflexivity.
  - reflexivity.
  - reflexivity.
  - reflexivity.
Defined.

Lemma onNavigate_redirected_by_beforeLoad_witness :
  onNavigate (Some (guardedTable redirectsHome)) noFilePath plainURL
             noSearch notFromHook notFromHook (Some "/about") noOptions
             bootState
  = Returned
      (set_phase PhIdle
         (runBeforeLoad [VHooks redirectsHome]
            {| bl_match := Some (RefView (Full "About")); bl_params := [] |}
            (navigationIndex (entered (Some "/about") bootState))
            (set_phase PhBeforeLoad (entered (Some "/about") bootState))).2).
Proof.
  apply (onNavigate_redirected_by_beforeLoad
           (Some (guardedTable redirectsHome)) noFilePath plainURL noSearch
           notFromHook notFromHook (guardedTable redirectsHome)
           (Some "/about") noOptions bootState
           {| mr_match := Some (view "About"); mr_layouts := [];
              mr_hooks := [VHooks redirectsHome]; mr_params := [];
              mr_breakFromLayouts := false |}).
  - reflexivity.
  - discriminate.
  - reflexivity.
  - reflexivity.
  - left. reflexivity.
  - reflexivity.
  - generalize redirectsHome. intros h. vm_compute. reflexivity.
  - vm_compute. discriminate.
Defined.

Section ControllerEnds.
Variable views : option Views.
Variable componentToString : CRef -> option string.
Variable resolveURL : string -> Location -> string * string * string.
Variable parseSearch : string -> list (string * string).
Variable fromBeforeLoadHook : State -> bool.
Variable fromDuringLoadHook : State -> bool.

(** X26.  Every way in which a navigation in a stable cycle whose path
    is matched comes to an end leaves [phase] idle, and no error of a
    hook escapes it: at the [catch] of a [beforeLoad] or [duringLoad]
    hook that throws, at either staleness test, and at the end, where
    what the [duringRender] and [afterRender] hooks throw is caught.
    This is said of hooks that settle or throw and of lazy imports that
    resolve: a hook or an import whose promise never settles leaves the
    navigation waiting at its [await], in the phase it had reached. *)
Theorem onNavigate_ends_idle table path options s r :
  views = Some table -> table <> [] -> isRendering s = false ->
  hmrGuard path s && negb (firstBoot s) = false ->
  cycle s = Ca \/ cycle s = Cb ->
  matchView (matchPathOf path (entered path s)) table = Ok r ->
  exists s',
    onNavigate views componentToString resolveURL parseSearch
               fromBeforeLoadHook fromDuringLoadHook path options s
    = Returned s'
    /\ phase s' = PhIdle.
Proof.
  intros Hviews Htable Hrender Hguard Hcycle Hmatch.
  rewrite (onNavigate_past_guards views componentToString resolveURL
             parseSearch fromBeforeLoadHook fromDuringLoadHook
             table path options s r) by done.
  cbv zeta.
  destruct (negb (default false (opt_bypass options))).
  - unfold loadPhases.
    destruct (runBeforeLoad _ _ _ _) as [[|] s1];
      [|eexists; split; reflexivity].
    destruct (_ || _); [eexists; split; reflexivity|].
    destruct (calculateTree _ _ _ _ _) as [t mounted].
    destruct (runDuringLoad _ _ _) as [[|] s2];
      [|eexists; split; reflexivity].
    destruct (_ || _); eexists; split; reflexivity.
  - eexists; split; reflexivity.
Qed.
End ControllerEnds.

Lemma onNavigate_ends_idle_witness :
  exists s',
    onNavigate (Some (guardedTable beforeLoadThrows)) noFilePath plainURL
               noSearch notFromHook notFromHook (Some "/about") noOptions
               bootState
    = Returned s'
    /\ phase s' = PhIdle.
Proof.
  apply (onNavigate_ends_idle
           (Some (guardedTable beforeLoadThrows)) noFilePath plainURL
           noSearch notFromHook notFromHook (guardedTable beforeLoadThrows)
           (Some "/about") noOptions bootState
           {| mr_match := Some (view "About"); mr_layouts := [];
              mr_hooks := [VHooks beforeLoadThrows]; mr_params := [];
              mr_breakFromLayouts := false |}).
  - reflexivity.
  - discriminate.
  - reflexivity.
  - reflexivity.
  - left. reflexivity.
  - generalize beforeLoadThrows. intros h. vm_compute. reflexivity.
Defined.

(** ** [join] and double slashes *)

Lemma string_snoc (s : string) :
  s <> "" -> exists r c, s = r +:+ String c "".
Proof.
  induction s as [|a s IH]; [done|]. intros _.
  destruct s as [|b s'].
  - by exists "", a.
  - destruct IH as (r & c & Hr); [done|].
    exists (String a r), c. by rewrite append_cons, <- Hr.
Qed.

Lemma lastChar_snoc r c : lastChar (r +:+ String c "") = Some c.
Proof. by rewrite lastChar_app. Qed.

Lemma slice_init r c : Js.slice (r +:+ String c "") 0 (Some (-1)%Z) = r.
Proof.
  unfold Js.slice. rewrite length_append.
  change (String.length (String c "")) with 1%nat.
  assert (H0 : (0 <? 0)%Z = false) by done.
  assert (H1 : (-1 <? 0)%Z = true) by done.
  rewrite H0, H1.
  replace (Z.to_nat (Z.min 0 _)) with 0%nat by lia.
  replace (Z.to_nat (Z.max _ 0)) with (String.length r) by lia.
  apply substring_0_app.
Qed.

Lemma includes_cons c s p :
  Js.includes (String c s) p
  = Js.startsWith (String c s) p || Js.includes s p.
Proof.
  unfold Js.includes. rewrite indexOf_unfold.
  destruct (Js.startsWith (String c s) p); [done|].
  by destruct (Js.indexOf s p).
Qed.

Lemma includes_nil p : Js.includes "" p = Js.startsWith "" p.
Proof.
  unfold Js.includes. rewrite indexOf_unfold.
  by destruct (Js.startsWith "" p).
Qed.

Lemma startsWith_cons a p b s :
  Js.startsWith (String b s) (String a p) = Ascii.eqb a b && Js.startsWith s p.
Proof. reflexivity. Qed.

Lemma startsWith_nil_r s : Js.startsWith s "" = true.
Proof. by destruct s. Qed.

Lemma startsWith_slash s :
  Js.startsWith s "/"
  = match s with String c _ => Ascii.eqb "/" c | EmptyString => false end.
Proof.
  destruct s as [|c s]; [done|].
  by rewrite startsWith_cons, startsWith_nil_r, andb_true_r.
Qed.

Lemma lastChar_single c : lastChar (String c "") = Some c.
Proof. reflexivity. Qed.

Lemma lastChar_cons c d s : lastChar (String c (String d s)) = lastChar (String d s).
Proof. reflexivity. Qed.

(** No double slash in either string and none at the seam. *)
Lemma noDouble_app (a b : string) :
  Js.includes a "//" = false -> Js.includes b "//" = false ->
  Js.endsWith a "/" = false \/ Js.startsWith b "/" = false ->
  Js.includes (a +:+ b) "//" = false.
Proof.
  induction a as [|c a IH]; intros Ha Hb Hseam.
  - by rewrite append_nil_l.
  - rewrite append_cons, includes_cons.
    rewrite includes_cons in Ha. apply orb_false_iff in Ha as [Hc Ha].
    destruct a as [|d a'].
    + rewrite append_nil_l, Hb, orb_false_r.
      change "//" with (String "/" "/"). rewrite startsWith_cons.
      destruct (Ascii.eqb "/" c) eqn:Hcs; [|done]. rewrite andb_true_l.
      destruct Hseam as [Hs|Hs]; [|done].
      rewrite endsWith_slash, lastChar_single, Ascii.eqb_sym in Hs.
      congruence.
    + apply orb_false_iff. split.
      * rewrite append_cons.
        change "//" with (String "/" (String "/" "")) in Hc |- *.
        rewrite !startsWith_cons, !startsWith_nil_r in Hc |- *. exact Hc.
      * apply IH; [done..|].
        destruct Hseam as [Hs|Hs]; [left|by right].
        rewrite endsWith_slash in Hs |- *.
        by rewrite lastChar_cons in Hs.
Qed.

Lemma noDouble_prefix (a b : string) :
  Js.includes (a +:+ b) "//" = false -> Js.includes a "//" = false.
Proof.
  induction a as [|c a IH]; intros H; [done|].
  rewrite append_cons, includes_cons in H.
  apply orb_false_iff in H as [Hc H].
  rewrite includes_cons. apply orb_false_iff. split; [|by apply IH].
  change "//" with (String "/" (String "/" "")) in Hc |- *.
  destruct a as [|d a'].
  - by rewrite !startsWith_cons, andb_false_r.
  - rewrite append_cons in Hc.
    rewrite !startsWith_cons, !startsWith_nil_r in Hc |- *. exact Hc.
Qed.

Lemma includes_suffix (a b p : string) :
  Js.includes b p = true -> Js.includes (a +:+ b) p = true.
Proof.
  intros H. induction a as [|c a IH]; [by rewrite append_nil_l|].
  rewrite append_cons, includes_cons, IH. apply orb_true_r.
Qed.

Lemma startsWith_slash_app (r t : string) :
  r <> "" -> Js.startsWith (r +:+ t) "/" = Js.startsWith r "/".
Proof.
  destruct r as [|c r]; [done|]. intros _.
  by rewrite append_cons, !startsWith_slash.
Qed.

(** The part without its trailing slash. *)
Lemma stripped_spec part :
  part <> "" -> Js.includes part "//" = false ->
  let q := if Js.endsWith part "/" then Js.slice part 0 (Some (-1)%Z)
           else part in
  Js.includes q "//" = false
  /\ Js.endsWith q "/" = false
  /\ (q = "" /\ part = "/"
      \/ q <> "" /\ Js.startsWith q "/" = Js.startsWith part "/").
Proof.
  intros Hne Hnd.
  destruct (string_snoc part Hne) as (r & c & ->).
  rewrite endsWith_slash, lastChar_snoc.
  destruct (Ascii.eqb_spec c "/") as [->|Hc]; cbv zeta.
  - rewrite slice_init. split; [by eapply noDouble_prefix|].
    assert (Hr : Js.endsWith r "/" = false).
    { destruct (Js.endsWith r "/") eqn:He; [|done]. exfalso.
      rewrite endsWith_slash in He.
      destruct (decide (r = "")) as [->|Hr]; [done|].
      destruct (string_snoc r Hr) as (r' & d & ->).
      rewrite lastChar_snoc in He. apply Ascii.eqb_eq in He. subst d.
      rewrite append_assoc in Hnd.
      rewrite (includes_suffix r' ("/" +:+ "/") "//") in Hnd; done. }
    split; [done|].
    destruct (decide (r = "")) as [->|Hr']; [by left|right].
    split; [done|]. by rewrite startsWith_slash_app.
  - split; [done|]. split.
    + rewrite endsWith_slash, lastChar_snoc.
      by destruct (Ascii.eqb_spec c "/").
    + right. split; [|done]. destruct r; by rewrite ?append_cons.
Qed.

(** The piece of a part that is not empty and holds no double slash: it
    holds none either, does not end with a slash, and is empty or begins
    with a slash. *)
Lemma joinPiece_spec part :
  part <> "" -> Js.includes part "//" = false ->
  Js.includes (joinPiece part) "//" = false
  /\ Js.endsWith (joinPiece part) "/" = false
  /\ (joinPiece part = "" \/ Js.startsWith (joinPiece part) "/" = true).
Proof.
  intros Hne Hnd. unfold joinPiece.
  destruct (stripped_spec part Hne Hnd) as (H1 & H2 & H3).
  cbv zeta in H1, H2, H3.
  set (q := if Js.endsWith part "/" then _ else part) in *.
  destruct (Js.startsWith part "/") eqn:Hs; simpl negb; cbv iota.
  - rewrite append_nil_l. split; [done|]. split; [done|].
    destruct H3 as [[-> _]|[_ ->]]; [by left|by right].
  - change ("/" +:+ q) with (String "/" q).
    destruct H3 as [[_ ->]|[Hq H3]]; [done|].
    split; [|split; [|by right]].
    + rewrite includes_cons, H1, orb_false_r.
      change "//" with (String "/" "/").
      by rewrite startsWith_cons, H3, andb_false_r.
    + rewrite endsWith_slash in H2 |- *.
      destruct q as [|e q']; [done|]. by rewrite lastChar_cons.
Qed.

Lemma join_pieces parts : forall acc,
  foldl (fun result part =>
           let result :=
             if negb (Js.startsWith part "/") then result +:+ "/"
             else result in
           let part :=
             if Js.endsWith part "/" then Js.slice part 0 (Some (-1)%Z)
             else part in
           result +:+ part)
        acc parts
  = acc +:+ foldr (fun part rest => joinPiece part +:+ rest) "" parts.
Proof.
  induction parts as [|p parts IH]; intros acc; cbn [foldl foldr].
  - by rewrite append_nil_r.
  - rewrite IH. cbv zeta. unfold joinPiece.
    destruct (negb (Js.startsWith p "/"));
      by rewrite ?append_nil_l, ?append_assoc.
Qed.

Lemma join_unfold parts :
  join parts = foldr (fun part rest => joinPiece part +:+ rest) "" parts.
Proof. unfold join. by rewrite join_pieces, append_nil_l. Qed.

Lemma endsWith_slash_app (a b : string) :
  Js.endsWith a "/" = false -> Js.endsWith b "/" = false ->
  Js.endsWith (a +:+ b) "/" = false.
Proof.
  intros Ha Hb. destruct (decide (b = "")) as [->|Hne].
  - by rewrite append_nil_r.
  - rewrite endsWith_slash in Hb |- *. by rewrite lastChar_app.
Qed.

(** X13.  [join] of parts none of which is empty or holds a double
    slash: the result holds no double slash and does not end with a
    slash, and it is empty (every part was ['/']) or begins with a
    slash. *)
Theorem join_no_double_slash parts :
  Forall (fun part => part <> "" /\ Js.includes part "//" = false) parts ->
  Js.includes (join parts) "//" = false
  /\ Js.endsWith (join parts) "/" = false
  /\ (join parts = "" \/ Js.startsWith (join parts) "/" = true).
Proof.
  rewrite join_unfold.
  induction 1 as [|p parts [Hne Hnd] _ (IH1 & IH2 & IH3)]; cbn [foldr].
  - split; [done|]. split; [done|]. by left.
  - destruct (joinPiece_spec p Hne Hnd) as (P1 & P2 & P3).
    split; [by apply noDouble_app; auto|].
    split; [by apply endsWith_slash_app|].
    destruct P3 as [->|P3].
    + by rewrite append_nil_l.
    + right. rewrite startsWith_slash_app; [done|].
      intros Heq. by rewrite Heq in P3.
Qed.

Lemma join_no_double_slash_witness :
  Js.includes (join ["app/"; "/users/"; "42"]) "//" = false
  /\ Js.endsWith (join ["app/"; "/users/"; "42"]) "/" = false
  /\ (join ["app/"; "/users/"; "42"] = ""
      \/ Js.startsWith (join ["app/"; "/users/"; "42"]) "/" = true).
Proof.
  apply (join_no_double_slash ["app/"; "/users/"; "42"]).
  repeat constructor; done.
Defined.

(** ** The base path, written and read back *)

Lemma slice_from_app (a x : string) :
  Js.slice (a +:+ x) (Z.of_nat (String.length a)) None = x.
Proof.
  unfold Js.slice. rewrite length_append.
  assert (H0 : (Z.of_nat (String.length a) <? 0)%Z = false)
    by (apply Z.ltb_ge; lia).
  rewrite H0.
  replace (Z.to_nat (Z.min _ _)) with (String.length a + 0)%nat by lia.
  replace (Z.to_nat (Z.max _ 0)) with (String.length x) by lia.
  rewrite substring_skip_app. apply substring_0_full.
Qed.

Lemma joinPiece_plain part :
  Js.startsWith part "/" = true -> Js.endsWith part "/" = false ->
  joinPiece part = part.
Proof.
  intros Hs He. unfold joinPiece. rewrite Hs, He. apply append_nil_l.
Qed.

(** X14.  The base path, written and read back: with a base path that
    begins with a slash and does not end with one, the pathname that
    [join(base, path)] gives for a path beginning with a slash (and not
    ending with one, the root apart) is the base path followed by the
    path (by nothing for the root), and [onNavigate] called without a
    path on that location, as on [popstate], matches against the path
    again. *)
Theorem base_path_round_trip b p s :
  b <> "" -> Js.startsWith b "/" = true -> Js.endsWith b "/" = false ->
  Js.startsWith p "/" = true -> p = "/" \/ Js.endsWith p "/" = false ->
  base_name s = Some b ->
  loc_pathname (br_location (browser s)) = join [b; p] ->
  join [b; p] = b +:+ (if String.eqb p "/" then "" else p)
  /\ matchPathOf None s = p.
Proof.
  intros Hb Hbs Hbe Hps Hpe Hbase Hloc.
  assert (Hjoin : join [b; p] = b +:+ (if String.eqb p "/" then "" else p)).
  { rewrite join_unfold. cbn [foldr]. rewrite append_nil_r.
    rewrite (joinPiece_plain b) by done. f_equal.
    destruct (String.eqb_spec p "/") as [->|Hne]; [done|].
    destruct Hpe as [?|Hpe]; [done|]. by apply joinPiece_plain. }
  split; [exact Hjoin|].
  unfold matchPathOf. rewrite Hloc, Hbase, Hjoin.
  cbn [truthy default andb]. 
  destruct (String.eqb_spec b "") as [?|_]; [done|]. cbn [negb andb].
  rewrite startsWith_self_app, slice_from_app.
  destruct (String.eqb_spec p "/") as [->|Hne]; [done|].
  destruct (String.eqb_spec p "") as [->|_]; done.
Qed.

Lemma base_path_round_trip_witness :
  let s :=
    set_browser
      {| br_location :=
           {| loc_pathname := "/app/users/42"; loc_search := "";
              loc_state := HsNull; loc_hash := "" |};
         br_calls := [] |}
      {| componentTree := initialTree; cycle := Ca; params := [];
         phase := PhIdle; location := bootLocation; isRendering := false;
         navigationIndex := 0; pendingNavigationIndex := 0;
         base_name := Some "/app"; mountedComponents := ∅;
         firstBoot := true; searchParams := [];
         browser := {| br_location := bootLocation; br_calls := [] |} |} in
  join ["/app"; "/users/42"] = "/app/users/42"
  /\ matchPathOf None s = "/users/42".
Proof.
  apply (base_path_round_trip "/app" "/users/42"); try done.
  by right.
Defined.

(** ** [constructPath] and [isActive] with params *)

Lemma replace_absent (s pat repl : string) :
  Js.includes s pat = false -> Js.replace s pat repl = s.
Proof.
  unfold Js.includes, Js.replace. by destruct (Js.indexOf s pat).
Qed.

Lemma includes_longer (s c : string) k :
  Js.includes s c = false -> Js.includes s (c +:+ k) = false.
Proof.
  assert (Hsw : forall t, Js.startsWith t c = false ->
                          Js.startsWith t (c +:+ k) = false).
  { induction c as [|a c IH]; intros t Ht.
    - by destruct t.
    - rewrite append_cons. destruct t as [|b t]; [done|].
      rewrite startsWith_cons in Ht |- *.
      destruct (Ascii.eqb a b); [|done]. apply IH. exact Ht. }
  induction s as [|a s IH]; intros H.
  - rewrite includes_nil in H |- *. by apply Hsw.
  - rewrite includes_cons in H |- *.
    apply orb_false_iff in H as [H1 H2].
    by rewrite Hsw, IH.
Qed.

(** X15.  [constructPath] returns the path as it is when no key of the
    params stands in it behind a colon: a placeholder the params do not
    name is left in the path, and a path without placeholder is not
    changed. *)
Theorem constructPath_without_placeholder path ps :
  Forall (fun kv => Js.includes path (":" +:+ kv.1) = false) ps ->
  constructPath path (Some ps) = path.
Proof.
  intros Hps. unfold constructPath.
  induction Hps as [|kv ps Hkv _ IH]; cbn [foldl]; [done|].
  by rewrite replace_absent.
Qed.

Lemma constructPath_without_placeholder_witness :
  constructPath "/users/:id" (Some [("name", "ada"); ("page", "2")])
  = "/users/:id".
Proof.
  apply (constructPath_without_placeholder "/users/:id"
           [("name", "ada"); ("page", "2")]).
  repeat constructor.
Defined.

Lemma constructPath_static path ps :
  Js.includes path ":" = false -> constructPath path ps = path.
Proof.
  intros H. destruct ps as [ps|]; [|done].
  unfold constructPath.
  induction ps as [|kv ps IH]; cbn [foldl]; [done|].
  rewrite replace_absent; [done|]. by apply includes_longer.
Qed.

(** X16.  [isActive] and [isActive.startsWith] called with params never
    throw and compare the current pathname with the path that
    [constructPath] makes of the pattern and the params: by equality for
    the first, as a prefix of the pathname for the second. *)
Theorem isActive_with_params location_pathname pattern ps :
  isActive location_pathname pattern (Some ps)
  = Ok (String.eqb location_pathname (constructPath pattern (Some ps)))
  /\ isActive_startsWith location_pathname pattern (Some ps)
     = Ok (Js.startsWith location_pathname
                         (constructPath pattern (Some ps))).
Proof.
  unfold isActive, isActive_startsWith, compare.
  destruct (Js.includes pattern ":") eqn:Hc; cbn [negb]; [done|].
  by rewrite constructPath_static.
Qed.

(** ** Tables of static keys *)

Lemma join_cons sep x y (l : list string) :
  Js.join sep (x :: y :: l) = x +:+ sep +:+ Js.join sep (y :: l).
Proof. reflexivity. Qed.

Lemma split_cons c s :
  Js.split "/" (String c s)
  = if Ascii.eqb c "/" then "" :: Js.split "/" s
    else match Js.split "/" s with
         | x :: xs => String c x :: xs
         | [] => [String c ""]
         end.
Proof. reflexivity. Qed.

Lemma join_split (s : string) : Js.join "/" (Js.split "/" s) = s.
Proof.
  induction s as [|c s IH]; [done|].
  rewrite split_cons.
  destruct (Js.split "/" s) as [|x xs] eqn:Hs;
    [by apply split_nonempty in Hs|].
  destruct (Ascii.eqb_spec c "/") as [->|Hc].
  - by rewrite join_cons, IH, append_nil_l.
  - destruct xs as [|y ys].
    + cbn [Js.join] in IH |- *. by rewrite IH.
    + rewrite join_cons in IH |- *. by rewrite append_cons, IH.
Qed.

Lemma split_slash_head (s : string) :
  Js.startsWith s "/" = true ->
  Js.split "/" s = "" :: drop 1 (Js.split "/" s)
  /\ drop 1 (Js.split "/" s) <> [].
Proof.
  rewrite startsWith_slash. destruct s as [|c s]; [done|].
  intros Hc. apply Ascii.eqb_eq in Hc. subst c.
  rewrite split_cons, Ascii.eqb_refl. split; [done|].
  cbn [drop]. rewrite drop_0. apply split_nonempty.
Qed.

Lemma literalPart_spec vp :
  literalPart vp = true ->
  isBoundary vp = false /\ isDynamicPart vp = false
  /\ isWildcardPart vp = false /\ stripBoundary vp = vp.
Proof.
  unfold literalPart, isDynamicPart, isWildcardPart, stripBoundary.
  intros H. split_andb H.
  destruct (isBoundary vp); [done|].
  by destruct (Js.startsWith vp ":"), (Js.startsWith vp "*").
Qed.

Lemma plainLiteral_literalPart s : plainLiteral s = true -> literalPart s = true.
Proof.
  unfold plainLiteral, literalPart. intros H. split_andb H.
  rewrite (startsWith_lacks ":" s) by done.
  by destruct (isBoundary s), (Js.startsWith s "*").
Qed.

Section StaticScan.
Variable views : list (string * (Value * (string -> Res MatchResult))).
Variable pathParts : list string.
Hypothesis no_layout : obj_get "layout" views = None.
Hypothesis no_hooks : obj_get "hooks" views = None.

Lemma pushes_nothing brk st :
  pushHooks views (if negb brk then pushLayout views st else st) = st.
Proof.
  unfold pushHooks, pushLayout. rewrite no_layout, no_hooks.
  by destruct brk.
Qed.

(** The scan of a key of literal segments that holds a view: the key is
    taken when its segments are those of the path, and left without a
    trace otherwise. *)
Lemma scanParts_literal viewParts v nested :
  obj_get ("/" +:+ Js.join "/" viewParts) views = Some (v, nested) ->
  isView v = true ->
  forall rest index,
    (index + length rest = length viewParts)%nat ->
    rest <> [] ->
    Forall (fun vp => literalPart vp = true) rest ->
    scanParts views pathParts viewParts index rest emptyResult
    = if decide (rest = drop index pathParts)
      then Ok (BreakOuter, with_match (Some v) emptyResult)
      else Ok (NextView, emptyResult).
Proof.
  intros Hget Hview.
  induction rest as [|vp rest IH]; intros index Hlen Hne Hlit; [done|].
  apply Forall_cons in Hlit as [Hvp Hlit].
  destruct (literalPart_spec vp Hvp) as (Hb & Hd & Hw & Hs).
  rewrite scanParts_cons, Hb, Hd, Hw, Hs. cbv zeta.
  change (with_break false emptyResult) with emptyResult.
  cbn [length] in Hlen.
  case_bool_decide as Hpart; cbn [negb].
  - destruct rest as [|vp' rest'].
    + unfold lastSegment.
      replace (index =? length viewParts - 1)%nat with true
        by (symmetry; apply Nat.eqb_eq; cbn [length] in Hlen; lia).
      cbn [negb]. rewrite Hget.
      change (if negb false then pushLayout views emptyResult
              else emptyResult) with (pushLayout views emptyResult).
      replace (pushHooks views (pushLayout views emptyResult))
        with emptyResult by (symmetry; apply (pushes_nothing false)).
      cbn [length] in Hlen.
      destruct (decide ([vp] = drop index pathParts)) as [Heq|Hneq].
      * assert (Hl : length pathParts = length viewParts).
        { apply (f_equal length) in Heq. rewrite length_drop in Heq.
          cbn [length] in Heq. symmetry in Hpart.
          apply lookup_lt_Some in Hpart. lia. }
        rewrite <- Hl, Nat.eqb_refl. by destruct v.
      * assert (Hl : (length viewParts =? length pathParts)%nat = false).
        { apply Nat.eqb_neq. intros Hl. apply Hneq.
          symmetry in Hpart. rewrite (drop_S _ _ _ Hpart).
          rewrite drop_ge by lia. done. }
        rewrite Hl. by destruct v.
    + rewrite lastSegment_continue by (cbn [length] in Hlen; lia).
      rewrite IH; [|cbn [length] in *; lia|done|done].
      symmetry in Hpart. rewrite (drop_S _ _ _ Hpart).
      destruct (decide (vp' :: rest' = drop (S index) pathParts))
        as [Heq|Hneq].
      * rewrite decide_True; [done|]. by rewrite Heq.
      * rewrite decide_False; [done|]. intros Heq. apply Hneq.
        by injection Heq.
  - rewrite decide_False; [done|]. intros Heq. apply Hpart.
    destruct (pathParts !! index) as [x|] eqn:Hx.
    + rewrite (drop_S _ _ _ Hx) in Heq. by injection Heq as ->.
    + rewrite drop_ge in Heq; [done|]. by apply lookup_ge_None.
Qed.
End StaticScan.

Lemma split_lacks_all (s : string) :
  Forall (fun x => lacks "/" x = true) (Js.split "/" s).
Proof.
  induction s as [|c s IH]; [by repeat constructor|].
  rewrite split_cons.
  destruct (Ascii.eqb c "/") eqn:Hc; [by constructor|].
  destruct (Js.split "/" s) as [|x xs]; [by repeat constructor; cbn; rewrite Hc|].
  apply Forall_cons in IH as [Hx Hxs].
  constructor; [|done]. cbn [lacks]. by rewrite Hc, Hx.
Qed.

(** A key that begins with a slash is its segments, each behind a
    slash. *)
Lemma slash_key_parts k :
  Js.startsWith k "/" = true ->
  viewPartsOf k = drop 1 (Js.split "/" k)
  /\ viewPartsOf k <> []
  /\ Forall (fun x => lacks "/" x = true) (viewPartsOf k)
  /\ slashed (viewPartsOf k) = k
  /\ "/" +:+ Js.join "/" (viewPartsOf k) = k.
Proof.
  intros Hk. destruct (split_slash_head k Hk) as [Hsplit Hne].
  pose proof (split_lacks_all k) as Hl. pose proof (join_split k) as Hj.
  unfold viewPartsOf. rewrite Hsplit in Hl, Hj |- *.
  cbn [drop]. rewrite drop_0.
  set (vps := drop 1 (Js.split "/" k)) in *.
  apply Forall_cons in Hl as [_ Hl].
  destruct vps as [|x xs]; [done|].
  rewrite join_cons, append_nil_l in Hj.
  repeat split; try done.
  by rewrite slashed_join.
Qed.

Lemma slashed_inj l1 l2 :
  Forall (fun x => lacks "/" x = true) l1 ->
  Forall (fun x => lacks "/" x = true) l2 ->
  slashed l1 = slashed l2 -> l1 = l2.
Proof.
  intros H1 H2 Heq. apply (f_equal (Js.split "/")) in Heq.
  rewrite !split_slashed in Heq by done. by injection Heq.
Qed.

Lemma staticKey_spec k :
  staticKey k = true ->
  Js.startsWith k "/" = true
  /\ Forall (fun vp => literalPart vp = true) (viewPartsOf k).
Proof.
  unfold staticKey. intros [Hroot|Hk]%orb_true_iff.
  - apply String.eqb_eq in Hroot. subst k. split; [done|].
    by repeat constructor.
  - apply andb_true_iff in Hk as [Hs Hall]. split; [done|].
    destruct (slash_key_parts k Hs) as (-> & _).
    apply Forall_forall. intros vp Hvp. apply plainLiteral_literalPart.
    rewrite forallb_forall in Hall. apply Hall.
    by apply list_elem_of_In.
Qed.

Section StaticTable.
Variable views : list (string * (Value * (string -> Res MatchResult))).
Variable pathParts : list string.
Hypothesis no_layout : obj_get "layout" views = None.
Hypothesis no_hooks : obj_get "hooks" views = None.
Hypothesis path_lacks : Forall (fun x => lacks "/" x = true) pathParts.

(** The scan of static keys that hold views stops at the key that is the
    path, if there is one. *)
Lemma scanViews_static more : forall keys,
  Forall (fun k => staticKey k = true
                   /\ exists v nested,
                        obj_get k views = Some (v, nested)
                        /\ isView v = true) keys ->
  scanViews views pathParts (keys ++ more) emptyResult
  = if decide (slashed pathParts ∈ keys)
    then Ok (with_match (fst <$> obj_get (slashed pathParts) views)
                        emptyResult)
    else scanViews views pathParts more emptyResult.
Proof.
  induction keys as [|k keys IH]; intros Hkeys.
  - rewrite decide_False; [done|]. apply not_elem_of_nil.
  - apply Forall_cons in Hkeys as [(Hstatic & v & nested & Hget & Hview) Hkeys].
    destruct (staticKey_spec k Hstatic) as [Hslash Hlit].
    destruct (slash_key_parts k Hslash) as (_ & Hne & Hlacks & Hsl & Hjoin).
    cbn [app scanViews]. cbv zeta.
    rewrite (scanParts_literal views pathParts no_layout no_hooks
               (viewPartsOf k) v nested);
      [|by rewrite Hjoin|done|done|done|done].
    rewrite drop_0.
    destruct (decide (viewPartsOf k = pathParts)) as [Heq|Hneq].
    + assert (Hk : slashed pathParts = k) by (by rewrite <- Heq).
      rewrite decide_True by (rewrite Hk; by left).
      by rewrite Hk, Hget.
    + rewrite IH by done.
      assert (Hk : slashed pathParts <> k).
      { intros Hk. apply Hneq. apply slashed_inj; [done..|].
        by rewrite Hsl. }
      destruct (decide (slashed pathParts ∈ keys)) as [Hin|Hnin].
      * rewrite decide_True; [done|]. by right.
      * rewrite decide_False; [done|]. by intros [?|?]%elem_of_cons.
Qed.
End StaticTable.

Lemma stripTrailingSlash_slash p :
  Js.startsWith p "/" = true ->
  Js.startsWith (stripTrailingSlash p) "/" = true.
Proof.
  intros Hp. unfold stripTrailingSlash.
  destruct ((1 <? String.length p)%nat && Js.endsWith p "/") eqn:Hc;
    [|done].
  apply andb_true_iff in Hc as [Hlen Hend]. apply Nat.ltb_lt in Hlen.
  destruct (string_snoc p) as (r & c & ->); [by destruct p|].
  rewrite slice_init.
  rewrite length_append in Hlen. cbn [String.length] in Hlen.
  rewrite startsWith_slash_app in Hp; [done|].
  intros ->. cbn in Hlen. lia.
Qed.

(** The segments of a path that begins with a slash. *)
Lemma path_parts p :
  Js.startsWith p "/" = true ->
  let pathParts := drop 1 (Js.split "/" (stripTrailingSlash p)) in
  Forall (fun x => lacks "/" x = true) pathParts
  /\ slashed pathParts = stripTrailingSlash p.
Proof.
  intros Hp pathParts.
  destruct (slash_key_parts _ (stripTrailingSlash_slash p Hp))
    as (Hv & _ & Hl & Hs & _).
  unfold pathParts. rewrite <- Hv. by split.
Qed.

Lemma obj_get_elem {V} k (table : list (string * V)) :
  k ∈ map fst table -> exists v, obj_get k table = Some v /\ (k, v) ∈ table.
Proof.
  induction table as [|[k' v'] table IH]; cbn [map fst].
  - by intros ?%elem_of_nil.
  - cbn [obj_get]. destruct (String.eqb_spec k' k) as [->|Hne].
    + intros _. exists v'. split; [done|]. by left.
    + intros [?|Hin]%elem_of_cons; [congruence|].
      destruct (IH Hin) as (v & Hv & Hel). exists v. split; [done|].
      by right.
Qed.

Lemma obj_get_None {V} k (table : list (string * V)) :
  k ∉ map fst table -> obj_get k table = None.
Proof.
  induction table as [|[k' v'] table IH]; cbn [map fst obj_get]; [done|].
  intros Hnin. destruct (String.eqb_spec k' k) as [->|Hne].
  - exfalso. apply Hnin. by left.
  - apply IH. intros Hin. apply Hnin. by right.
Qed.

Lemma staticTable_entries table :
  staticTable table = true ->
  forall k v, (k, v) ∈ table -> staticKey k = true /\ isView v = true.
Proof.
  unfold staticTable. rewrite forallb_forall. intros H k v Hin.
  apply list_elem_of_In in Hin. specialize (H _ Hin).
  by apply andb_true_iff in H.
Qed.

Lemma staticTable_reserved table name :
  staticTable table = true -> Js.startsWith name "/" = false ->
  obj_get name (scanned table) = None.
Proof.
  intros Hst Hname. rewrite obj_get_scanned.
  rewrite obj_get_None; [done|].
  intros Hin. destruct (obj_get_elem _ _ Hin) as (v & _ & Hel).
  destruct (staticTable_entries table Hst _ _ Hel) as [Hk _].
  destruct (staticKey_spec _ Hk) as [Hs _]. congruence.
Qed.

Lemma staticTable_keys table keys :
  staticTable table = true ->
  (forall k, k ∈ keys -> k ∈ map fst table) ->
  Forall (fun k => staticKey k = true
                   /\ exists v nested,
                        obj_get k (scanned table) = Some (v, nested)
                        /\ isView v = true) keys.
Proof.
  intros Hst Hsub. apply Forall_forall. intros k Hk.
  destruct (obj_get_elem _ _ (Hsub k Hk)) as (v & Hget & Hel).
  destruct (staticTable_entries table Hst _ _ Hel) as [Hkey Hview].
  split; [done|]. exists v, (matchValue v).
  by rewrite obj_get_scanned, Hget.
Qed.

(** X17.  [matchView] on a table of static keys that hold views, each
    key ['/'] or literal segments behind slashes, without layout, hooks
    or nested table, is a lookup: for a pathname that begins with a
    slash the match is the view under the key that is the pathname, one
    trailing slash removed, and there is no match when there is no such
    key; no layout, hook or param comes with it. *)
Theorem matchView_static_table_is_lookup table pathname :
  staticTable table = true ->
  Js.startsWith pathname "/" = true ->
  matchView pathname table
  = Ok (with_match (obj_get (stripTrailingSlash pathname) table)
                   emptyResult).
Proof.
  intros Hst Hp. rewrite matchView_unfold.
  destruct (path_parts pathname Hp) as [Hlacks Hsl]. cbv zeta in Hlacks, Hsl.
  set (pathParts := drop 1 (Js.split "/" (stripTrailingSlash pathname))) in *.
  rewrite <- (app_nil_r (sortViews (map fst table))).
  rewrite (scanViews_static (scanned table) pathParts); try done.
  - rewrite Hsl. cbn [scanViews].
    destruct (decide (stripTrailingSlash pathname
                      ∈ sortViews (map fst table))) as [Hin|Hnin].
    + rewrite obj_get_scanned.
      by destruct (obj_get (stripTrailingSlash pathname) table).
    + rewrite obj_get_None; [done|].
      intros Hin. apply Hnin. by rewrite sortViews_perm.
  - by apply staticTable_reserved.
  - by apply staticTable_reserved.
  - apply staticTable_keys; [done|]. intros k Hk.
    by rewrite sortViews_perm in Hk.
Qed.

Lemma matchView_static_table_is_lookup_witness :
  matchView "/users/new/"
    [("/", view "Home"); ("/users", view "List");
     ("/users/new", view "Create")]
  = Ok (with_match (Some (view "Create")) emptyResult).
Proof.
  apply (matchView_static_table_is_lookup
           [("/", view "Home"); ("/users", view "List");
            ("/users/new", view "Create")] "/users/new/");
    reflexivity.
Defined.

(** X18.  [matchView] removes one trailing slash: a pathname that is not
    empty and does not end with a slash matches as the same pathname
    with a slash behind it, whatever the table. *)
Theorem matchView_ignores_trailing_slash pathname table :
  pathname <> "" -> Js.endsWith pathname "/" = false ->
  matchView (pathname +:+ "/") table = matchView pathname table.
Proof.
  intros Hne Hend. rewrite !matchView_unfold.
  assert (H1 : stripTrailingSlash (pathname +:+ "/") = pathname).
  { unfold stripTrailingSlash.
    rewrite endsWith_slash, lastChar_snoc, length_append.
    replace (1 <? _)%nat with true.
    - cbn [andb]. change (Ascii.eqb "/" "/") with true. cbv iota.
      apply slice_init.
    - symmetry. apply Nat.ltb_lt. destruct pathname; [done|].
      cbn [String.length]. lia. }
  assert (H2 : stripTrailingSlash pathname = pathname).
  { unfold stripTrailingSlash. by rewrite Hend, andb_false_r. }
  by rewrite H1, H2.
Qed.

Lemma matchView_ignores_trailing_slash_witness :
  matchView ("/users/42" +:+ "/") usersTable
  = matchView "/users/42" usersTable.
Proof.
  apply (matchView_ignores_trailing_slash "/users/42" usersTable);
    [discriminate|reflexivity].
Defined.

(** ** A wildcard beside static keys *)

Lemma insertView_last w : forall l,
  Forall (fun k => (getViewPriority k < getViewPriority w)%Z) l ->
  insertView w l = (l ++ [w])%list.
Proof.
  induction l as [|y ys IH]; intros Hl; [done|].
  apply Forall_cons in Hl as [Hy Hys]. cbn [insertView app].
  destruct (Z.leb_spec (getViewPriority w) (getViewPriority y)); [lia|].
  by rewrite IH.
Qed.

Lemma insertView_before_last v w : forall l,
  (getViewPriority v < getViewPriority w)%Z ->
  insertView v (l ++ [w]) = (insertView v l ++ [w])%list.
Proof.
  induction l as [|y ys IH]; intros Hv; cbn [insertView app].
  - destruct (Z.leb_spec (getViewPriority v) (getViewPriority w));
      [done|lia].
  - destruct (getViewPriority v <=? getViewPriority y)%Z; [done|].
    by rewrite IH.
Qed.

(** A key of the greatest priority among the keys is sorted last. *)
Lemma sortViews_last w k1 k2 :
  Forall (fun k => (getViewPriority k < getViewPriority w)%Z) (k1 ++ k2) ->
  sortViews (k1 ++ w :: k2) = (sortViews (k1 ++ k2) ++ [w])%list.
Proof.
  intros Hall. apply Forall_app in Hall as [H1 H2].
  unfold sortViews. rewrite !foldr_app. cbn [foldr].
  fold (sortViews k2).
  rewrite insertView_last
    by (by rewrite (sortViews_perm k2)).
  induction H1 as [|k k1 Hk _ IH]; cbn [foldr]; [done|].
  by rewrite IH, insertView_before_last.
Qed.

Lemma priority_below_wildcard k w :
  Js.startsWith k "/" = true -> Js.startsWith w "*" = true ->
  (getViewPriority k < getViewPriority w)%Z.
Proof.
  intros Hk Hw. unfold getViewPriority.
  assert (Hks : Js.startsWith k "*" = false).
  { destruct k as [|c k]; [done|]. rewrite startsWith_slash in Hk.
    apply Ascii.eqb_eq in Hk. by subst c. }
  assert (Hw1 : String.eqb w "" || String.eqb w "/" = false).
  { destruct w as [|c w]; [done|].
    change "*" with (String "*" "") in Hw.
    rewrite startsWith_cons in Hw. apply andb_true_iff in Hw as [Hc _].
    apply Ascii.eqb_eq in Hc. subst c.
    destruct (String.eqb_spec (String "*" w) "/"); [congruence|done]. }
  rewrite Hw1, Hw, Hks.
  destruct ((k =? "")%string || (k =? "/")%string); [lia|].
  destruct (Js.includes k ":"); lia.
Qed.

Lemma obj_get_middle_other {V} k w (W : V) t1 t2 :
  k <> w -> obj_get k (t1 ++ (w, W) :: t2) = obj_get k (t1 ++ t2).
Proof.
  intros Hne. induction t1 as [|[k' v'] t1 IH]; cbn [app obj_get].
  - destruct (String.eqb_spec w k); [congruence|done].
  - by rewrite IH.
Qed.

Lemma obj_get_middle_same {V} w (W : V) t1 t2 :
  w ∉ map fst t1 -> obj_get w (t1 ++ (w, W) :: t2) = Some W.
Proof.
  induction t1 as [|[k' v'] t1 IH]; cbn [app obj_get map fst]; intros Hnin.
  - by rewrite String.eqb_refl.
  - destruct (String.eqb_spec k' w) as [->|_].
    + exfalso. apply Hnin. by left.
    + apply IH. intros Hin. apply Hnin. by right.
Qed.

Lemma split_lacks_single (s : string) :
  lacks "/" s = true -> Js.split "/" s = [s].
Proof.
  intros Hs. pose proof (split_lacks_app s "" Hs) as H.
  change (Js.split "/" "") with [""] in H. cbv iota in H.
  by rewrite !append_nil_r in H.
Qed.

Lemma star_not_slash w :
  Js.startsWith w "*" = true ->
  Js.startsWith w "/" = false /\ Js.startsWith w ":" = false
  /\ Js.startsWith w "(" = false /\ w <> "".
Proof.
  destruct w as [|c w]; [done|].
  change "*" with (String "*" ""). rewrite startsWith_cons.
  intros [Hc _]%andb_true_iff. apply Ascii.eqb_eq in Hc. by subst c.
Qed.

(** X19.  [matchView] on a table of static keys that hold views and one
    wildcard key without slash: for a pathname that begins with a slash,
    the match is the view under the key that is the pathname (one
    trailing slash removed) when there is one; otherwise it is the value
    under the wildcard key, whose name, if it has one, is bound to the
    pathname without its leading slash. *)
Theorem matchView_wildcard_takes_the_rest t1 t2 w W pathname :
  staticTable (t1 ++ t2)%list = true ->
  Js.startsWith w "*" = true -> lacks "/" w = true ->
  Js.startsWith pathname "/" = true ->
  matchView pathname (t1 ++ (w, W) :: t2)%list
  = Ok (match obj_get (stripTrailingSlash pathname) (t1 ++ t2)%list with
        | Some v => with_match (Some v) emptyResult
        | None =>
            wildcardResult w W (Js.slice (stripTrailingSlash pathname) 1 None)
        end).
Proof.
  intros Hst Hw Hwl Hp. rewrite matchView_unfold.
  destruct (path_parts pathname Hp) as [Hlacks Hsl]. cbv zeta in Hlacks, Hsl.
  set (pathParts := drop 1 (Js.split "/" (stripTrailingSlash pathname))) in *.
  set (table := (t1 ++ (w, W) :: t2)%list).
  destruct (star_not_slash w Hw) as (Hws & Hwc & Hwb & Hwne).
  assert (Hkeys : forall k, k ∈ map fst (t1 ++ t2)%list ->
                            Js.startsWith k "/" = true).
  { intros k Hin. destruct (obj_get_elem _ _ Hin) as (v & _ & Hel).
    destruct (staticTable_entries _ Hst _ _ Hel) as [Hk _].
    by destruct (staticKey_spec _ Hk). }
  assert (Hother : forall k, Js.startsWith k "/" = true ->
            obj_get k (scanned table)
            = (fun v => (v, matchValue v)) <$> obj_get k (t1 ++ t2)%list).
  { intros k Hk. rewrite obj_get_scanned. unfold table.
    rewrite obj_get_middle_other; [done|]. intros ->. congruence. }
  assert (Hreserved : forall name,
            Js.startsWith name "/" = false -> name <> w ->
            obj_get name (scanned table) = None).
  { intros name Hname Hne. rewrite obj_get_scanned. unfold table.
    rewrite obj_get_middle_other by done.
    pose proof (staticTable_reserved (t1 ++ t2)%list name Hst Hname) as H.
    rewrite obj_get_scanned in H.
    by destruct (obj_get name (t1 ++ t2)%list). }
  assert (Hnl : obj_get "layout" (scanned table) = None).
  { apply Hreserved; [done|]. intros <-. done. }
  assert (Hnh : obj_get "hooks" (scanned table) = None).
  { apply Hreserved; [done|]. intros <-. done. }
  assert (Hsorted : sortViews (map fst table)
                    = (sortViews (map fst (t1 ++ t2)%list) ++ [w])%list).
  { unfold table. rewrite !map_app. cbn [map fst].
    apply sortViews_last. rewrite <- map_app.
    apply Forall_forall. intros k Hk.
    apply priority_below_wildcard; [by apply Hkeys|done]. }
  rewrite Hsorted.
  rewrite (scanViews_static (scanned table) pathParts Hnl Hnh Hlacks).
  - rewrite Hsl.
    assert (Htarget : Js.startsWith (stripTrailingSlash pathname) "/" = true)
      by (by apply stripTrailingSlash_slash).
    destruct (decide (stripTrailingSlash pathname
                      ∈ sortViews (map fst (t1 ++ t2)%list))) as [Hin|Hnin].
    + rewrite Hother by done.
      rewrite sortViews_perm in Hin.
      destruct (obj_get_elem _ _ Hin) as (v & -> & _). done.
    + rewrite obj_get_None
        by (intros Hin; apply Hnin; by rewrite sortViews_perm).
      cbn [scanViews]. cbv zeta.
      assert (Hparts : viewPartsOf w = [w]).
      { unfold viewPartsOf. rewrite split_lacks_single by done.
        by destruct w. }
      rewrite Hparts, scanParts_cons.
      assert (Hb : isBoundary w = false)
        by (unfold isBoundary; by rewrite Hwb).
      assert (Hsb : stripBoundary w = w)
        by (unfold stripBoundary; by rewrite Hb).
      unfold isDynamicPart, isWildcardPart. rewrite Hsb, Hb, Hwc, Hw.
      cbv zeta. cbv iota.
      change (with_break false emptyResult) with emptyResult.
      unfold pushLayout. rewrite Hnl.
      change ((0 =? 0)%nat) with true. cbv iota.
      change (Js.join "/" [w]) with w. rewrite append_nil_l.
      rewrite obj_get_scanned. unfold table.
      rewrite obj_get_middle_same.
      * rewrite drop_0.
        assert (Hrest : Js.join "/" pathParts
                        = Js.slice (stripTrailingSlash pathname) 1 None).
        { rewrite <- Hsl.
          assert (Hne : pathParts <> []).
          { unfold pathParts.
            by destruct (split_slash_head _ Htarget). }
          rewrite slashed_join by done.
          change ("/" +:+ ?x) with (String "/" x).
          by rewrite slice_tail. }
        rewrite Hrest. unfold wildcardResult.
        by destruct (String.eqb (Js.slice w 1 None) "").
      * intros Hin.
        assert (Hin' : w ∈ map fst (t1 ++ t2)%list).
        { rewrite map_app. apply elem_of_app. by left. }
        specialize (Hkeys w Hin'). congruence.
  - apply Forall_forall. intros k Hk. rewrite sortViews_perm in Hk.
    destruct (obj_get_elem _ _ Hk) as (v & Hget & Hel).
    destruct (staticTable_entries _ Hst _ _ Hel) as [Hkey Hview].
    split; [done|]. exists v, (matchValue v).
    rewrite Hother; [by rewrite Hget|by apply Hkeys].
Qed.

Lemma matchView_wildcard_takes_the_rest_witness :
  matchView "/files/a/b"
    ([("/", view "Home")] ++ ("*rest", view "Viewer")
       :: [("/about", view "About")])%list
  = Ok (wildcardResult "*rest" (view "Viewer") "files/a/b").
Proof.
  apply (matchView_wildcard_takes_the_rest
           [("/", view "Home")] [("/about", view "About")]
           "*rest" (view "Viewer") "/files/a/b"); reflexivity.
Defined.

(** ** The validation of a table *)

Lemma dynamicTail_colon p : dynamicTail p = true -> Js.includes p ":" = true.
Proof.
  induction p as [|c p IH]; [done|]. cbn [dynamicTail].
  rewrite includes_cons. intros [Hc|Hp]%orb_true_iff.
  - apply andb_true_iff in Hc as [Hc _]. apply Ascii.eqb_eq in Hc. subst c.
    change ":" with (String ":" "") at 1.
    by rewrite startsWith_cons, startsWith_nil_r.
  - by rewrite IH, orb_true_r.
Qed.

(** X20.  Every warning of [validateViews] names a path of the table
    that ends with an asterisk and a second path of the table, other
    than ['/'], that does not end with one, holds a colon with no slash
    behind it, and begins with the first path without its asterisk
    (with ['/:'] when the first path is the asterisk alone).  A wildcard
    with a name is therefore never reported. *)
Theorem validateViews_warns_of views msg :
  msg ∈ validateViews views ->
  exists wildcardPath dynamicPath,
    msg = warning wildcardPath dynamicPath
    /\ wildcardPath ∈ getViewPaths views
    /\ dynamicPath ∈ getViewPaths views
    /\ Js.endsWith wildcardPath "*" = true
    /\ dynamicPath <> "/"
    /\ Js.endsWith dynamicPath "*" = false
    /\ Js.includes dynamicPath ":" = true
    /\ dynamicTail dynamicPath = true
    /\ Js.startsWith dynamicPath
         (if String.eqb (Js.slice wildcardPath 0 (Some (-1)%Z)) ""
          then "/:" else Js.slice wildcardPath 0 (Some (-1)%Z)) = true.
Proof.
  unfold validateViews. cbv zeta.
  intros (w & Hw & Hmsg)%list_elem_of_omap.
  apply list_elem_of_In, filter_In in Hw as [Hw Hend].
  destruct (find _ _) as [d|] eqn:Hfind; [|done].
  destruct (negb (String.eqb d "")); [|done]. injection Hmsg as <-.
  apply find_some in Hfind as [Hd Hclash].
  unfold clashesWith in Hclash. split_andb Hclash.
  exists w, d. repeat split; try done.
  - by apply list_elem_of_In.
  - by apply list_elem_of_In.
  - intros ->. done.
  - by destruct (Js.endsWith d "*").
  - by apply dynamicTail_colon.
Qed.

Lemma validateViews_warns_of_witness :
  exists wildcardPath dynamicPath,
    warning "*" "/:id" = warning wildcardPath dynamicPath
    /\ wildcardPath ∈ getViewPaths [("/:id", view "Detail"); ("*", view "Lost")]
    /\ dynamicPath ∈ getViewPaths [("/:id", view "Detail"); ("*", view "Lost")]
    /\ Js.endsWith wildcardPath "*" = true
    /\ dynamicPath <> "/"
    /\ Js.endsWith dynamicPath "*" = false
    /\ Js.includes dynamicPath ":" = true
    /\ dynamicTail dynamicPath = true
    /\ Js.startsWith dynamicPath
         (if String.eqb (Js.slice wildcardPath 0 (Some (-1)%Z)) ""
          then "/:" else Js.slice wildcardPath 0 (Some (-1)%Z)) = true.
Proof.
  apply (validateViews_warns_of
           [("/:id", view "Detail"); ("*", view "Lost")]
           (warning "*" "/:id")).
  vm_compute. left.
Defined.

Example validateViews_named_wildcard :
  validateViews [("/:id", view "Detail"); ("*rest", view "Lost")] = []
  /\ validateViews [("/:id", view "Detail"); ("*", view "Lost")]
     = [warning "*" "/:id"]
  /\ getViewPaths usersTable = ["/"; "/users"; "/users/:id/posts/:post";
                                "/userslayout"].
Proof. by vm_compute. Qed.

(** ** Clicks on links *)

Section ClickFacts.
Variable views : option Views.
Variable componentToString : CRef -> option string.
Variable resolveURL : string -> Location -> string * string * string.
Variable parseSearch : string -> list (string * string).
Variable fromBeforeLoadHook : State -> bool.
Variable fromDuringLoadHook : State -> bool.
Variable currentOrigin : string.

(** While a transition is in flight, [onNavigate] returns at once. *)
Lemma onNavigate_in_transition table path options s :
  views = Some table -> table <> [] -> isRendering s = false ->
  cycle s = Cab \/ cycle s = Cba ->
  exists s',
    onNavigate views componentToString resolveURL parseSearch
               fromBeforeLoadHook fromDuringLoadHook path options s
    = Returned s'
    /\ sameButFirstBoot s s'.
Proof.
  intros -> Htable Hrender Hcycle. unfold onNavigate.
  destruct (hmrGuard path s && negb (firstBoot s)) eqn:Hguard.
  - exists s. split; [done|]. unfold sameButFirstBoot. tauto.
  - destruct table as [|entry table]; [done|].
    pose proof (clearFirstBoot_same path s) as Hsame.
    cbv beta iota zeta.
    replace (isRendering (clearFirstBoot path s)) with false
      by (unfold sameButFirstBoot in Hsame; intuition congruence).
    exists (clearFirstBoot path s). split; [|exact Hsame].
    replace (cycle (clearFirstBoot path s)) with (cycle s)
      by (unfold sameButFirstBoot in Hsame; intuition congruence).
    by destruct Hcycle as [-> | ->].
Qed.

(** X21.  A click on a link of the document's own origin, without
    [target] and [download] attribute, while a transition is in flight
    ([cycle] is 'ab' or 'ba'): the handler calls
    [event.preventDefault()], and the navigation it starts returns at
    once, so that neither the browser nor the router follows the link;
    the tree, the cycle, the phase, the history and the location stay as
    they are. *)
Theorem onGlobalClick_swallowed_in_transition table anchor url s :
  views = Some table -> table <> [] -> isRendering s = false ->
  cycle s = Cab \/ cycle s = Cba ->
  has_target anchor = false -> has_download anchor = false ->
  href anchor = Some url -> url_origin url = currentOrigin ->
  exists s',
    onGlobalClick views componentToString resolveURL parseSearch
                  fromBeforeLoadHook fromDuringLoadHook currentOrigin
                  (Some anchor) s
    = (true, Returned s')
    /\ sameButFirstBoot s s'.
Proof.
  intros Hviews Htable Hrender Hcycle Ht Hd Hhref Horigin.
  unfold onGlobalClick. rewrite Ht, Hd, Hhref, Horigin, String.eqb_refl.
  cbn [orb negb].
  destruct (onNavigate_in_transition table (Some (url_pathname url))
              (clickOptions anchor url) s) as (s' & -> & Hsame); try done.
  by exists s'.
Qed.
End ClickFacts.

Lemma onGlobalClick_swallowed_in_transition_witness :
  exists s',
    onGlobalClick (Some pagesTable) noFilePath plainURL noSearch
                  notFromHook notFromHook "https://example.org"
                  (Some (plainLink "https://example.org" "/home"))
                  midTransition
    = (true, Returned s')
    /\ sameButFirstBoot midTransition s'.
Proof.
  apply (onGlobalClick_swallowed_in_transition
           (Some pagesTable) noFilePath plainURL noSearch notFromHook
           notFromHook "https://example.org" pagesTable
           (plainLink "https://example.org" "/home")
           {| url_origin := "https://example.org"; url_pathname := "/home";
              url_search := ""; url_hash := "" |} midTransition);
    try reflexivity.
  - discriminate.
  - right. reflexivity.
Defined.

(** The clicks that the handler leaves to the browser, and a click that
    it takes. *)
Example onGlobalClick_cases :
  let click :=
    onGlobalClick (Some pagesTable) noFilePath plainURL noSearch
                  notFromHook notFromHook "https://example.org" in
  click None bootState = (false, Returned bootState)
  /\ click (Some (plainLink "https://elsewhere.org" "/home")) bootState
     = (false, Returned bootState)
  /\ (exists s',
        click (Some (plainLink "https://example.org" "/home")) bootState
        = (true, Returned s')
        /\ br_calls (browser s')
           = [ScrollTo None; PushState HsEmptyObject "/home"]
        /\ cycle s' = Cb).
Proof.
  split; [reflexivity|]. split; [reflexivity|].
  eexists. split; [vm_compute; reflexivity|]. by vm_compute.
Qed.

(** ** What the template mounts *)

Lemma letters_cases cycle l :
  l ∈ letters cycle ->
  letters cycle = [l]
  \/ (exists l', l' <> l /\ (letters cycle = [l; l'] \/ letters cycle = [l'; l])).
Proof.
  destruct cycle, l; cbn [letters]; intros Hin;
    repeat (apply elem_of_cons in Hin as [Hin|Hin]; try discriminate);
    try (by apply elem_of_nil in Hin); try (by left);
    right; first [exists La; split; [done|]; by auto
                 |exists Lb; split; [done|]; by auto].
Qed.

Lemma tree_only_get l l' items e :
  tree_get l' (tree_set l items {| tree_a := []; tree_b := []; tree_eq := e |})
  = if decide (l' = l) then items else [].
Proof. by destruct l, l'. Qed.

Lemma tree_only_eq l items e :
  tree_eq (tree_set l items {| tree_a := []; tree_b := []; tree_eq := e |}) = e.
Proof. by destruct l. Qed.

Lemma lengths_by_letter (t : Tree) :
  length (tree_a t) = length (tree_get La t)
  /\ length (tree_b t) = length (tree_get Lb t).
Proof. done. Qed.

(** The heads of the buffers, in the order of the letters of the cycle,
    beyond the shared slots. *)
Lemma firstComponents_beyond cycle tree depth :
  (tree_eq tree < Z.of_nat depth)%Z ->
  firstComponents cycle tree depth
  = omap (fun ab =>
            match head (tree_get ab tree) with
            | Some obj => Some {| first_ab := ab; first_obj := Some obj |}
            | None => None
            end)
         (letters cycle).
Proof.
  intros Hd. unfold firstComponents.
  destruct (Z.leb_spec (Z.of_nat depth) (tree_eq tree)); [lia|].
  destruct ((length (tree_a tree) =? 0)%nat && (length (tree_b tree) =? 0)%nat)
    eqn:Hempty; [|done].
  apply andb_true_iff in Hempty as [Ha Hb].
  apply Nat.eqb_eq in Ha, Hb.
  apply length_zero_iff_nil in Ha, Hb.
  destruct cycle; simpl; by rewrite ?Ha, ?Hb.
Qed.

(** One buffer alone, beyond the shared slots, is rendered as a chain. *)
Lemma Recursive_only cycle l e :
  l ∈ letters cycle ->
  forall items fuel depth,
    (e < Z.of_nat depth)%Z -> (length items < fuel)%nat ->
    Recursive fuel cycle
      (tree_set l items {| tree_a := []; tree_b := []; tree_eq := e |}) depth
    = chainOf depth items.
Proof.
  intros Hl. induction items as [|it rest IH]; intros fuel depth Hd Hfuel;
    (destruct fuel as [|fuel]; [cbn [length] in Hfuel; lia|]);
    cbn [Recursive chainOf].
  - rewrite firstComponents_beyond by (by rewrite tree_only_eq).
    destruct cycle, l; reflexivity.
  - rewrite firstComponents_beyond by (by rewrite tree_only_eq).
    assert (Hfirst :
      omap (fun ab =>
              match head (tree_get ab
                            (tree_set l (it :: rest)
                               {| tree_a := []; tree_b := []; tree_eq := e |}))
              with
              | Some obj => Some {| first_ab := ab; first_obj := Some obj |}
              | None => None
              end) (letters cycle)
      = [{| first_ab := l; first_obj := Some it |}]).
    { destruct cycle, l; try reflexivity;
        exfalso; cbn [letters] in Hl;
        repeat (apply elem_of_cons in Hl as [Hl|Hl]; try discriminate);
        by apply elem_of_nil in Hl. }
    rewrite Hfirst. cbn [map first_obj first_ab]. f_equal. f_equal.
    assert (Hnested :
      nestedTree (tree_set l (it :: rest)
                    {| tree_a := []; tree_b := []; tree_eq := e |}) depth l
      = tree_set l rest {| tree_a := []; tree_b := []; tree_eq := e |}).
    { unfold nestedTree. rewrite tree_only_eq.
      destruct (Z.leb_spec (Z.of_nat depth) e); [lia|].
      destruct l; reflexivity. }
    rewrite Hnested.
    destruct rest as [|it' rest'].
    + destruct l; reflexivity.
    + rewrite IH by (cbn [length] in *; lia).
      destruct l; reflexivity.
Qed.

(** The children of the mount of a head beyond the shared slots. *)
Lemma children_beyond cycle tree fuel depth l it rest :
  l ∈ letters cycle -> tree_get l tree = it :: rest ->
  (tree_eq tree < Z.of_nat depth)%Z -> (length rest < fuel)%nat ->
  (if (0 <? length (tree_a (restTree tree)))%nat
      || (0 <? length (tree_b (restTree tree)))%nat
   then Recursive fuel cycle (nestedTree tree depth l) (S depth)
   else [])
  = chainOf (S depth) rest.
Proof.
  intros Hl Hget Hd Hfuel.
  assert (Hnested :
    nestedTree tree depth l
    = tree_set l rest
        {| tree_a := []; tree_b := []; tree_eq := tree_eq tree |}).
  { unfold nestedTree.
    destruct (Z.leb_spec (Z.of_nat depth) (tree_eq tree)); [lia|].
    f_equal. destruct l; cbn [tree_get restTree tree_a tree_b] in *;
      by rewrite Hget. }
  destruct (_ || _) eqn:Hcond.
  - rewrite Hnested. apply Recursive_only; [done|lia|done].
  - apply orb_false_iff in Hcond as [Ha Hb].
    apply Nat.ltb_ge in Ha, Hb.
    assert (rest = []) as ->; [|done].
    destruct l; cbn [tree_get restTree tree_a tree_b] in *;
      rewrite Hget in *; cbn [drop] in *; rewrite drop_0 in *;
      apply length_zero_iff_nil; lia.
Qed.

(** Beyond the shared slots each buffer of the cycle is rendered as a
    chain of its own, in the order of the letters of the cycle. *)
Lemma Recursive_beyond cycle tree fuel depth :
  (tree_eq tree < Z.of_nat depth)%Z ->
  (Nat.max (length (tree_a tree)) (length (tree_b tree)) < fuel)%nat ->
  Recursive fuel cycle tree depth
  = flat_map (fun l => chainOf depth (tree_get l tree)) (letters cycle).
Proof.
  intros Hd Hfuel. destruct fuel as [|fuel]; [lia|].
  cbn [Recursive]. rewrite firstComponents_beyond by done.
  assert (Hone : forall l, l ∈ letters cycle ->
    map (fun first =>
           Mount depth (first_obj first)
             (if (0 <? length (tree_a (restTree tree)))%nat
                 || (0 <? length (tree_b (restTree tree)))%nat
              then Recursive fuel cycle
                     (nestedTree tree depth (first_ab first)) (S depth)
              else []))
        (match head (tree_get l tree) with
         | Some obj => [{| first_ab := l; first_obj := Some obj |}]
         | None => []
         end)
    = chainOf depth (tree_get l tree)).
  { intros l Hl. destruct (tree_get l tree) as [|it rest] eqn:Hget; [done|].
    cbn [head map first_obj first_ab chainOf].
    rewrite (children_beyond cycle tree fuel depth l it rest); try done.
    pose proof (lengths_by_letter tree) as [Ha Hb].
    destruct l; rewrite Hget in *; cbn [length] in *; lia. }
  destruct cycle; cbn [letters omap list_omap flat_map];
    repeat match goal with
    | |- context [head (tree_get ?l tree)] =>
        let H := fresh in
        pose proof (Hone l) as H; cbn [letters] in H;
        destruct (head (tree_get l tree)); cbn [map app] in H |- *;
        rewrite <- H by (repeat constructor)
    end; rewrite ?app_nil_r; reflexivity.
Qed.

Lemma restTree_get l tree : tree_get l (restTree tree) = drop 1 (tree_get l tree).
Proof. by destruct l. Qed.

Lemma flat_map_chain_nil {A} (f : A -> list Item) depth (ls : list A) :
  (forall l, f l = []) ->
  flat_map (fun l => chainOf depth (f l)) ls = [].
Proof.
  intros Hf. induction ls as [|l ls IH]; cbn [flat_map]; [done|].
  by rewrite Hf, IH.
Qed.

(** The shared slots are rendered once, from the buffer of the first
    letter of the cycle; below them come the chains of the buffers. *)
Lemma Recursive_shared cycle : forall n tree fuel depth,
  Z.of_nat (depth + n) = (tree_eq tree + 1)%Z ->
  (n <= length (tree_get (firstLetter cycle) tree))%nat ->
  (Nat.max (length (tree_a tree)) (length (tree_b tree)) < fuel)%nat ->
  Recursive fuel cycle tree depth
  = sharedChain depth (take n (tree_get (firstLetter cycle) tree))
      (flat_map (fun l => chainOf (depth + n) (drop n (tree_get l tree)))
                (letters cycle)).
Proof.
  induction n as [|n IH]; intros tree fuel depth Heq Hn Hfuel.
  - rewrite Nat.add_0_r. cbn [take sharedChain].
    rewrite Recursive_beyond by (done || lia).
    apply flat_map_ext. intros l. by rewrite drop_0.
  - destruct (tree_get (firstLetter cycle) tree) as [|it rest0] eqn:Hget;
      [cbn [length] in Hn; lia|].
    destruct fuel as [|fuel]; [lia|].
    cbn [Recursive take sharedChain].
    pose proof (lengths_by_letter tree) as [Ha Hb].
    assert (Hfirst : firstComponents cycle tree depth
                     = [{| first_ab := La; first_obj := Some it |}]).
    { unfold firstComponents.
      destruct (Z.leb_spec (Z.of_nat depth) (tree_eq tree)); [|lia].
      rewrite Hget. cbn [head].
      destruct ((length (tree_a tree) =? 0)%nat
                && (length (tree_b tree) =? 0)%nat) eqn:Hempty; [|done].
      apply andb_true_iff in Hempty as [Hea Heb].
      apply Nat.eqb_eq in Hea, Heb.
      destruct (firstLetter cycle); rewrite Hget in *;
        cbn [length] in *; lia. }
    rewrite Hfirst. cbn [map first_obj first_ab]. do 2 f_equal.
    assert (Hnested : nestedTree tree depth La = restTree tree).
    { unfold nestedTree.
      by destruct (Z.leb_spec (Z.of_nat depth) (tree_eq tree)); [|lia]. }
    rewrite Hnested.
    assert (Hrest0 : tree_get (firstLetter cycle) (restTree tree) = rest0).
    { rewrite restTree_get, Hget. cbn [drop]. by rewrite drop_0. }
    assert (Hdrop : forall l, drop n (tree_get l (restTree tree))
                              = drop (S n) (tree_get l tree)).
    { intros l. rewrite restTree_get, drop_drop. f_equal. }
    destruct (_ || _) eqn:Hcond.
    + rewrite (IH (restTree tree) fuel (S depth)).
      * rewrite Hrest0. f_equal.
        replace (S depth + n)%nat with (depth + S n)%nat by lia.
        apply flat_map_ext. intros l. by rewrite Hdrop.
      * cbn [restTree tree_eq]. lia.
      * rewrite Hrest0. cbn [length] in Hn. lia.
      * cbn [restTree tree_a tree_b]. rewrite !length_drop.
        destruct (firstLetter cycle); rewrite Hget in *;
          cbn [length] in *; lia.
    + apply orb_false_iff in Hcond as [Hca Hcb].
      apply Nat.ltb_ge in Hca, Hcb.
      cbn [restTree tree_a tree_b] in Hca, Hcb.
      rewrite length_drop in Hca, Hcb.
      assert (rest0 = []) as ->.
      { apply length_zero_iff_nil.
        destruct (firstLetter cycle); rewrite Hget in *;
          cbn [length] in *; lia. }
      rewrite take_nil. cbn [sharedChain].
      symmetry. apply flat_map_chain_nil. intros l.
      apply drop_ge. destruct l; cbn [tree_get]; lia.
Qed.

Lemma sharedChain_chain n : forall depth items,
  sharedChain depth (take n items) (chainOf (depth + n) (drop n items))
  = chainOf depth items.
Proof.
  induction n as [|n IH]; intros depth items.
  - by rewrite Nat.add_0_r, drop_0.
  - destruct items as [|it rest]; [done|].
    cbn [take drop sharedChain chainOf]. do 2 f_equal.
    rewrite <- (IH (S depth) rest). do 2 f_equal. lia.
Qed.

(** X22.  At rest ([cycle] is 'a' or 'b'), with [eq] from -1 to below
    the length of the buffer that the cycle names, the template mounts
    the slots of that buffer and nothing else: one component per slot,
    each the only child of the one before, bound under its depth and its
    key; the other buffer is not rendered. *)
Theorem renderTree_at_rest cycle tree :
  cycle = Ca \/ cycle = Cb ->
  (-1 <= tree_eq tree
   < Z.of_nat (length (tree_get (firstLetter cycle) tree)))%Z ->
  renderTree cycle tree = chainOf 0 (tree_get (firstLetter cycle) tree).
Proof.
  intros Hc Heq. unfold renderTree.
  rewrite (Recursive_shared cycle (Z.to_nat (tree_eq tree + 1)))
    by lia.
  rewrite <- (sharedChain_chain (Z.to_nat (tree_eq tree + 1)) 0
                (tree_get (firstLetter cycle) tree)).
  f_equal. destruct Hc as [-> | ->]; cbn [letters flat_map firstLetter];
    by rewrite app_nil_r.
Qed.

Lemma renderTree_at_rest_witness :
  renderTree Cb run1 = chainOf 0 (tree_b run1).
Proof.
  apply (renderTree_at_rest Cb run1); [by right|].
  by vm_compute.
Defined.

(** X23.  During the transition of a reconciliation, the template
    mounts the slots that the two buffers share once, taken from the
    incoming buffer, one below the other; below the last of them it
    mounts side by side the chain of the remaining incoming slots and the
    chain of the remaining outgoing slots.  The two slots at the head of
    these chains never have the same key. *)
Theorem renderTree_in_transition prev next d ps m :
  let t := (calculateTree prev next d ps m).1 in
  let incoming := tree_get (direction_split d).1 t in
  let outgoing := tree_get (direction_split d).2 prev in
  let k := commonPrefix outgoing incoming in
  renderTree (cycle_of d) t
  = sharedChain 0 (take k incoming)
      (chainOf k (drop k incoming) ++ chainOf k (drop k outgoing))
  /\ (forall x y, incoming !! k = Some x -> outgoing !! k = Some y ->
                  item_key x = (item_key y + 1)%Z).
Proof.
  intros t incoming outgoing k.
  destruct (calculateTree_eq_keys prev next d ps m) as [Heq Hkeys].
  fold t in Heq, Hkeys. cbv zeta in Heq, Hkeys.
  fold outgoing incoming in Heq, Hkeys. fold k in Heq.
  assert (Hout : tree_get (direction_split d).2 t = outgoing).
  { unfold t.
    by destruct (calculateTree_spec prev next d ps m (direction_split d).1
                   (direction_split d).2) as (-> & _);
      [by destruct d|]. }
  pose proof (commonPrefix_le outgoing incoming) as Hk. fold k in Hk.
  split.
  - unfold renderTree.
    rewrite (Recursive_shared (cycle_of d) k).
    + replace (tree_get (firstLetter (cycle_of d)) t) with incoming
        by (by destruct d).
      f_equal.
      replace (letters (cycle_of d))
        with [(direction_split d).1; (direction_split d).2]
        by (by destruct d).
      cbn [flat_map]. rewrite app_nil_r. fold incoming.
      by rewrite Hout.
    + rewrite Heq. lia.
    + replace (tree_get (firstLetter (cycle_of d)) t) with incoming
        by (by destruct d). lia.
    + lia.
  - intros x y Hx Hy. rewrite (Hkeys k x Hx).
    unfold inheritedKey. rewrite Hy. simpl.
    rewrite Heq.
    destruct (Z.leb_spec (Z.of_nat k) (Z.of_nat k - 1)); lia.
Qed.

(** Before the first navigation nothing is mounted; during the second of
    the four navigations the layout is mounted once, with the page that
    comes and the page that goes below it. *)
Example renderTree_examples :
  renderTree Ca initialTree = []
  /\ renderTree Cab run2
     = [Mount 0 (Some (slot "Layout" 1))
          [Mount 1 (Some (slot "Page2" 2)) [];
           Mount 1 (Some (slot "Page1" 1)) []]].
Proof. by vm_compute. Qed.

(** ** The paths of a table and the matcher *)

Lemma Value_table_ind (P : Value -> Prop) :
  (forall vc, P (VView vc)) ->
  (forall vc o, P (VPair vc o)) ->
  (forall h, P (VHooks h)) ->
  (forall entries, Forall (fun kv => P kv.2) entries -> P (VTable entries)) ->
  forall v, P v.
Proof.
  intros Hview Hpair Hhooks Htable.
  refine (fix IH v :=
            match v with
            | VView vc => Hview vc
            | VPair vc o => Hpair vc o
            | VHooks h => Hhooks h
            | VTable entries =>
                Htable entries
                  ((fix go (l : list (string * Value))
                      : Forall (fun kv => P kv.2) l :=
                      match l with
                      | [] => Forall_nil_2 _
                      | kv :: l' => Forall_cons_2 _ _ _ (IH kv.2) (go l')
                      end) entries)
            end).
Qed.

Example shopTable_paths :
  staticTree (VTable shopTable) = true
  /\ getViewPaths shopTable
     = ["/"; "/shop"; "/shop/cart"; "/shop/item/new"; "/about"].
Proof. by vm_compute. Qed.

Lemma beginsWith_app_l l : forall rest, beginsWith l (l ++ rest) = true.
Proof.
  induction l as [|x l IH]; intros rest; [done|].
  cbn [app beginsWith]. by rewrite String.eqb_refl, IH.
Qed.

(** Segments that begin a list extended beyond another list begin that
    list or are begun by it. *)
Lemma beginsWith_app_cases l1 : forall l2 rest,
  beginsWith l1 (l2 ++ rest) = true ->
  beginsWith l1 l2 = true \/ beginsWith l2 l1 = true.
Proof.
  induction l1 as [|x l1 IH]; intros [|y l2] rest H; cbn [beginsWith];
    try by auto.
  cbn [app beginsWith] in H. apply andb_true_iff in H as [Hxy H].
  rewrite (String.eqb_sym y x), Hxy. cbn [andb]. by eapply IH.
Qed.

Section LiteralScan.
Variable views : list (string * (Value * (string -> Res MatchResult))).
Variable pathParts : list string.

(** The scan of literal segments goes on to the lookup of the key when
    the segments begin the path from [index] on, and leaves the key
    without a trace otherwise. *)
Lemma scanParts_literal_run viewParts : forall rest index,
  (index + length rest = length viewParts)%nat ->
  rest <> [] ->
  Forall (fun vp => literalPart vp = true) rest ->
  scanParts views pathParts viewParts index rest emptyResult
  = if beginsWith rest (drop index pathParts)
    then lastSegment views pathParts viewParts (length viewParts - 1) false
                     (fun st => Ok (NextView, st)) emptyResult
    else Ok (NextView, emptyResult).
Proof.
  induction rest as [|vp rest IH]; intros index Hlen Hne Hlit; [done|].
  apply Forall_cons in Hlit as [Hvp Hlit].
  destruct (literalPart_spec vp Hvp) as (Hb & Hd & Hw & Hs).
  rewrite scanParts_cons, Hb, Hd, Hw, Hs. cbv zeta.
  change (with_break false emptyResult) with emptyResult.
  cbn [length] in Hlen.
  destruct (pathParts !! index) as [x|] eqn:Hx.
  - rewrite (drop_S _ _ _ Hx). cbn [beginsWith].
    case_bool_decide as Hpart; cbn [negb].
    + injection Hpart as <-. rewrite String.eqb_refl. cbn [andb].
      destruct rest as [|vp' rest'].
      * cbn [beginsWith].
        replace index with (length viewParts - 1)%nat
          by (cbn [length] in Hlen; lia).
        reflexivity.
      * rewrite lastSegment_continue by (cbn [length] in Hlen; lia).
        apply IH; [cbn [length] in *; lia|done|done].
    + destruct (String.eqb_spec vp x) as [->|_]; [done|]. done.
  - rewrite drop_ge by (by apply lookup_ge_None).
    cbn [beginsWith]. by case_bool_decide.
Qed.

(** A key of literal segments that do not begin the path is left without
    a trace, whatever it holds. *)
Lemma scanParts_literal_apart key :
  viewPartsOf key <> [] ->
  Forall (fun vp => literalPart vp = true) (viewPartsOf key) ->
  beginsWith (viewPartsOf key) pathParts = false ->
  scanParts views pathParts (viewPartsOf key) 0 (viewPartsOf key) emptyResult
  = Ok (NextView, emptyResult).
Proof.
  intros Hne Hlit Hbegins.
  rewrite scanParts_literal_run by done.
  by rewrite drop_0, Hbegins.
Qed.

(** The scan of the keys stops at the first key whose segments begin the
    path, when the keys before it are apart from the path. *)
Lemma scanViews_apart key others : forall before,
  Forall (fun k => viewPartsOf k <> []
                   /\ Forall (fun vp => literalPart vp = true) (viewPartsOf k)
                   /\ beginsWith (viewPartsOf k) pathParts = false) before ->
  viewPartsOf key <> [] ->
  Forall (fun vp => literalPart vp = true) (viewPartsOf key) ->
  beginsWith (viewPartsOf key) pathParts = true ->
  scanViews views pathParts (before ++ key :: others) emptyResult
  = match lastSegment views pathParts (viewPartsOf key)
            (length (viewPartsOf key) - 1) false
            (fun st => Ok (NextView, st)) emptyResult
    with
    | Throw e => Throw e
    | Ok (BreakOuter, st') => Ok st'
    | Ok (NextView, st') => scanViews views pathParts others st'
    end.
Proof.
  induction before as [|k before IH]; intros Hbefore Hne Hlit Hbegins.
  - cbn [app scanViews]. cbv zeta.
    rewrite scanParts_literal_run by done.
    by rewrite drop_0, Hbegins.
  - apply Forall_cons in Hbefore as [(Hkne & Hklit & Hkb) Hbefore].
    cbn [app scanViews]. cbv zeta.
    rewrite scanParts_literal_apart by done.
    by apply IH.
Qed.
End LiteralScan.

Lemma apartKeys_spec keys :
  apartKeys keys = true ->
  NoDup keys
  /\ forall k k', k ∈ keys -> k' ∈ keys -> k <> k' ->
                  beginsWith (viewPartsOf k) (viewPartsOf k') = false.
Proof.
  unfold apartKeys. intros [Hnd Hall]%andb_true_iff.
  apply bool_decide_eq_true in Hnd. split; [done|].
  intros k k' Hk Hk' Hne.
  rewrite forallb_forall in Hall.
  specialize (Hall k (proj1 (list_elem_of_In _ _) Hk)).
  rewrite forallb_forall in Hall.
  specialize (Hall k' (proj1 (list_elem_of_In _ _) Hk')).
  apply orb_true_iff in Hall as [Heq|Hb].
  - apply String.eqb_eq in Heq. done.
  - by apply negb_true_iff in Hb.
Qed.

Lemma staticTree_entries entries :
  staticTree (VTable entries) = true ->
  apartKeys (map fst entries) = true
  /\ forall k v, (k, v) ∈ entries ->
                 staticKey k = true /\ staticTree v = true.
Proof.
  cbn [staticTree]. intros [Hap Hall]%andb_true_iff. split; [done|].
  intros k v Hin. rewrite forallb_forall in Hall.
  specialize (Hall (k, v) (proj1 (list_elem_of_In _ _) Hin)).
  by apply andb_true_iff in Hall.
Qed.

Lemma obj_get_NoDup {V} (entries : list (string * V)) k v :
  NoDup (map fst entries) -> (k, v) ∈ entries -> obj_get k entries = Some v.
Proof.
  induction entries as [|[k' v'] entries IH]; intros Hnd Hin.
  - by apply elem_of_nil in Hin.
  - cbn [map fst] in Hnd. apply NoDup_cons in Hnd as [Hnin Hnd].
    cbn [obj_get]. apply elem_of_cons in Hin as [Heq|Hin].
    + injection Heq as <- <-. by rewrite String.eqb_refl.
    + destruct (String.eqb_spec k' k) as [->|_]; [|by apply IH].
      exfalso. apply Hnin. apply list_elem_of_fmap.
      by exists (k, v).
Qed.

Lemma sorted_split keys k :
  NoDup keys -> k ∈ keys ->
  exists before others,
    sortViews keys = (before ++ k :: others)%list
    /\ forall k', k' ∈ before -> k' ∈ keys /\ k' <> k.
Proof.
  intros Hnd Hk.
  assert (Hks : k ∈ sortViews keys) by (by rewrite sortViews_perm).
  apply list_elem_of_split in Hks as (before & others & Hsplit).
  exists before, others. split; [done|].
  intros k' Hk'.
  assert (Hnd' : NoDup (sortViews keys)) by (by rewrite sortViews_perm).
  rewrite Hsplit in Hnd'. apply NoDup_app in Hnd' as (_ & Hdis & _).
  split.
  - rewrite <- (sortViews_perm keys), Hsplit. apply elem_of_app. by left.
  - intros ->. apply (Hdis k Hk'). by left.
Qed.

Lemma endsWith_slash_app_r (a b : string) :
  b <> "" -> Js.endsWith (a +:+ b) "/" = Js.endsWith b "/".
Proof. intros Hb. by rewrite !endsWith_slash, lastChar_app. Qed.

(** A static key is the root or does not end with a slash. *)
Lemma staticKey_end k :
  staticKey k = true -> k = "/" \/ Js.endsWith k "/" = false.
Proof.
  unfold staticKey. intros [Hroot|Hk]%orb_true_iff.
  - apply String.eqb_eq in Hroot. by left.
  - right. apply andb_true_iff in Hk as [Hs Hall].
    destruct (slash_key_parts k Hs) as (Hv & Hne & Hl & Hsl & _).
    rewrite <- Hv in Hall. rewrite <- Hsl.
    destruct (exists_last Hne) as (init & x & Hx). rewrite Hx in *.
    rewrite slashed_app.
    change (slashed [x]) with (String "/" (x +:+ "")).
    rewrite append_nil_r.
    rewrite forallb_forall in Hall.
    assert (Hplain : plainLiteral x = true).
    { apply Hall. apply in_or_app. right. by left. }
    unfold plainLiteral in Hplain. split_andb Hplain.
    rewrite endsWith_slash_app_r by done.
    change (String "/" x) with ("/" +:+ x).
    assert (Hxne : x <> "") by (by destruct x).
    rewrite endsWith_slash_app_r by done.
    rewrite endsWith_slash.
    by destruct (lacks_nonempty_last "/" x) as (d & -> & Hd).
Qed.

Lemma strip_of_end q :
  q = "/" \/ Js.endsWith q "/" = false -> stripTrailingSlash q = q.
Proof.
  unfold stripTrailingSlash. intros [->|Hend]; [done|].
  by rewrite Hend, andb_false_r.
Qed.

Lemma slashed_nonempty segs : segs <> [] -> exists r, slashed segs = String "/" r.
Proof. destruct segs as [|x segs]; [done|]. intros _. by eexists. Qed.

Lemma staticTree_reserved entries name :
  staticTree (VTable entries) = true -> Js.startsWith name "/" = false ->
  obj_get name (scanned entries) = None.
Proof.
  intros Hst Hname. destruct (staticTree_entries entries Hst) as [_ Hent].
  rewrite obj_get_scanned, obj_get_None; [done|].
  intros Hin. destruct (obj_get_elem _ _ Hin) as (v & _ & Hel).
  destruct (Hent _ _ Hel) as [Hk _].
  destruct (staticKey_spec _ Hk) as [Hs _]. congruence.
Qed.

(** One level of a tree of static tables: the scan of the keys comes to
    the lookup of the key whose segments begin the path. *)
Lemma static_level entries k v rest :
  staticTree (VTable entries) = true -> (k, v) ∈ entries ->
  Forall (fun x => lacks "/" x = true) rest ->
  stripTrailingSlash (slashed (viewPartsOf k ++ rest))
  = slashed (viewPartsOf k ++ rest) ->
  exists others,
    matchView (slashed (viewPartsOf k ++ rest)) entries
    = match lastSegment (scanned entries) (viewPartsOf k ++ rest)
              (viewPartsOf k) (length (viewPartsOf k) - 1) false
              (fun st => Ok (NextView, st)) emptyResult
      with
      | Throw e => Throw e
      | Ok (BreakOuter, st') => Ok st'
      | Ok (NextView, st') =>
          scanViews (scanned entries) (viewPartsOf k ++ rest) others st'
      end.
Proof.
  intros Hst Hin Hrest Hstrip.
  destruct (staticTree_entries entries Hst) as [Hap Hent].
  destruct (apartKeys_spec _ Hap) as [Hnd Happ].
  destruct (Hent k v Hin) as [Hkey _].
  destruct (staticKey_spec k Hkey) as [Hslash Hlit].
  destruct (slash_key_parts k Hslash) as (_ & Hne & Hlacks & _ & _).
  assert (Hk : k ∈ map fst entries).
  { apply list_elem_of_fmap. by exists (k, v). }
  destruct (sorted_split _ k Hnd Hk) as (before & others & Hsorted & Hbefore).
  exists others.
  rewrite matchView_unfold, Hstrip, Hsorted.
  rewrite split_slashed by (apply Forall_app; by split).
  cbn [drop]. rewrite drop_0.
  apply scanViews_apart; try done.
  - apply Forall_forall. intros k' Hk'.
    destruct (Hbefore k' Hk') as [Hk'in Hk'ne].
    destruct (obj_get_elem _ _ Hk'in) as (v' & _ & Hel').
    destruct (Hent k' v' Hel') as [Hkey' _].
    destruct (staticKey_spec k' Hkey') as [Hslash' Hlit'].
    destruct (slash_key_parts k' Hslash') as (_ & Hne' & _).
    split; [done|]. split; [done|].
    destruct (beginsWith (viewPartsOf k') (viewPartsOf k ++ rest)) eqn:Hb;
      [|done].
    exfalso. apply beginsWith_app_cases in Hb as [Hb|Hb].
    + rewrite (Happ k' k) in Hb; done.
    + rewrite (Happ k k') in Hb; done.
  - apply beginsWith_app_l.
Qed.

Lemma drop_own_length (ks rest : list string) :
  ks <> [] -> drop (S (length ks - 1)) (ks ++ rest) = rest.
Proof.
  intros Hne. replace (S (length ks - 1)) with (length ks).
  - by rewrite drop_app_length.
  - destruct ks; [done|]. cbn [length]. lia.
Qed.

(** [viewLeaves] lists the paths of [getViewPaths], in order. *)
Lemma viewLeaves_paths : forall table,
  map fst (viewLeaves table) = getViewPaths table.
Proof.
  assert (H : forall v k, map fst (leavesUnder k v) = pathsUnder k v).
  { intros v. induction v as [| | |entries IH] using Value_table_ind;
      intros k; cbn [leavesUnder pathsUnder]; try done.
    - by rewrite map_map.
    - rewrite map_map. cbn [fst].
      rewrite <- (map_map fst (nestedPath k)). f_equal.
      induction IH as [|[k' v'] entries Hv _ IHl]; [done|].
      cbn [flat_map fst snd] in *. by rewrite map_app, Hv, IHl. }
  intros table. unfold viewLeaves, getViewPaths.
  induction table as [|[k v] table IH]; [done|].
  cbn [flat_map fst snd]. by rewrite map_app, H, IH.
Qed.

(** Every path that [getViewPaths] lists for a tree of static tables is
    matched by the view it is listed for. *)
Lemma static_paths_matched : forall v entries,
  v = VTable entries -> staticTree v = true ->
  forall q w, (q, w) ∈ viewLeaves entries ->
    (q = "/" \/ Js.endsWith q "/" = false)
    /\ (exists segs, q = slashed segs /\ segs <> []
                     /\ Forall (fun x => lacks "/" x = true) segs)
    /\ isView w = true
    /\ matchView q entries = Ok (with_match (Some w) emptyResult).
Proof.
  intros v. induction v as [| | |entries0 IH] using Value_table_ind;
    intros entries Hv; try discriminate.
  injection Hv as <-. intros Hst q w Hq.
  unfold viewLeaves in Hq.
  apply list_elem_of_In, in_flat_map in Hq as ([k v] & Hin & Hq).
  apply list_elem_of_In in Hin, Hq. cbn [fst snd] in Hq.
  rewrite Forall_forall in IH. specialize (IH (k, v) Hin). cbn [snd] in IH.
  destruct (staticTree_entries entries0 Hst) as [Hap Hent].
  destruct (apartKeys_spec _ Hap) as [Hnd _].
  destruct (Hent k v Hin) as [Hkey Hsub].
  destruct (staticKey_spec k Hkey) as [Hslash Hlit].
  destruct (slash_key_parts k Hslash) as (_ & Hne & Hlacks & Hsl & Hjoin).
  pose proof (staticTree_reserved entries0 "layout" Hst eq_refl) as Hnl.
  pose proof (staticTree_reserved entries0 "hooks" Hst eq_refl) as Hnh.
  assert (Hget : obj_get ("/" +:+ Js.join "/" (viewPartsOf k))
                         (scanned entries0)
                 = Some (v, matchValue v)).
  { rewrite Hjoin, obj_get_scanned, (obj_get_NoDup entries0 k v); done. }
  assert (Hview : isView v = true -> (q, w) = (k, v) ->
            (q = "/" \/ Js.endsWith q "/" = false)
            /\ (exists segs, q = slashed segs /\ segs <> []
                             /\ Forall (fun x => lacks "/" x = true) segs)
            /\ isView w = true
            /\ matchView q entries0 = Ok (with_match (Some w) emptyResult)).
  { intros Hv [= -> ->]. split; [by apply staticKey_end|].
    split; [by exists (viewPartsOf k)|]. split; [done|].
    destruct (static_level entries0 k v [] Hst Hin) as (others & Hlevel);
      [done|by rewrite app_nil_r, Hsl; apply strip_of_end, staticKey_end|].
    rewrite app_nil_r, Hsl in Hlevel. rewrite Hlevel.
    rewrite (lastSegment_view _ _ _ _ _ _ _ v (matchValue v)); try done.
    by rewrite (pushes_nothing _ Hnl Hnh). }
  destruct v as [vc|vc o|sub|h].
  - apply Hview; [done|]. cbn [leavesUnder] in Hq.
    by apply list_elem_of_singleton in Hq.
  - apply Hview; [done|]. cbn [leavesUnder] in Hq.
    by apply list_elem_of_singleton in Hq.
  - clear Hview. cbn [leavesUnder] in Hq.
    apply list_elem_of_fmap in Hq as ([q' w'] & [= -> ->] & Hq').
    cbn [fst snd]. fold (viewLeaves sub) in Hq'.
    destruct (IH sub eq_refl Hsub q' w' Hq')
      as (Hend' & (segs' & Hq'eq & Hne' & Hlacks') & Hw' & Hmatch').
    set (rest := if String.eqb q' "/" then [] else segs').
    assert (Hrest : Forall (fun x => lacks "/" x = true) rest).
    { unfold rest. by destruct (String.eqb q' "/"). }
    assert (Hq : nestedPath k q' = slashed (viewPartsOf k ++ rest)).
    { unfold nestedPath, rest.
      destruct (slashed_nonempty segs' Hne') as (tl & Htl).
      destruct (String.eqb_spec q' "*") as [Hstar|_]; [congruence|].
      destruct (String.eqb_spec q' "/") as [_|_].
      - by rewrite app_nil_r, Hsl.
      - by rewrite slashed_app, Hsl, Hq'eq. }
    assert (Hnested : "/" +:+ Js.join "/" rest = q').
    { unfold rest. destruct (String.eqb_spec q' "/") as [->|_]; [done|].
      by rewrite <- slashed_join, Hq'eq. }
    assert (Hend : nestedPath k q' = "/"
                   \/ Js.endsWith (nestedPath k q') "/" = false).
    { unfold nestedPath.
      destruct (slashed_nonempty segs' Hne') as (tl & Htl).
      destruct (String.eqb_spec q' "*") as [Hstar|_]; [congruence|].
      destruct (String.eqb_spec q' "/") as [_|Hroot];
        [by apply staticKey_end|].
      right. destruct Hend' as [?|Hend']; [done|].
      rewrite endsWith_slash_app_r; [done|]. congruence. }
    split; [done|].
    split.
    { exists (viewPartsOf k ++ rest)%list. split; [done|].
      split; [by destruct (viewPartsOf k)|]. apply Forall_app. by split. }
    split; [done|].
    destruct (static_level entries0 k (VTable sub) rest Hst Hin Hrest)
      as (others & Hlevel); [rewrite <- Hq; by apply strip_of_end|].
    rewrite Hq, Hlevel.
    rewrite (lastSegment_nested _ _ _ _ _ _ _ sub (matchValue (VTable sub))
               (with_match (Some w') emptyResult)); try done.
    + by rewrite (pushes_nothing _ Hnl Hnh).
    + by rewrite drop_own_length, Hnested.
  - discriminate.
Qed.

(** X24.  For a tree of static tables (at each level keys of literal
    segments, none beginning another, that hold views or such tables; no
    layout, hooks, parameter or wildcard), every path that
    [getViewPaths] lists is matched by [matchView], and by the view it
    is listed for, a nested ['/'] standing for the key of its table;
    nothing comes with the match. *)
Theorem getViewPaths_are_matched table path w :
  staticTree (VTable table) = true ->
  (path, w) ∈ viewLeaves table ->
  path ∈ getViewPaths table
  /\ isView w = true
  /\ matchView path table = Ok (with_match (Some w) emptyResult).
Proof.
  intros Hst Hin.
  destruct (static_paths_matched (VTable table) table eq_refl Hst path w Hin)
    as (_ & _ & Hw & Hmatch).
  split; [|by split].
  rewrite <- viewLeaves_paths. apply list_elem_of_fmap. by exists (path, w).
Qed.

Lemma getViewPaths_are_matched_witness :
  "/shop/item/new" ∈ getViewPaths shopTable
  /\ isView (view "NewItem") = true
  /\ matchView "/shop/item/new" shopTable
     = Ok (with_match (Some (view "NewItem")) emptyResult).
Proof.
  apply (getViewPaths_are_matched shopTable "/shop/item/new"
           (view "NewItem")).
  - reflexivity.
  - vm_compute. do 3 right. left.
Defined.

Example getViewPaths_nested_root :
  matchView "/shop" shopTable
  = Ok (with_match (Some (view "Shelves")) emptyResult).
Proof. reflexivity. Qed.

Lemma slash_name_parts name :
  plainLiteral name = true ->
  name <> ""
  /\ lacks "/" name = true
  /\ Js.split "/" (String "/" name) = [""; name]
  /\ stripTrailingSlash (String "/" name) = String "/" name
  /\ viewPartsOf name = [name]
  /\ literalPart name = true.
Proof.
  intros Hname. pose proof (plainLiteral_literalPart _ Hname) as Hlit.
  unfold plainLiteral in Hname.
  apply andb_true_iff in Hname as [Hname _].
  apply andb_true_iff in Hname as [Hname _].
  apply andb_true_iff in Hname as [Hname _].
  apply andb_true_iff in Hname as [Hne Hlacks].
  assert (Hne' : name <> "") by (by intros ->).
  assert (Hsplit : Js.split "/" (String "/" name) = [""; name]).
  { pose proof (split_slashed [name]) as Hs.
    change (slashed [name]) with (String "/" (name +:+ "")) in Hs.
    rewrite append_nil_r in Hs. apply Hs. by repeat constructor. }
  repeat split; try done.
  - apply strip_of_end. right.
    change (String "/" name) with ("/" +:+ name).
    rewrite endsWith_slash_app_r by done.
    rewrite endsWith_slash.
    by destruct (lacks_nonempty_last "/" name Hlacks Hne') as (d & -> & ->).
  - unfold viewPartsOf. rewrite split_lacks_single by done.
    by destruct name.
Qed.

(** X25.  A key that does not begin with a slash, the reserved [layout]
    and [hooks] among them, is compared with the path like any other key:
    for the path that spells it behind a slash, [matchView] looks up that
    path in the table, and throws a [TypeError] when the table has no
    such key, its other keys being static. *)
Theorem matchView_slashless_key_throws table name :
  plainLiteral name = true ->
  name ∈ map fst table ->
  (forall k, k ∈ map fst table -> k = name \/ staticKey k = true) ->
  obj_get ("/" +:+ name) table = None ->
  matchView ("/" +:+ name) table = Throw TypeError.
Proof.
  intros Hname Hin Hkeys Hnone.
  destruct (slash_name_parts name Hname)
    as (Hne & Hlacks & Hsplit & Hstrip & Hparts & Hlit).
  assert (Hsorted : name ∈ sortViews (map fst table))
    by (by rewrite sortViews_perm).
  apply list_elem_of_split_l in Hsorted as (before & others & Hsorted & Hnb).
  rewrite matchView_unfold.
  change ("/" +:+ name) with (String "/" name) in *.
  rewrite Hstrip, Hsplit, Hsorted. cbn [drop].
  rewrite (scanViews_apart _ [name] name others before).
  - rewrite Hparts. unfold lastSegment. cbn [length Nat.sub Nat.eqb negb].
    change (Js.join "/" [name]) with name.
    change ("/" +:+ name) with (String "/" name).
    by rewrite obj_get_scanned, Hnone.
  - apply Forall_forall. intros k Hk.
    assert (Hk' : k ∈ map fst table).
    { rewrite <- (sortViews_perm (map fst table)), Hsorted.
      apply elem_of_app. by left. }
    destruct (Hkeys k Hk') as [->|Hst]; [done|].
    destruct (staticKey_spec k Hst) as [Hslash Hklit].
    destruct (slash_key_parts k Hslash) as (_ & Hkne & Hkl & _ & Hjoin).
    split; [done|]. split; [done|].
    destruct (viewPartsOf k) as [|x [|y l]] eqn:Hvp; [done| |].
    + cbn [beginsWith]. rewrite andb_true_r.
      destruct (String.eqb_spec x name) as [->|]; [|done].
      exfalso. change (Js.join "/" [name]) with name in Hjoin.
      change ("/" +:+ name) with (String "/" name) in Hjoin.
      rewrite <- Hjoin in Hk'.
      destruct (obj_get_elem _ _ Hk') as (v & Hv & _). congruence.
    + cbn [beginsWith]. by rewrite andb_false_r.
  - by rewrite Hparts.
  - by rewrite Hparts; repeat constructor.
  - rewrite Hparts. cbn [beginsWith]. by rewrite String.eqb_refl.
Qed.

Lemma matchView_slashless_key_throws_witness :
  matchView "/layout" [("/", view "Home"); ("layout", view "Shell")]
  = Throw TypeError.
Proof.
  apply (matchView_slashless_key_throws
           [("/", view "Home"); ("layout", view "Shell")] "layout").
  - reflexivity.
  - vm_compute. set_solver.
  - intros k Hk. vm_compute in Hk.
    apply elem_of_cons in Hk as [->|Hk]; [by right|].
    apply elem_of_cons in Hk as [->|Hk]; [by left|].
    by apply elem_of_nil in Hk.
  - reflexivity.
Defined.

(** ** The round trip along a route *)


Lemma obj_set_keys {V} k (v : V) obj x :
  x ∈ map fst (obj_set k v obj) <-> x = k \/ x ∈ map fst obj.
Proof.
  induction obj as [|[k0 v0] obj IH]; cbn [obj_set map fst].
  - rewrite list_elem_of_singleton, elem_of_nil. tauto.
  - destruct (String.eqb_spec k0 k) as [->|Hne]; cbn [map fst].
    + rewrite !elem_of_cons. tauto.
    + rewrite !elem_of_cons, IH. tauto.
Qed.







Lemma obj_sets_keys {V} (ys : list (string * V)) : forall x k,
  k ∈ map fst (foldl (fun acc kv => obj_set kv.1 kv.2 acc) x ys)
  <-> k ∈ map fst x \/ k ∈ map fst ys.
Proof.
  induction ys as [|[k0 v0] ys IH]; intros x k; cbn [foldl map fst].
  - rewrite elem_of_nil. tauto.
  - rewrite IH, obj_set_keys, elem_of_cons. tauto.
Qed.













